(** * Eyelid-openness calibration pipeline

    A shallow embedding of the calibration pipeline of the eye-tracking
    client (services/opennessComputationService.ts and the two micro-model
    modules under services/models) together with the properties its
    specification states about it.

    Conventions of the embedding.
    - A JavaScript [number] that carries a measurement is a rational [Q]:
      the finite values and their order.  [NaN] and the infinities are
      outside the model, except where the source uses [NaN] as a sentinel,
      which is then an [option].
    - Array indices are integers [Z], because the source computes them
      with subtraction ([i - minRun]) before it guards them.
    - Module-level mutable objects (the three calibration buffers, the
      model registry) are passed and returned explicitly.
    - The TensorFlow.js model objects are opaque: a model is what its
      [predict] returns on a latent triple. *)

From Stdlib Require Import ZArith QArith Qminmax List Bool Lia Lqa Permutation Sorted.
From stdpp Require Import strings pretty gmap.
Import ListNotations.

Local Open Scope Z_scope.

(** ** JavaScript array helpers *)

Module JsArray.

(** [xs.map((x, i) => f(i, x))], the index counted from [i]. *)
Fixpoint mapiFrom {A B : Type} (f : nat -> A -> B) (i : nat) (xs : list A) : list B :=
  match xs with
  | [] => []
  | x :: t => f i x :: mapiFrom f (S i) t
  end.

Definition mapi {A B : Type} (f : nat -> A -> B) (xs : list A) : list B :=
  mapiFrom f 0 xs.

(** A relative index of [Array.prototype.slice]: negative counts from the
    end, and the result is clipped to [0, len]. *)
Definition relIndex (len k : Z) : Z :=
  if k <? 0 then Z.max (len + k) 0 else Z.min k len.

(** [xs.slice(s, e)]. *)
Definition slice {A : Type} (s e : Z) (xs : list A) : list A :=
  let len := Z.of_nat (length xs) in
  let from := relIndex len s in
  let upto := relIndex len e in
  firstn (Z.to_nat (Z.max (upto - from) 0)) (skipn (Z.to_nat from) xs).

(** [xs[i]] for an integer [i]; [None] is JavaScript's [undefined]. *)
Definition get {A : Type} (xs : list A) (i : Z) : option A :=
  if i <? 0 then None else nth_error xs (Z.to_nat i).

(** [Array.from({ length: n }, (_, k) => from + k)]. *)
Definition range (from n : Z) : list Z :=
  map (fun k => from + Z.of_nat k) (seq 0 (Z.to_nat n)).

(** Insertion into an ascending list, after the elements that are not
    larger: the sort below is stable, as [Array.prototype.sort] is. *)
Fixpoint insertBy {A : Type} (leb : A -> A -> bool) (x : A) (xs : list A) : list A :=
  match xs with
  | [] => [x]
  | y :: t => if leb y x then y :: insertBy leb x t else x :: xs
  end.

(** [xs.sort((a, b) => a - b)] on a copy, for an order [leb]. *)
Definition sortBy {A : Type} (leb : A -> A -> bool) (xs : list A) : list A :=
  fold_left (fun acc x => insertBy leb x acc) xs [].

End JsArray.

(** ** Signal smoothing ([smoothSeries]) *)

Module Smoother.
Import JsArray.
Local Open Scope Q_scope.

(** [Math.max(0, Math.min(1, v))]. *)
Definition clamp01 (v : Q) : Q := Qmax 0 (Qmin 1 v).

(** The body of the [pred.map] callback of the median pass:
    [w] is the sorted window, [m = w.length >> 1].  The window of an index
    contains that index, so both reads fall inside [w]. *)
Definition medianOfSorted (w : list Q) : Q :=
  let m := Nat.shiftr (length w) 1 in
  if Nat.odd (length w) then nth m w 0
  else (nth (m - 1) w 0 + nth m w 0) / 2.

Definition medianAt (pred : list Q) (medWin : nat) (i : nat) : Q :=
  let half := Z.of_nat (Nat.shiftr medWin 1) in
  let s := Z.max 0 (Z.of_nat i - half) in
  let e := Z.min (Z.of_nat (length pred)) (Z.of_nat i + half + 1) in
  medianOfSorted (sortBy Qle_bool (slice s e pred)).

(** The loop [acc = alpha * med[i] + (1 - alpha) * acc; out[i] = acc]
    over the remaining elements, in the order the loop visits them. *)
Fixpoint emaLoop (alpha acc : Q) (rest : list Q) : list Q :=
  match rest with
  | [] => []
  | m :: t =>
      let acc' := alpha * m + (1 - alpha) * acc in
      acc' :: emaLoop alpha acc' t
  end.

(** The accumulator starts at the first visited element, which is also
    the first value written. *)
Definition ema (alpha : Q) (visited : list Q) : list Q :=
  match visited with
  | [] => []
  | m0 :: t => m0 :: emaLoop alpha m0 t
  end.

(** The recurrence both moving averages follow, over the values [h 0],
    [h 1], ... in the order the loop visits them. *)
Fixpoint emaRec (alpha : Q) (h : nat -> Q) (d : nat) : Q :=
  match d with
  | O => h O
  | S d' => alpha * h d + (1 - alpha) * emaRec alpha h d'
  end.

Definition smoothSeriesWith (medWin : nat) (alpha : Q) (pred : list Q) : list Q :=
  match pred with
  | [] => []
  | _ :: _ =>
      let med := mapi (fun i _ => medianAt pred medWin i) pred in
      let fwd := ema alpha med in
      (* the anti-causal loop visits the indices from the last one down *)
      let bwd := rev (ema alpha (rev med)) in
      let out := mapi (fun i v => (v + nth i bwd 0) / 2) fwd in
      map clamp01 out
  end.

(** [smoothSeries(pred, 5, 0.35)], the call [labelBlinkExtrema] makes and
    the function's defaults. *)
Definition smoothSeries (pred : list Q) : list Q :=
  smoothSeriesWith 5 0.35 pred.

(** *** The filter as the specification words it, index by index

    The reference below uses none of the functions above: the window is
    cut out with [firstn] and [skipn], "sorted" is the property of being an
    ascending rearrangement, the two moving averages are their
    recurrences, and the clamp is a case distinction. *)

Section Reference.
Variable medWin : nat.
Variable alpha : Q.
Variable input : list Q.

(** The slice of the input over
    [[max(0, i - medWin/2), min(len, i + medWin/2 + 1))]. *)
Definition specWindow (i : nat) : list Q :=
  let half := (medWin / 2)%nat in
  let lo := Nat.max 0 (i - half) in
  let hi := Nat.min (length input) (i + half + 1) in
  firstn (hi - lo) (skipn lo input).

(** [w] is the slice [window], sorted: the same values, in ascending
    order. *)
Definition sortedSlice (window w : list Q) : Prop :=
  Permutation w window /\ StronglySorted Qle w.

(** The median of a sorted slice: its central value, or the average of
    the two central values when the length is even. *)
Definition specMedian (w : list Q) : Q :=
  let n := length w in
  if Nat.even n then (nth (n / 2 - 1) w 0 + nth (n / 2) w 0) / 2
  else nth (n / 2) w 0.

(** [med] is the median pass: at every index, the median of the sorted
    slice of the input around it. *)
Definition medianPass (med : nat -> Q) : Prop :=
  forall i w,
    (i < length input)%nat -> sortedSlice (specWindow i) w -> med i == specMedian w.

Variable med : nat -> Q.

(** [fwd[0] = med[0]; fwd[i] = alpha * med[i] + (1 - alpha) * fwd[i-1]]. *)
Fixpoint specFwd (i : nat) : Q :=
  match i with
  | O => med 0
  | S j => alpha * med i + (1 - alpha) * specFwd j
  end.

(** [bwd[last] = med[last]; bwd[i] = alpha * med[i] + (1 - alpha) * bwd[i+1]];
    [d] is the distance of the index from [last]. *)
Fixpoint specBwdBack (last d : nat) : Q :=
  match d with
  | O => med last
  | S d' => alpha * med (last - d) + (1 - alpha) * specBwdBack last d'
  end.

Definition specBwd (i : nat) : Q :=
  let last := (length input - 1)%nat in
  specBwdBack last (last - i).

(** Clamping to [0, 1]. *)
Definition specClamp (v : Q) : Q :=
  if Qle_bool v 0 then 0 else if Qle_bool 1 v then 1 else v.

Definition specOut (i : nat) : Q :=
  specClamp ((specFwd i + specBwd i) / 2).
End Reference.

End Smoother.

(** ** Blink labelling ([labelBlinkExtrema]) *)

Module Labeler.
Import JsArray.
Local Open Scope Q_scope.

Definition OPEN_TH_FIXED : Q := 0.8.
Definition CLOSE_TH_FIXED : Q := 0.2.

Inductive State : Set := CLOSED | OPEN.

(** [type Extremes = { smooth; peaks; valleys }]. *)
Record Extremes : Type := mkExtremes {
  smooth : list Q;
  peaks : list Z;
  valleys : list Z
}.

(** The variables the scan of [labelBlinkExtrema] mutates; the two index
    lists are named [foundPeaks] and [foundValleys] here, [peaks] and
    [valleys] being the fields of the result. *)
Record Scan : Type := mkScan {
  state : State;
  segStart : Z;
  foundPeaks : list Z;
  foundValleys : list Z;
  overRun : nat;
  underRun : nat
}.

Definition minRun : nat := 3.

(** [Math.min(...xs)] and [Math.max(...xs)].  Of no argument they are the
    infinities, which no sample equals: [None]. *)
Definition mathMin (xs : list Q) : option Q :=
  match xs with
  | [] => None
  | x :: t => Some (fold_left Qmin t x)
  end.

Definition mathMax (xs : list Q) : option Q :=
  match xs with
  | [] => None
  | x :: t => Some (fold_left Qmax t x)
  end.

(** [smooth[i] === extreme]: [undefined] and the infinities equal no
    sample. *)
Definition sameNumber (a b : option Q) : bool :=
  match a, b with
  | Some x, Some y => Qeq_bool x y
  | _, _ => false
  end.

(** [plateau[(plateau.length / 2) | 0]]. *)
Definition plateauMiddle (plateau : list Z) : option Z :=
  nth_error plateau (length plateau / 2).

(** The closure [finishSegment(endIdx, prev)].  The result is [None] when
    the index it would push is [undefined], that is when the plateau is
    empty; otherwise it is the scan with one more valley or peak. *)
Definition finishSegment (smooth : list Q) (sc : Scan) (endIdx : Z) (prev : State)
  : option Scan :=
  if (endIdx <? segStart sc)%Z then Some sc
  else
    let idxs := range (segStart sc) (endIdx - segStart sc + 1) in
    let window := slice (segStart sc) (endIdx + 1) smooth in
    match prev with
    | CLOSED =>
        let minVal := mathMin window in
        let plateau := List.filter (fun i => sameNumber (get smooth i) minVal) idxs in
        match plateauMiddle plateau with
        | Some v =>
            Some (mkScan (state sc) (segStart sc) (foundPeaks sc)
                         (foundValleys sc ++ [v]) (overRun sc) (underRun sc))
        | None => None
        end
    | OPEN =>
        let maxVal := mathMax window in
        let plateau := List.filter (fun i => sameNumber (get smooth i) maxVal) idxs in
        match plateauMiddle plateau with
        | Some p =>
            Some (mkScan (state sc) (segStart sc) (foundPeaks sc ++ [p])
                         (foundValleys sc) (overRun sc) (underRun sc))
        | None => None
        end
    end.

(** The run counters after the threshold test of one loop iteration. *)
Definition countRun (openTh closeTh : Q) (sc : Scan) (y : Q) : Scan :=
  match state sc with
  | CLOSED =>
      if Qle_bool openTh y
      then mkScan (state sc) (segStart sc) (foundPeaks sc) (foundValleys sc)
                  (S (overRun sc)) 0
      else mkScan (state sc) (segStart sc) (foundPeaks sc) (foundValleys sc)
                  0 (underRun sc)
  | OPEN =>
      if Qle_bool y closeTh
      then mkScan (state sc) (segStart sc) (foundPeaks sc) (foundValleys sc)
                  0 (S (underRun sc))
      else mkScan (state sc) (segStart sc) (foundPeaks sc) (foundValleys sc)
                  (overRun sc) 0
  end.

(** Whether the iteration commits a transition: [overRun >= minRun] while
    CLOSED, [underRun >= minRun] while OPEN, after counting. *)
Definition confirms (sc : Scan) : bool :=
  match state sc with
  | CLOSED => (minRun <=? overRun sc)%nat
  | OPEN => (minRun <=? underRun sc)%nat
  end.

(** One iteration of the [for] loop, at index [i] with [y = smooth[i]]. *)
Definition step (smooth : list Q) (openTh closeTh : Q) (sc : Scan) (i : Z) (y : Q)
  : option Scan :=
  let sc1 := countRun openTh closeTh sc y in
  if confirms sc1 then
    match finishSegment smooth sc1 (i - Z.of_nat minRun) (state sc1) with
    | Some sc2 =>
        match state sc1 with
        | CLOSED =>
            Some (mkScan OPEN (i - Z.of_nat minRun + 1) (foundPeaks sc2)
                         (foundValleys sc2) 0 (underRun sc2))
        | OPEN =>
            Some (mkScan CLOSED (i - Z.of_nat minRun + 1) (foundPeaks sc2)
                         (foundValleys sc2) (overRun sc2) 0)
        end
    | None => None
    end
  else Some sc1.

(** The loop from index [i] on, [rest] being the samples not yet visited. *)
Fixpoint scanFrom (smooth : list Q) (openTh closeTh : Q)
  (i : Z) (rest : list Q) (sc : Scan) : option Scan :=
  match rest with
  | [] => Some sc
  | y :: rest' =>
      match step smooth openTh closeTh sc i y with
      | Some sc' => scanFrom smooth openTh closeTh (i + 1) rest' sc'
      | None => None
      end
  end.

Definition initialScan (openTh closeTh : Q) (y0 : Q) : Scan :=
  let mid := (openTh + closeTh) / 2 in
  mkScan (if Qle_bool mid y0 then OPEN else CLOSED) 0 [] [] 0 0.

(** Everything up to and including the final [finishSegment] call, on an
    already smoothed, non-empty series. *)
Definition scanSegments (openTh closeTh : Q) (smooth : list Q) : option Scan :=
  match smooth with
  | [] => None
  | y0 :: _ =>
      match scanFrom smooth openTh closeTh 0 smooth (initialScan openTh closeTh y0) with
      | Some sc => finishSegment smooth sc (Z.of_nat (length smooth) - 1) (state sc)
      | None => None
      end
  end.

(** [a < b] on two array reads; a comparison with [undefined] is false. *)
Definition indexLt (a b : option Z) : bool :=
  match a, b with
  | Some x, Some y => (x <? y)%Z
  | _, _ => false
  end.

Definition lastIndex {A : Type} (xs : list A) : Z := Z.of_nat (length xs) - 1.

(** The block under the comment "Ensure V-P-V pairing". *)
Definition ensurePairing (ps vs : list Z) : list Z * list Z :=
  match ps, vs with
  | _ :: _, _ :: _ =>
      let ps1 := if indexLt (get ps 0) (get vs 0) then tl ps else ps in
      let vs1 :=
        if indexLt (get vs (lastIndex vs)) (get ps1 (lastIndex ps1))
        then removelast vs else vs in
      (ps1, vs1)
  | _, _ => (ps, vs)
  end.

Definition labelBlinkExtremaWith (openTh closeTh : Q) (pred : list Q) : option Extremes :=
  let smooth := Smoother.smoothSeries pred in
  match smooth with
  | [] => Some (mkExtremes smooth [] [])
  | _ :: _ =>
      match scanSegments openTh closeTh smooth with
      | Some sc =>
          let '(ps, vs) := ensurePairing (foundPeaks sc) (foundValleys sc) in
          Some (mkExtremes smooth ps vs)
      | None => None
      end
  end.

(** [labelBlinkExtrema(pred)] with its default and only used thresholds. *)
Definition labelBlinkExtrema (pred : list Q) : option Extremes :=
  labelBlinkExtremaWith OPEN_TH_FIXED CLOSE_TH_FIXED pred.

(** The state of the scan just before iteration [k]. *)
Definition scanPrefix (openTh closeTh : Q) (smooth : list Q) (k : nat) : option Scan :=
  match smooth with
  | [] => None
  | y0 :: _ =>
      scanFrom smooth openTh closeTh 0 (firstn k smooth) (initialScan openTh closeTh y0)
  end.

(** The plateau [finishSegment] selects from, for a segment [from..upto]
    left in state [prev]. *)
Definition plateauOf (smooth : list Q) (from upto : Z) (prev : State) : list Z :=
  let idxs := range from (upto - from + 1) in
  let window := slice from (upto + 1) smooth in
  let extreme := match prev with CLOSED => mathMin window | OPEN => mathMax window end in
  List.filter (fun i => sameNumber (get smooth i) extreme) idxs.

(** *** The pairing invariant of the data model

    The labels of the extrema in index order, and whether they form
    valley-peak pairs: alternating, a valley first and a peak last. *)

Inductive Label : Set := Valley | Peak.

Definition mergedLabels (ps vs : list Z) : list Label :=
  List.map snd
    (sortBy (fun a b => (fst a <=? fst b)%Z)
            (List.map (fun i => (i, Valley)) vs ++ List.map (fun i => (i, Peak)) ps)).

Fixpoint valleyPeakPairs (labels : list Label) : bool :=
  match labels with
  | [] => true
  | Valley :: Peak :: rest => valleyPeakPairs rest
  | _ => false
  end.

End Labeler.

(** *** The labelling procedure as the specification words it (steps 2 to 5)

    Natural-number indices, total reads, and one run counter that counts
    the consecutive samples beyond the threshold of the current state. *)

Module LabelerSpec.
Import Labeler.
Local Open Scope Q_scope.

Section Procedure.
Variable openTh closeTh : Q.
Variable smooth : list Q.

Definition sample (i : nat) : Q := nth i smooth 0.

Definition specMid : Q := (openTh + closeTh) / 2.

Definition specInitialState : State :=
  if Qle_bool specMid (sample 0) then OPEN else CLOSED.

(** Whether a sample counts towards leaving the state. *)
Definition beyond (st : State) (y : Q) : bool :=
  match st with
  | CLOSED => Qle_bool openTh y
  | OPEN => Qle_bool y closeTh
  end.

Definition flip (st : State) : State :=
  match st with CLOSED => OPEN | OPEN => CLOSED end.

(** Step 4: the extreme value of the segment [from..upto], the plateau of
    indices that attain it, and the index at its middle position. *)
Definition segmentIndices (from upto : nat) : list nat :=
  seq from (S upto - from).

Definition extremeValue (st : State) (from upto : nat) : Q :=
  let pick := match st with CLOSED => Qmin | OPEN => Qmax end in
  fold_left (fun acc i => pick acc (sample i)) (segmentIndices (S from) upto) (sample from).

Definition specPlateau (st : State) (from upto : nat) : list nat :=
  List.filter (fun i => Qeq_bool (sample i) (extremeValue st from upto))
         (segmentIndices from upto).

Definition specExtremum (st : State) (from upto : nat) : nat :=
  let plateau := specPlateau st from upto in
  nth (length plateau / 2) plateau 0%nat.

(** The lists found so far, as [(peaks, valleys)]. *)
Definition finalize (st : State) (from upto : nat) (found : list nat * list nat)
  : list nat * list nat :=
  match st with
  | CLOSED => (fst found, snd found ++ [specExtremum CLOSED from upto])
  | OPEN => (fst found ++ [specExtremum OPEN from upto], snd found)
  end.

(** Steps 3 and 5: [todo] indices remain from [i] on. *)
Fixpoint specScan (todo i : nat) (st : State) (from run : nat)
  (found : list nat * list nat) : list nat * list nat :=
  match todo with
  | O => finalize st from (length smooth - 1) found
  | S todo' =>
      let run' := if beyond st (sample i) then S run else O in
      if (run' =? minRun)%nat
      then specScan todo' (S i) (flip st) (i - minRun + 1) 0
                    (finalize st from (i - minRun) found)
      else specScan todo' (S i) st from run' found
  end.

Definition specExtrema : list nat * list nat :=
  specScan (length smooth) 0 specInitialState 0 0 ([], []).

(** The variables of the source's scan that correspond to a point of the
    procedure: the counter of the current state holds the run, the other
    one is zero. *)
Definition scanOf (st : State) (from run : nat) (found : list nat * list nat) : Scan :=
  mkScan st (Z.of_nat from)
         (List.map Z.of_nat (fst found)) (List.map Z.of_nat (snd found))
         (match st with CLOSED => run | OPEN => O end)
         (match st with CLOSED => O | OPEN => run end).

(** Before iteration [k], the run lies strictly inside the segment; at the
    very start the first sample does not count towards a transition. *)
Definition runInside (k : nat) (st : State) (from run : nat) : Prop :=
  (from + run + 1 <= k)%nat \/
  (k = O /\ from = O /\ run = O /\ beyond st (sample 0) = false).

(** A point of the procedure: state, segment start, run and the lists
    found so far. *)
Definition Point : Type := State * nat * nat * (list nat * list nat).

(** Step 3 at index [i]. *)
Definition advance (i : nat) (p : Point) : Point :=
  let '(st, from, run, found) := p in
  let run' := if beyond st (sample i) then S run else O in
  if (run' =? minRun)%nat
  then (flip st, (i - minRun + 1)%nat, O, finalize st from (i - minRun) found)
  else (st, from, run', found).

(** The point of the procedure before iteration [k]. *)
Fixpoint specPoint (k : nat) : Point :=
  match k with
  | O => (specInitialState, O, O, ([], []))
  | S i => advance i (specPoint i)
  end.

Definition scanAt (p : Point) : Scan :=
  let '(st, from, run, found) := p in scanOf st from run found.

Definition specScanAt (todo i : nat) (p : Point) : list nat * list nat :=
  let '(st, from, run, found) := p in specScan todo i st from run found.

(** What holds of the point before iteration [k]. *)
Definition wellPlaced (k : nat) (p : Point) : Prop :=
  let '(st, from, run, found) := p in
  (run < minRun)%nat /\ runInside k st from run /\
  Forall (fun i => (i < length smooth)%nat) (fst found) /\
  Forall (fun i => (i < length smooth)%nat) (snd found).

Definition sameState (a b : State) : bool :=
  match a, b with
  | CLOSED, CLOSED | OPEN, OPEN => true
  | _, _ => false
  end.

(** The indices of the events of one state, in order. *)
Definition indicesOf (st : State) (events : list (nat * State)) : list nat :=
  List.map fst (List.filter (fun e => sameState (snd e) st) events).

(** The indices rise strictly and the states take turns. *)
Fixpoint inTurn (events : list (nat * State)) : Prop :=
  match events with
  | a :: ((b :: _) as rest) =>
      (fst a < fst b)%nat /\ snd b = flip (snd a) /\ inTurn rest
  | _ => True
  end.

(** The extrema in the order in which the procedure finalizes them, each
    with the state of its segment: those of the transitions before
    iteration [k], and all of them. *)
Fixpoint specEvents (k : nat) : list (nat * State) :=
  match k with
  | O => []
  | S i =>
      let '(st, from, run, _) := specPoint i in
      let run' := if beyond st (sample i) then S run else O in
      if (run' =? minRun)%nat
      then specEvents i ++ [(specExtremum st from (i - minRun), st)]
      else specEvents i
  end.

Definition specAllEvents : list (nat * State) :=
  let '(st, from, _, _) := specPoint (length smooth) in
  specEvents (length smooth) ++ [(specExtremum st from (length smooth - 1), st)].

(** What holds of the events before iteration [k]: they are the extrema
    found so far, in turn, and the last one lies before the current
    segment and has the other state. *)
Definition eventsSettled (k : nat) : Prop :=
  let '(st, from, run, found) := specPoint k in
  fst found = indicesOf OPEN (specEvents k) /\
  snd found = indicesOf CLOSED (specEvents k) /\
  inTurn (specEvents k) /\
  forall e, last (specEvents k) = Some e ->
            (fst e < from)%nat /\ snd e = flip st.

(** No iteration below [k] completes a run of [minRun] samples. *)
Definition quietBelow (k : nat) : Prop :=
  forall i st from run found,
    (i < k)%nat -> specPoint i = (st, from, run, found) ->
    (if beyond st (sample i) then S run else O) <> minRun.

End Procedure.
End LabelerSpec.

(** ** Shared types ([models/types.ts]) and the model registry *)

Module Types.

Inductive Eye : Set := EyeCombined | EyeLeft | EyeRight.

Definition eyeName (eye : Eye) : string :=
  match eye with
  | EyeCombined => "combined"
  | EyeLeft => "left"
  | EyeRight => "right"
  end.

Inductive ModelKind : Set := KindBinary | KindSmooth.

Definition kindName (kind : ModelKind) : string :=
  match kind with
  | KindBinary => "binary"
  | KindSmooth => "smooth"
  end.

Definition Vec3 : Type := Q * Q * Q.

(** [[number[], number[], number[]]]: one row per latent component. *)
Definition SampleMatrix : Type := list Q * list Q * list Q.

Definition row0 (m : SampleMatrix) : list Q := fst (fst m).
Definition row1 (m : SampleMatrix) : list Q := snd (fst m).
Definition row2 (m : SampleMatrix) : list Q := snd m.

(** [[m[0][i], m[1][i], m[2][i]]]. *)
Definition frameAt (m : SampleMatrix) (i : nat) : Vec3 :=
  (nth i (row0 m) 0%Q, nth i (row1 m) 0%Q, nth i (row2 m) 0%Q).

(** [m[0].map((_, i) => [m[0][i], m[1][i], m[2][i]])], which is both
    [matToFrames] and the row list given to [tf.tensor2d]. *)
Definition matToFrames (m : SampleMatrix) : list Vec3 :=
  JsArray.mapi (fun i _ => frameAt m i) (row0 m).

Record TrainOpts : Type := mkTrainOpts {
  epochs : option nat;
  learningRate : option Q;
  version : option nat
}.

(** A trained [tf.LayersModel], as far as the pipeline observes it: the
    scalar [model.predict(tf.tensor2d([v], [1, 3])).dataSync()[0]]. *)
Record Model : Type := mkModel { output : Vec3 -> Q }.

End Types.

Module Registry.
Import Types.

Definition DEFAULT_VERSION : nat := 1.

Definition uriFor (key : string) : string := "indexeddb://" +:+ key.

(** The private [map] of the [Registry] class together with the IndexedDB
    store that [model.save(uri)] writes to ([saved]). *)
Record Registry : Type := mkRegistry {
  map : gmap string Model;
  saved : gmap string Model
}.

Definition empty : Registry := mkRegistry ∅ ∅.

Definition has (key : string) (r : Registry) : bool :=
  match map r !! key with Some _ => true | None => false end.

(** [this.map.get(key) ?? null]. *)
Definition get (key : string) (r : Registry) : option Model := map r !! key.

(** [set(key, model, persist)].  Disposing of the replaced model frees
    its tensors and is not modelled. *)
Definition set (key : string) (model : Model) (persist : bool) (r : Registry) : Registry :=
  mkRegistry (<[key := model]> (map r))
             (if persist then <[uriFor key := model]> (saved r) else saved r).

(** [tf.loadLayersModel] throws when nothing is stored under the URI. *)
Definition loadIfExists (key : string) (r : Registry) : Registry :=
  match map r !! key with
  | Some _ => r
  | None =>
      match saved r !! uriFor key with
      | Some m => mkRegistry (<[key := m]> (map r)) (saved r)
      | None => r
      end
  end.

Definition withVersion (kind : ModelKind) (eye : Eye) (v : nat) : string :=
  kindName kind +:+ ":" +:+ eyeName eye +:+ ":v" +:+ pretty v.

(** [save(key)]: writes the in-memory model, if there is one, to the
    store. *)
Definition save (key : string) (r : Registry) : Registry :=
  match map r !! key with
  | Some m => mkRegistry (map r) (<[uriFor key := m]> (saved r))
  | None => r
  end.

(** [dispose(key)]: forgets the in-memory model, if there is one; the
    store keeps what was saved. *)
Definition dispose (key : string) (r : Registry) : Registry :=
  match map r !! key with
  | Some _ => mkRegistry (delete key (map r)) (saved r)
  | None => r
  end.

End Registry.

(** ** Calibration buffers ([CalibrationBuffer], [appendSamples]) *)

Module Capture.
Import Types.

(** The three unassigned encoder outputs of a latent record. *)
Record Latents : Type := mkLatents {
  unsupervised1 : Q;
  unsupervised2 : Q;
  unsupervised3 : Q
}.

(** [interface CalibrationBuffer]; [None] is [null].  Timestamps are the
    integers [Date.now()] produces. *)
Record CalibrationBuffer : Type := mkCalibrationBuffer {
  combined : option SampleMatrix;
  left : option SampleMatrix;
  right : option SampleMatrix;
  lastCombinedTS : option Z;
  lastLeftTS : option Z;
  lastRightTS : option Z;
  ongoing : bool
}.

Definition makeBuffer : CalibrationBuffer :=
  mkCalibrationBuffer None None None None None None false.

Definition emptyMatrix : SampleMatrix := ([], [], []).

(** [if (!b.x) b.x = [[], [], []]]. *)
Definition ensureMatrix (m : option SampleMatrix) : option SampleMatrix :=
  match m with
  | Some _ => m
  | None => Some emptyMatrix
  end.

Definition ensureMatrices (b : CalibrationBuffer) : CalibrationBuffer :=
  mkCalibrationBuffer (ensureMatrix (combined b)) (ensureMatrix (left b))
                      (ensureMatrix (right b))
                      (lastCombinedTS b) (lastLeftTS b) (lastRightTS b) (ongoing b).

(** The three [push] calls on the rows of one matrix. *)
Definition pushLatents (m : option SampleMatrix) (l : Latents) : option SampleMatrix :=
  match m with
  | Some m' =>
      Some (row0 m' ++ [unsupervised1 l], row1 m' ++ [unsupervised2 l],
            row2 m' ++ [unsupervised3 l])
  | None => None
  end.

(** [ts !== null && ts !== last]. *)
Definition isNewTimestamp (ts lastTS : option Z) : bool :=
  match ts with
  | None => false
  | Some t =>
      match lastTS with
      | Some t' => negb (t =? t')%Z
      | None => true
      end
  end.

Definition appendSamples (buffer : CalibrationBuffer)
  (combinedTS leftTS rightTS : option Z)
  (latents latentsLeft latentsRight : Latents) : CalibrationBuffer :=
  let b0 := ensureMatrices buffer in
  let b1 :=
    if isNewTimestamp combinedTS (lastCombinedTS b0)
    then mkCalibrationBuffer (pushLatents (combined b0) latents) (left b0) (right b0)
                             combinedTS (lastLeftTS b0) (lastRightTS b0) (ongoing b0)
    else b0 in
  let b2 :=
    if isNewTimestamp leftTS (lastLeftTS b1)
    then mkCalibrationBuffer (combined b1) (pushLatents (left b1) latentsLeft) (right b1)
                             (lastCombinedTS b1) leftTS (lastRightTS b1) (ongoing b1)
    else b1 in
  if isNewTimestamp rightTS (lastRightTS b2)
  then mkCalibrationBuffer (combined b2) (left b2) (pushLatents (right b2) latentsRight)
                           (lastCombinedTS b2) (lastLeftTS b2) rightTS (ongoing b2)
  else b2.

Definition resetBuffer (b : CalibrationBuffer) : CalibrationBuffer :=
  mkCalibrationBuffer None None None None None None (ongoing b).

Definition setOngoing (flag : bool) (b : CalibrationBuffer) : CalibrationBuffer :=
  mkCalibrationBuffer (combined b) (left b) (right b)
                      (lastCombinedTS b) (lastLeftTS b) (lastRightTS b) flag.

(** [eye === 'combined' ? b.combined : eye === 'left' ? b.left : b.right]. *)
Definition matrixOf (eye : Eye) (b : CalibrationBuffer) : option SampleMatrix :=
  match eye with
  | EyeCombined => combined b
  | EyeLeft => left b
  | EyeRight => right b
  end.

Definition lastTSOf (eye : Eye) (b : CalibrationBuffer) : option Z :=
  match eye with
  | EyeCombined => lastCombinedTS b
  | EyeLeft => lastLeftTS b
  | EyeRight => lastRightTS b
  end.

(** The samples a buffer holds for one eye, oldest first. *)
Definition samplesOf (eye : Eye) (b : CalibrationBuffer) : list Vec3 :=
  match matrixOf eye b with
  | Some m => matToFrames m
  | None => []
  end.

(** The three rows of a matrix hold one value per sample. *)
Definition aligned (m : option SampleMatrix) : Prop :=
  match m with
  | Some m' => length (row1 m') = length (row0 m') /\ length (row2 m') = length (row0 m')
  | None => True
  end.

Definition alignedBuffer (b : CalibrationBuffer) : Prop :=
  aligned (combined b) /\ aligned (left b) /\ aligned (right b).

End Capture.

(** ** The binary open/closed micro-model *)

Module Binary.
Import Types.

Definition VERSION : nat := 1.

Definition getKey (eye : Eye) (version : nat) : string :=
  Registry.withVersion KindBinary eye version.

(** The closure [down] of [train]: [shuffled] is what
    [tf.util.createShuffledIndices(m[0].length)] returned. *)
Definition down (k : nat) (shuffled : list nat) (m : SampleMatrix) : SampleMatrix :=
  let idx := firstn k shuffled in
  (List.map (fun i => nth i (row0 m) 0%Q) idx,
   List.map (fun i => nth i (row1 m) 0%Q) idx,
   List.map (fun i => nth i (row2 m) 0%Q) idx).

(** The tensors [xs] and [ys] handed to [model.fit]. *)
Definition trainingSet (shuffledClosed shuffledOpen : list nat)
  (closed open : SampleMatrix) : list Vec3 * list Q :=
  let k := Nat.min (length (row0 closed)) (length (row0 open)) in
  let c := down k shuffledClosed closed in
  let o := down k shuffledOpen open in
  (matToFrames c ++ matToFrames o, repeat 0%Q k ++ repeat 1%Q k).

Section Trainer.
(** [buildModel], [compile] and [fit]: the trained model as a function of
    the samples, the labels, the epochs and the learning rate. *)
Variable fit : list Vec3 -> list Q -> nat -> Q -> Model.

Definition train (eye : Eye) (closed open : SampleMatrix) (opts : TrainOpts)
  (shuffledClosed shuffledOpen : list nat) (r : Registry.Registry) : Registry.Registry :=
  let version := default VERSION (version opts) in
  let key := getKey eye version in
  let '(xs, ys) := trainingSet shuffledClosed shuffledOpen closed open in
  let model := fit xs ys (default 100%nat (epochs opts))
                   (default 0.01%Q (learningRate opts)) in
  Registry.set key model true r.

End Trainer.

Definition predict (eye : Eye) (v : Vec3) (r : Registry.Registry) : Q :=
  match Registry.get (getKey eye VERSION) r with
  | None => 0.5%Q
  | Some model => Qmin (Qmax (output model v) 0) 1
  end.

End Binary.

(** ** The smooth-blink micro-model *)

Module SmoothBlink.
Import Types.
Local Open Scope Q_scope.

Record BlinkTrainingData : Type := mkBlinkTrainingData {
  latents : SampleMatrix;
  peaks : list Z;
  valleys : list Z
}.

Definition VERSION : nat := 1.

Definition getKey (eye : Eye) (version : nat) : string :=
  Registry.withVersion KindSmooth eye version.

(** [new Set(xs)], as the list of its elements in insertion order. *)
Fixpoint setOf (xs : list Z) : list Z :=
  match xs with
  | [] => []
  | x :: t => x :: List.filter (fun y => negb (y =? x)%Z) (setOf t)
  end.

(** [s.has(i)] and [xs.includes(i)]. *)
Definition has (s : list Z) (i : Z) : bool := existsb (Z.eqb i) s.

(** *** The tensor operations the loss uses

    [None] stands for a call that throws (an index out of range, shapes
    that do not broadcast) or for a [NaN] result (the mean of nothing). *)

Fixpoint gather (y : list Q) (indices : list Z) : option (list Q) :=
  match indices with
  | [] => Some []
  | i :: t =>
      match JsArray.get y i, gather y t with
      | Some v, Some vs => Some (v :: vs)
      | _, _ => None
      end
  end.

Definition sum (xs : list Q) : Q := fold_right Qplus 0 xs.

Definition mean (xs : list Q) : option Q :=
  match xs with
  | [] => None
  | _ :: _ => Some (sum xs / inject_Z (Z.of_nat (length xs)))
  end.

Fixpoint zipWith (f : Q -> Q -> Q) (a b : list Q) : list Q :=
  match a, b with
  | x :: a', y :: b' => f x y :: zipWith f a' b'
  | _, _ => []
  end.

(** Element-wise binary operation on rank-1 tensors, with broadcasting of
    a tensor of one element. *)
Definition elementwise (f : Q -> Q -> Q) (a b : list Q) : option (list Q) :=
  if (length a =? length b)%nat then Some (zipWith f a b)
  else match a, b with
       | [x], _ => Some (List.map (f x) b)
       | _, [y] => Some (List.map (fun x => f x y) a)
       | _, _ => None
       end.

Definition squaredDifference (a b : Q) : Q := (a - b) * (a - b).

(** [tf.losses.meanSquaredError(labels, predictions)] with its default
    reduction and no weights: the sum of the squared differences over
    their number. *)
Definition meanSquaredError (labels predictions : list Q) : option Q :=
  match elementwise squaredDifference labels predictions with
  | Some losses => mean losses
  | None => None
  end.

Definition relu (x : Q) : Q := Qmax x 0.

(** [makeCompositeLoss(orderingSign, peaks, valleys)] applied to the
    predictions [yPred], squeezed to a vector [y]. *)
Definition makeCompositeLoss (orderingSign : list Z) (peakSet valleySet : list Z)
  (y : list Q) : option Q :=
  let N := length y in
  let anchorIdx := peakSet ++ valleySet in
  match gather y anchorIdx with
  | None => None
  | Some yAnchor =>
      let target := List.map (fun i => if has peakSet i then 1 else 0) anchorIdx in
      match meanSquaredError target yAnchor with
      | None => None
      | Some anchorLoss =>
          match y with
          | [] => None
          | _ :: yNext =>
              let yCurr := firstn (N - 1) y in
              match elementwise Qminus yNext yCurr with
              | None => None
              | Some diff =>
                  let sign := List.map inject_Z orderingSign in
                  match elementwise Qmult sign diff with
                  | None => None
                  | Some signed =>
                      match mean (List.map relu (List.map Qopp signed)) with
                      | None => None
                      | Some orderingLoss => Some (anchorLoss + orderingLoss * 0.5)
                      end
                  end
              end
          end
      end
  end.

(** *** The ordering signs built by [train] *)

(** [orderingSign[i] = sgn] for an index inside the array.  Outside it
    JavaScript would grow the array (or add a property), so that its
    length is no longer the [N - 1] the loss multiplies with: [None]. *)
Definition assign (orderingSign : list Z) (i sgn : Z) : option (list Z) :=
  if (0 <=? i)%Z && (i <? Z.of_nat (length orderingSign))%Z
  then Some (<[Z.to_nat i := sgn]> orderingSign)
  else None.

(** [for (let i = s; i < e; i++) orderingSign[i] = sgn], over the indices
    the loop visits. *)
Fixpoint assignEach (sgn : Z) (visited : list Z) (orderingSign : list Z)
  : option (list Z) :=
  match visited with
  | [] => Some orderingSign
  | i :: t =>
      match assign orderingSign i sgn with
      | Some os => assignEach sgn t os
      | None => None
      end
  end.

(** The loop over [k]: [extrema] is what remains from [extrema[k]] on. *)
Fixpoint walk (rising : bool) (extrema : list Z) (orderingSign : list Z)
  : option (list Z) :=
  match extrema with
  | s :: ((e :: _) as rest) =>
      let sgn := if rising then 1%Z else (-1)%Z in
      match assignEach sgn (JsArray.range s (e - s)) orderingSign with
      | Some os => walk (negb rising) rest os
      | None => None
      end
  | _ => Some orderingSign
  end.

(** [Array(N - 1).fill(0)] throws a RangeError for [N = 0]. *)
Definition orderingSigns (N : nat) (data : BlinkTrainingData) : option (list Z) :=
  match N with
  | O => None
  | S n =>
      let orderingSign := repeat 0%Z n in
      let extrema := JsArray.sortBy Z.leb (valleys data ++ peaks data) in
      match extrema with
      | e0 :: _ :: _ => walk (has (valleys data) e0) extrema orderingSign
      | _ => Some orderingSign
      end
  end.

(** *** The ordering signs as the specification words them *)

(** The sorted extrema list [train] walks. *)
Definition extremaOf (data : BlinkTrainingData) : list Z :=
  JsArray.sortBy Z.leb (valleys data ++ peaks data).

(** The sign of position [i] by the start of its interval: [+1] in an
    interval between consecutive extrema that starts at a valley, [-1] in
    one that starts at a peak, [0] outside every interval. *)
Fixpoint signByStart (valleyIdx : list Z) (extrema : list Z) (i : Z) : Z :=
  match extrema with
  | s :: ((e :: _) as rest) =>
      if (s <=? i)%Z && (i <? e)%Z
      then (if has valleyIdx s then 1%Z else (-1)%Z)
      else signByStart valleyIdx rest i
  | _ => 0%Z
  end.

Definition expectedSigns (N : nat) (data : BlinkTrainingData) : list Z :=
  List.map (fun i => signByStart (valleys data) (extremaOf data) (Z.of_nat i))
           (seq 0 (N - 1)).

(** The sign of position [i] by the turn of its interval: the intervals
    take [+1] and [-1] in turn, the first one [+1] when [rising]. *)
Fixpoint signByTurn (rising : bool) (extrema : list Z) (i : Z) : Z :=
  match extrema with
  | s :: ((e :: _) as rest) =>
      if (s <=? i)%Z && (i <? e)%Z
      then (if rising then 1%Z else (-1)%Z)
      else signByTurn (negb rising) rest i
  | _ => 0%Z
  end.

(** Consecutive extrema are one a valley and the other not. *)
Fixpoint alternating (valleyIdx : list Z) (extrema : list Z) : Prop :=
  match extrema with
  | s :: ((e :: _) as rest) =>
      has valleyIdx s = negb (has valleyIdx e) /\ alternating valleyIdx rest
  | _ => True
  end.

(** [y[i]] of a prediction vector, inside its range. *)
Definition at_ (y : list Q) (i : Z) : Q := nth (Z.to_nat i) y 0.

(** *** What a call of the loss does

    [makeCompositeLoss] above has one answer, [None], for a call that
    throws and for one that returns [NaN]; [model.fit] tells them
    apart. *)
Inductive LossResult : Type :=
| LossThrows
| LossNaN
| LossNumber (loss : Q).

(** The loss on the predictions [y] of a batch.  [yPred.squeeze()] of a
    batch of one prediction is a scalar, which [tf.gather] rejects (a
    batch of none has nothing to [slice] from 1); [tf.gather] throws for an
    index outside the tensor and [mul] for shapes that do not broadcast;
    what remains undefined is the mean of nothing, [NaN]. *)
Definition lossResult (orderingSign peakSet valleySet : list Z) (y : list Q)
  : LossResult :=
  match y with
  | [] | [_] => LossThrows
  | _ :: ((_ :: _) as yNext) =>
      match gather y (peakSet ++ valleySet),
            elementwise Qminus yNext (firstn (length y - 1) y) with
      | Some _, Some diff =>
          match elementwise Qmult (List.map inject_Z orderingSign) diff with
          | Some _ =>
              match makeCompositeLoss orderingSign peakSet valleySet y with
              | Some loss => LossNumber loss
              | None => LossNaN
              end
          | None => LossThrows
          end
      | _, _ => LossThrows
      end
  end.

(** Whether the loss throws on a batch of [N] predictions.  This depends
    on their number only, not on their values, so it is asked of [N]
    zeros. *)
Definition lossThrowsFor (orderingSign peakSet valleySet : list Z) (N : nat) : bool :=
  match lossResult orderingSign peakSet valleySet (repeat 0 N) with
  | LossThrows => true
  | _ => false
  end.

Section Trainer.
(** [buildModel], [compile] and [fit]: the model [fit] leaves, as a
    function of the samples, the loss, the epochs and the learning rate,
    when no call of the loss throws. *)
Variable fit : list Vec3 -> (list Q -> option Q) -> nat -> Q -> Model.

(** [train(eye, data, opts)]; [None] when it throws, which leaves the
    registry as it is.  [Array(N - 1)] throws for no sample.  [model.fit]
    runs with [batchSize: N], so each epoch calls the loss once, on the
    [N] predictions, and an exception of the loss leaves [fit] and
    [train] before [modelRegistry.set]; with no epoch the loss is not
    called.  When the sign array could not be kept at [N - 1] entries an
    extremum lies outside the samples, and the loss throws on [N]
    predictions. *)
Definition train (eye : Eye) (data : BlinkTrainingData) (opts : TrainOpts)
  (r : Registry.Registry) : option Registry.Registry :=
  let version := default VERSION (version opts) in
  let key := getKey eye version in
  let xs := matToFrames (latents data) in
  let N := length (row0 (latents data)) in
  let epochs := default 100%nat (epochs opts) in
  match N with
  | O => None
  | S _ =>
      let peakSet := setOf (peaks data) in
      let valleySet := setOf (valleys data) in
      let signs := orderingSigns N data in
      let loss :=
        match signs with
        | Some orderingSign => makeCompositeLoss orderingSign peakSet valleySet
        | None => fun _ => None
        end in
      let throws :=
        match signs with
        | Some orderingSign => lossThrowsFor orderingSign peakSet valleySet N
        | None => true
        end in
      if negb (epochs =? 0)%nat && throws then None
      else Some (Registry.set key (fit xs loss epochs (default 0.001 (learningRate opts)))
                              true r)
  end.

End Trainer.

(** [NaN], the signal for "no smooth model yet", is [None]. *)
Definition predict (eye : Eye) (v : Vec3) (r : Registry.Registry) : option Q :=
  match Registry.get (getKey eye VERSION) r with
  | None => None
  | Some model => Some (Qmin (Qmax (output model v) 0) 1)
  end.

End SmoothBlink.

(** ** The loss as the specification words it

    The reference below uses none of the tensor operations of
    [SmoothBlink]: sums are written out by recursion, the positive part by
    a case distinction, and membership is that of lists. *)

Module LossSpec.
Local Open Scope Q_scope.

(** [pred[i]]. *)
Definition predAt (pred : list Q) (i : Z) : Q := nth (Z.to_nat i) pred 0.

Fixpoint total (xs : list Q) : Q :=
  match xs with
  | [] => 0
  | x :: t => x + total t
  end.

Definition average (xs : list Q) : Q := total xs / inject_Z (Z.of_nat (length xs)).

Definition squaredError (target value : Q) : Q := (target - value) * (target - value).

(** The anchor term as the specification has it: the mean squared error
    at the extrema, against 1 at each peak index and 0 at each valley
    index. *)
Definition claimedAnchor (peaks valleys : list Z) (pred : list Q) : Q :=
  average (List.map (fun p => squaredError 1 (predAt pred p)) peaks
           ++ List.map (fun v => squaredError 0 (predAt pred v)) valleys).

(** The target of an extremum in the program: 1 when the index is a peak,
    also where it is listed as a valley, and 0 otherwise. *)
Definition targetOf (peaks : list Z) (i : Z) : Q :=
  if in_dec Z.eq_dec i peaks then 1 else 0.

Definition anchor (peaks valleys : list Z) (pred : list Q) : Q :=
  average (List.map (fun i => squaredError (targetOf peaks i) (predAt pred i))
                    (peaks ++ valleys)).

(** [relu]: the positive part. *)
Definition positivePart (x : Q) : Q := if Qle_bool x 0 then 0 else x.

(** The penalty of the adjacent pair [(i, i + 1)]:
    [relu (- sign[i] * (pred[i+1] - pred[i]))], nothing for a zero sign. *)
Definition penalty (sign : list Z) (pred : list Q) (i : nat) : Q :=
  let sgn := nth i sign 0%Z in
  if (sgn =? 0)%Z then 0
  else positivePart (- (inject_Z sgn * (nth (S i) pred 0 - nth i pred 0))).

(** The ordering term: the mean of the penalties over the [N - 1] adjacent
    pairs. *)
Definition ordering (sign : list Z) (pred : list Q) : Q :=
  average (List.map (penalty sign pred) (seq 0 (length pred - 1))).

Definition claimedLoss (sign peaks valleys : list Z) (pred : list Q) : Q :=
  claimedAnchor peaks valleys pred + 0.5 * ordering sign pred.

Definition loss (sign peaks valleys : list Z) (pred : list Q) : Q :=
  anchor peaks valleys pred + 0.5 * ordering sign pred.

End LossSpec.

(** ** The pipeline ([opennessComputationService.ts]) *)

Module Pipeline.
Import Types.

(** Redux actions the pipeline dispatches. *)
Inductive Action : Type :=
| SetCalibrationPlot (eye : Eye) (pred smoothed : list Q)
| SetBlinkOpenThreshold (th : Q)
| SetBlinkCloseThreshold (th : Q).

(** Calls of the two [train] functions, with their arguments. *)
Inductive TrainCall : Type :=
| TrainBinary (eye : Eye) (closed open : SampleMatrix)
| TrainSmooth (eye : Eye) (data : SmoothBlink.BlinkTrainingData) (opts : TrainOpts).

(** The module-level state and what the pipeline does to its surroundings:
    the three buffers, the registry, the actions dispatched to the store
    and the training calls made, both oldest first. *)
Record World : Type := mkWorld {
  closedBuffer : Capture.CalibrationBuffer;
  openBuffer : Capture.CalibrationBuffer;
  blinkBuffer : Capture.CalibrationBuffer;
  registry : Registry.Registry;
  dispatched : list Action;
  trainCalls : list TrainCall
}.

(** The part of [state.status] the pipeline reads. *)
Record Status : Type := mkStatus {
  closedCalibrationActive : bool;
  openCalibrationActive : bool;
  blinkCalibrationActive : bool;
  latents : Capture.Latents;
  latentsTS : option Z;
  latentsLeft : Capture.Latents;
  latentsLeftTS : option Z;
  latentsRight : Capture.Latents;
  latentsRightTS : option Z
}.

Definition withRegistry (w : World) (r : Registry.Registry) (call : TrainCall) : World :=
  mkWorld (closedBuffer w) (openBuffer w) (blinkBuffer w) r
          (dispatched w) (trainCalls w ++ [call]).

Definition dispatch (w : World) (actions : list Action) : World :=
  mkWorld (closedBuffer w) (openBuffer w) (blinkBuffer w) (registry w)
          (dispatched w ++ actions) (trainCalls w).

Definition dispatchPlot (eye : Eye) (pred smoothed : list Q) (openTh closeTh : Q)
  (w : World) : World :=
  dispatch w [SetCalibrationPlot eye pred smoothed;
              SetBlinkOpenThreshold openTh; SetBlinkCloseThreshold closeTh].

(** [x && x[0].length]: present and with at least one sample. *)
Definition hasSamples (m : option SampleMatrix) : bool :=
  match m with
  | Some m' => negb (length (row0 m') =? 0)%nat
  | None => false
  end.

Section Trainers.
Variable fitBinary : list Vec3 -> list Q -> nat -> Q -> Model.
Variable fitSmooth : list Vec3 -> (list Q -> option Q) -> nat -> Q -> Model.
(** For each eye, the two index permutations that
    [tf.util.createShuffledIndices] draws during its binary training. *)
Variable shuffles : Eye -> list nat * list nat.

(** One of the three [if] blocks of [calibrateBinary]. *)
Definition calibrateBinaryFor (eye : Eye) (w : World) : World :=
  match Capture.matrixOf eye (closedBuffer w), Capture.matrixOf eye (openBuffer w) with
  | Some closed, Some open =>
      if hasSamples (Some closed) && hasSamples (Some open)
      then withRegistry w
             (Binary.train fitBinary eye closed open (mkTrainOpts None None None)
                           (fst (shuffles eye)) (snd (shuffles eye)) (registry w))
             (TrainBinary eye closed open)
      else w
  | _, _ => w
  end.

Definition calibrateBinary (w : World) : World :=
  calibrateBinaryFor EyeRight (calibrateBinaryFor EyeLeft (calibrateBinaryFor EyeCombined w)).

Definition blinkOpts : TrainOpts := mkTrainOpts (Some 150%nat) (Some 0.001%Q) None.

(** [None] when an exception escapes (a training call that throws, or an
    [undefined] extremum index). *)
Definition runBlinkInferenceAndTrainForEye (eye : Eye) (w : World) : option World :=
  match Capture.matrixOf eye (blinkBuffer w) with
  | None => Some w
  | Some mat =>
      if (length (row0 mat) =? 0)%nat then Some w
      else
        let frames := matToFrames mat in
        let pred := List.map (fun v => Binary.predict eye v (registry w)) frames in
        match Labeler.labelBlinkExtrema pred with
        | None => None
        | Some ex =>
            let w1 := dispatchPlot eye pred (Labeler.smooth ex)
                        Labeler.OPEN_TH_FIXED Labeler.CLOSE_TH_FIXED w in
            match Labeler.peaks ex, Labeler.valleys ex with
            | _ :: _, _ :: _ =>
                let trainingData :=
                  SmoothBlink.mkBlinkTrainingData mat (Labeler.peaks ex) (Labeler.valleys ex) in
                match SmoothBlink.train fitSmooth eye trainingData blinkOpts (registry w1) with
                | Some r => Some (withRegistry w1 r (TrainSmooth eye trainingData blinkOpts))
                | None => None
                end
            | _, _ => Some w1
            end
        end
  end.

Definition appendFromStatus (st : Status) (b : Capture.CalibrationBuffer)
  : Capture.CalibrationBuffer :=
  Capture.appendSamples b (latentsTS st) (latentsLeftTS st) (latentsRightTS st)
                        (latents st) (latentsLeft st) (latentsRight st).

(** The capturing branch of a phase: reset on the first notification, then
    append. *)
Definition capture (st : Status) (b : Capture.CalibrationBuffer)
  : Capture.CalibrationBuffer :=
  let b1 := if Capture.ongoing b then b
            else Capture.setOngoing true (Capture.resetBuffer b) in
  appendFromStatus st b1.

Definition setClosed (w : World) (b : Capture.CalibrationBuffer) : World :=
  mkWorld b (openBuffer w) (blinkBuffer w) (registry w) (dispatched w) (trainCalls w).
Definition setOpen (w : World) (b : Capture.CalibrationBuffer) : World :=
  mkWorld (closedBuffer w) b (blinkBuffer w) (registry w) (dispatched w) (trainCalls w).
Definition setBlink (w : World) (b : Capture.CalibrationBuffer) : World :=
  mkWorld (closedBuffer w) (openBuffer w) b (registry w) (dispatched w) (trainCalls w).

(** One run of the store subscription callback, the awaited calls in
    sequence. *)
Definition collectAndMaybeCalibrate (st : Status) (w : World) : option World :=
  let w1 :=
    if closedCalibrationActive st then setClosed w (capture st (closedBuffer w))
    else if Capture.ongoing (closedBuffer w)
         then calibrateBinary (setClosed w (Capture.setOngoing false (closedBuffer w)))
         else w in
  let w2 :=
    if openCalibrationActive st then setOpen w1 (capture st (openBuffer w1))
    else if Capture.ongoing (openBuffer w1)
         then calibrateBinary (setOpen w1 (Capture.setOngoing false (openBuffer w1)))
         else w1 in
  if blinkCalibrationActive st then Some (setBlink w2 (capture st (blinkBuffer w2)))
  else if Capture.ongoing (blinkBuffer w2)
       then
         match runBlinkInferenceAndTrainForEye EyeCombined
                 (setBlink w2 (Capture.setOngoing false (blinkBuffer w2))) with
         | Some wa =>
             match runBlinkInferenceAndTrainForEye EyeLeft wa with
             | Some wb => runBlinkInferenceAndTrainForEye EyeRight wb
             | None => None
             end
         | None => None
         end
       else Some w2.

End Trainers.

(** The buffer of a phase after one run of the callback: captured into
    while the phase is active, marked as not ongoing otherwise. *)
Definition phaseAfter (active : bool) (st : Status) (b : Capture.CalibrationBuffer)
  : Capture.CalibrationBuffer :=
  if active then capture st b else Capture.setOngoing false b.



(** The keys [warmLoadPersistedModels] asks for, in the order of its
    array. *)
Definition persistedKeys : list string :=
  [Binary.getKey EyeCombined Binary.VERSION;
   Binary.getKey EyeLeft Binary.VERSION;
   Binary.getKey EyeRight Binary.VERSION;
   SmoothBlink.getKey EyeCombined SmoothBlink.VERSION;
   SmoothBlink.getKey EyeLeft SmoothBlink.VERSION;
   SmoothBlink.getKey EyeRight SmoothBlink.VERSION].

(** [warmLoadPersistedModels()]: the six loads, one after the other. *)
Definition warmLoadPersistedModels (r : Registry.Registry) : Registry.Registry :=
  fold_left (fun acc key => Registry.loadIfExists key acc) persistedKeys r.

(** [mapOpenness(v, eye)]: try smooth, fall back to binary. *)
Definition mapOpenness (v : Vec3) (eye : Eye) (r : Registry.Registry) : Q :=
  match SmoothBlink.predict eye v r with
  | Some s => s
  | None => Binary.predict eye v r
  end.

End Pipeline.

(** ** The MJPEG stream reader ([services/cameraConnection.ts]) *)

Module Camera.

(** A [Uint8Array], as the list of its elements. *)
Definition Bytes : Type := list Z.

(** [concatUint8Arrays(a, b)]: a new array, [a] set at 0 and [b] at
    [a.length]. *)
Definition concatUint8Arrays (a b : Bytes) : Bytes := a ++ b.

(** [x === y] for two array reads, [None] being [undefined]. *)
Definition sameElement (x y : option Z) : bool :=
  match x, y with
  | Some a, Some b => (a =? b)%Z
  | None, None => true
  | _, _ => false
  end.

(** The inner loop of [findSequence] at [i]: [found] stays true when no
    [j] has [buffer[i + j] !== seq[j]]. *)
Definition foundAt (buffer seq : Bytes) (i : Z) : bool :=
  forallb (fun j => sameElement (JsArray.get buffer (i + j)) (JsArray.get seq j))
          (JsArray.range 0 (Z.of_nat (length seq))).

(** The outer loop from [i], with [n] values of [i] left to try. *)
Fixpoint findFrom (buffer seq : Bytes) (i : Z) (n : nat) : Z :=
  match n with
  | O => (-1)%Z
  | S n' => if foundAt buffer seq i then i else findFrom buffer seq (i + 1) n'
  end.

(** [findSequence(buffer, seq)]: [i] runs from 0 while
    [i <= buffer.length - seq.length]. *)
Definition findSequence (buffer seq : Bytes) : Z :=
  findFrom buffer seq 0
    (Z.to_nat (Z.of_nat (length buffer) - Z.of_nat (length seq) + 1)).

(** [xs.slice(start)]. *)
Definition sliceFrom (start : Z) (xs : Bytes) : Bytes :=
  JsArray.slice start (Z.of_nat (length xs)) xs.

(** [seq] occurs in [buffer] at index [k]. *)
Definition occursAt (buffer seq : Bytes) (k : nat) : Prop :=
  exists pre post, buffer = pre ++ seq ++ post /\ length pre = k.

Section Stream.
Variable boundary headerTerminator : Bytes.

(** The body of the inner [while] loop on one [part]: the JPEG data it
    hands to [processFrame], if any. *)
Definition framesOfPart (part : Bytes) : list Bytes :=
  let headerEnd := findSequence part headerTerminator in
  if (headerEnd =? -1)%Z then []
  else
    let jpegData := sliceFrom (headerEnd + Z.of_nat (length headerTerminator)) part in
    if (0 <? length jpegData)%nat then [jpegData] else [].

(** The inner [while (boundaryIndex !== -1)] loop: the frames handed to
    [processFrame], oldest first, and the buffer it leaves.  [None]: the
    loop has not ended within [fuel] iterations. *)
Fixpoint drainLoop (fuel : nat) (buffer : Bytes) : option (list Bytes * Bytes) :=
  match fuel with
  | O => None
  | S fuel' =>
      let boundaryIndex := findSequence buffer boundary in
      if (boundaryIndex =? -1)%Z then Some ([], buffer)
      else
        let part := JsArray.slice 0 boundaryIndex buffer in
        let buffer' := sliceFrom (boundaryIndex + Z.of_nat (length boundary)) buffer in
        match drainLoop fuel' buffer' with
        | Some (frames, rest) => Some (framesOfPart part ++ frames, rest)
        | None => None
        end
  end.

Definition drain (buffer : Bytes) : option (list Bytes * Bytes) :=
  drainLoop (S (length buffer)) buffer.

(** The reading loop of a connection that is not cancelled, on the chunks
    [reader.read()] returns until [done]: all frames handed to
    [processFrame], and the buffer at the end. *)
Fixpoint readAll (chunks : list Bytes) (buffer : Bytes) : option (list Bytes * Bytes) :=
  match chunks with
  | [] => Some ([], buffer)
  | value :: later =>
      match drain (concatUint8Arrays buffer value) with
      | Some (frames, buffer') =>
          match readAll later buffer' with
          | Some (frames', rest) => Some (frames ++ frames', rest)
          | None => None
          end
      | None => None
      end
  end.

(** What the buffer is made of when the loop ends: the parts, each
    followed by the boundary, and the rest. *)
Definition joined (parts : list Bytes) (rest : Bytes) : Bytes :=
  concat (List.map (fun p => p ++ boundary) parts) ++ rest.

End Stream.

(** [new TextEncoder().encode("\r\n--123456789000000000000987654321\r\n")]
    and [encode("\r\n\r\n")]. *)
Definition boundary : Bytes :=
  [13; 10; 45; 45; 49; 50; 51; 52; 53; 54; 55; 56; 57; 48; 48; 48; 48;
   48; 48; 48; 48; 48; 48; 48; 48; 57; 56; 55; 54; 53; 52; 51; 50; 49;
   13; 10]%Z.

Definition headerTerminator : Bytes := [13; 10; 13; 10]%Z.

End Camera.

(** ** The tracking gate ([services/trackingComputationService.ts]) *)

Module Tracking.

(** [type ConnectionStatus]. *)
Inductive ConnectionStatus : Set := Online | Offline | Warning.

(** [interface CameraFrame]; the frame is the list of the UTF-16 code
    units of the data URL. *)
Record CameraFrame : Type := mkCameraFrame {
  frame : list Z;
  timestamp : option Z;
  status : ConnectionStatus
}.

(** [status === 'online']. *)
Definition isOnline (s : ConnectionStatus) : bool :=
  match s with
  | Online => true
  | _ => false
  end.

(** The white space and line terminators [String.prototype.trim]
    strips. *)
Definition isWhiteSpace (c : Z) : bool :=
  (c =? 9)%Z || (c =? 10)%Z || (c =? 11)%Z || (c =? 12)%Z || (c =? 13)%Z
  || (c =? 32)%Z || (c =? 160)%Z || (c =? 5760)%Z
  || ((8192 <=? c)%Z && (c <=? 8202)%Z)
  || (c =? 8232)%Z || (c =? 8233)%Z || (c =? 8239)%Z || (c =? 8287)%Z
  || (c =? 12288)%Z || (c =? 65279)%Z.

(** [frame.trim() !== '']. *)
Definition hasData (f : list Z) : bool := negb (forallb isWhiteSpace f).

(** The module-level variables [previousLeftTimestamp] and
    [previousRightTimestamp]. *)
Record Tracker : Type := mkTracker {
  previousLeftTimestamp : Z;
  previousRightTimestamp : Z
}.

(** [proceed], [validLeft] and [validRight] after the checks, and the
    module-level variables then. *)
Record Gate : Type := mkGate {
  proceed : bool;
  validLeft : bool;
  validRight : bool;
  tracker : Tracker
}.

(** The checks of [runTracking] between [let proceed = false] and
    [if (proceed)].  A timestamp passes [leftEye.timestamp && ...] when it
    is a number other than 0. *)
Definition gate (now : Z) (trackingRate : Q) (syncedEyeUpdates : bool)
  (leftEye rightEye : CameraFrame) (t : Tracker) : Gate :=
  let idle := mkGate false false false t in
  let prevL := previousLeftTimestamp t in
  let prevR := previousRightTimestamp t in
  let enough := fun prev : Z => Qle_bool trackingRate (inject_Z (now - prev)) in
  if isOnline (status leftEye) && isOnline (status rightEye) then
    match timestamp leftEye, timestamp rightEye with
    | Some tl, Some tr =>
        if negb (tl =? 0)%Z && negb (tr =? 0)%Z
           && (enough prevL && enough prevR)
           && hasData (frame leftEye) && hasData (frame rightEye)
           && (negb (tl =? prevL)%Z || negb (tr =? prevR)%Z)
        then
          if syncedEyeUpdates then
            if negb (tl =? prevL)%Z && negb (tr =? prevR)%Z
               && enough prevL && enough prevR
            then mkGate true true true (mkTracker tl tr)
            else idle
          else
            let g1 :=
              if negb (tl =? prevL)%Z && enough prevL
              then mkGate true true true (mkTracker tl prevR)
              else idle in
            if negb (tr =? previousRightTimestamp (tracker g1))%Z
               && enough (previousRightTimestamp (tracker g1))
            then mkGate true true true
                   (mkTracker (previousLeftTimestamp (tracker g1)) tr)
            else g1
        else idle
    | _, _ => idle
    end
  else if isOnline (status leftEye) then
    match timestamp leftEye with
    | Some tl =>
        if negb (tl =? 0)%Z && enough prevL && hasData (frame leftEye)
           && negb (tl =? prevL)%Z
        then mkGate true true false (mkTracker tl prevR)
        else idle
    | None => idle
    end
  else if isOnline (status rightEye) then
    match timestamp rightEye with
    | Some tr =>
        if negb (tr =? 0)%Z && enough prevR && hasData (frame rightEye)
           && negb (tr =? prevR)%Z
        then mkGate true false true (mkTracker prevL tr)
        else idle
    | None => idle
    end
  else idle.

(** What the gate has checked of an eye whose frame it lets through. *)
Definition passed (now : Z) (trackingRate : Q) (eye : CameraFrame) (prev : Z) : Prop :=
  exists ts,
    timestamp eye = Some ts /\ ts <> 0%Z /\ hasData (frame eye) = true /\
    (trackingRate <= inject_Z (now - prev))%Q.

(** What the block of one encoder does: it throws, the encoder returns
    [null], or it returns the latents, of which [latents[5]],
    [latents[6]] and [latents[7]] are the triple given to [mapOpenness]. *)
Inductive Encoded : Type :=
| Throws
| NoLatents
| Latents (v : Types.Vec3).

(** The openness actions of [statusSlice]. *)
Inductive OpennessAction : Type :=
| UpdateOpennessCombined (openness : Q)
| UpdateOpennessLeft (openness : Q)
| UpdateOpennessRight (openness : Q).

(** One of the three blocks under [if (proceed)], followed by [rest]; an
    exception leaves the [try] block, so nothing more is dispatched. *)
Definition encoderBlock (valid : bool) (encoded : Encoded)
  (update : Q -> OpennessAction) (eye : Types.Eye) (r : Registry.Registry)
  (rest : list OpennessAction) : list OpennessAction :=
  if valid then
    match encoded with
    | Throws => []
    | NoLatents => rest
    | Latents v => update (Pipeline.mapOpenness v eye r) :: rest
    end
  else rest.

(** The actions [if (proceed) { try { ... } catch { ... } }] dispatches, in
    order; [imagesLoad] tells whether the awaited image loads succeed. *)
Definition opennessUpdates (g : Gate) (imagesLoad : bool)
  (combined left right : Encoded) (r : Registry.Registry) : list OpennessAction :=
  if proceed g && imagesLoad then
    encoderBlock (validLeft g && validRight g) combined UpdateOpennessCombined
      Types.EyeCombined r
      (encoderBlock (validLeft g) left UpdateOpennessLeft Types.EyeLeft r
         (encoderBlock (validRight g) right UpdateOpennessRight Types.EyeRight r []))
  else [].

End Tracking.

(** ** Choosing the values to show ([utilities/EyeSelectionUtils.ts]) *)

Module EyeSelection.
Local Open Scope Q_scope.

(** The fields of [LatentData] the selection reads. *)
Record Thetas : Type := mkThetas {
  theta1 : Q;
  theta2 : Q
}.

(** The part of [state.status] the selection reads. *)
Record Status : Type := mkStatus {
  leftEye : Tracking.ConnectionStatus;
  rightEye : Tracking.ConnectionStatus;
  latents : Thetas;
  latentsLeft : Thetas;
  latentsRight : Thetas;
  opennessCombined : Q;
  opennessLeft : Q;
  opennessRight : Q
}.

Record EyeThetas : Type := mkEyeThetas {
  leftTheta1 : Q;
  leftTheta2 : Q;
  rightTheta1 : Q;
  rightTheta2 : Q
}.

(** [a < 0] on numbers. *)
Definition negative (a : Q) : bool := negb (Qle_bool 0 a).

Definition chooseIndependentEyeThetas (s : Status) : EyeThetas :=
  let leftOnline := Tracking.isOnline (leftEye s) in
  let rightOnline := Tracking.isOnline (rightEye s) in
  if leftOnline && rightOnline then
    if negative (theta2 (latentsLeft s) - theta2 (latentsRight s))
    then mkEyeThetas (theta1 (latents s)) (theta2 (latents s))
                     (theta1 (latents s)) (theta2 (latents s))
    else mkEyeThetas (theta1 (latents s)) (theta2 (latentsLeft s))
                     (theta1 (latents s)) (theta2 (latentsRight s))
  else if leftOnline then
    mkEyeThetas (theta1 (latentsLeft s)) (theta2 (latentsLeft s))
                (theta1 (latentsLeft s)) (theta2 (latentsLeft s))
  else if rightOnline then
    mkEyeThetas (theta1 (latentsRight s)) (theta2 (latentsRight s))
                (theta1 (latentsRight s)) (theta2 (latentsRight s))
  else mkEyeThetas 0 0 0 0.

(** [{ leftOpenness, rightOpenness }]. *)
Definition chooseIndependentEyeOpenness (s : Status) : Q * Q :=
  let leftOnline := Tracking.isOnline (leftEye s) in
  let rightOnline := Tracking.isOnline (rightEye s) in
  if leftOnline && rightOnline then (opennessLeft s, opennessRight s)
  else if leftOnline then (opennessLeft s, opennessLeft s)
  else if rightOnline then (opennessRight s, opennessRight s)
  else (0, 0).

Definition chooseCombinedEyeThetas (s : Status) : Thetas :=
  let leftOnline := Tracking.isOnline (leftEye s) in
  let rightOnline := Tracking.isOnline (rightEye s) in
  if leftOnline && rightOnline then mkThetas (theta1 (latents s)) (theta2 (latents s))
  else if leftOnline then mkThetas (theta1 (latentsLeft s)) (theta2 (latentsLeft s))
  else if rightOnline then mkThetas (theta1 (latentsRight s)) (theta2 (latentsRight s))
  else mkThetas 0 0.

Definition chooseCombinedEyeOpenness (s : Status) : Q :=
  let leftOnline := Tracking.isOnline (leftEye s) in
  let rightOnline := Tracking.isOnline (rightEye s) in
  if leftOnline && rightOnline then opennessCombined s
  else if leftOnline then opennessLeft s
  else if rightOnline then opennessRight s
  else 0.

(** The reducers [updateOpennessCombined], [updateOpennessLeft] and
    [updateOpennessRight] of [statusSlice]. *)
Definition updateOpenness (s : Status) (a : Tracking.OpennessAction) : Status :=
  match a with
  | Tracking.UpdateOpennessCombined o =>
      mkStatus (leftEye s) (rightEye s) (latents s) (latentsLeft s) (latentsRight s)
               o (opennessLeft s) (opennessRight s)
  | Tracking.UpdateOpennessLeft o =>
      mkStatus (leftEye s) (rightEye s) (latents s) (latentsLeft s) (latentsRight s)
               (opennessCombined s) o (opennessRight s)
  | Tracking.UpdateOpennessRight o =>
      mkStatus (leftEye s) (rightEye s) (latents s) (latentsLeft s) (latentsRight s)
               (opennessCombined s) (opennessLeft s) o
  end.

(** The three stored openness values lie in [0, 1]. *)
Definition opennessInUnit (s : Status) : Prop :=
  0 <= opennessCombined s <= 1 /\ 0 <= opennessLeft s <= 1 /\ 0 <= opennessRight s <= 1.

End EyeSelection.

(** * Properties *)

(** ** Array helpers *)

Section ArrayFacts.
Import JsArray.

Lemma mapiFrom_length {A B : Type} (f : nat -> A -> B) (xs : list A) (i : nat) :
  length (mapiFrom f i xs) = length xs.
Proof.
  revert i. induction xs as [|x t IH]; intros i; simpl; [reflexivity|].
  now rewrite IH.
Qed.

Lemma mapi_length {A B : Type} (f : nat -> A -> B) (xs : list A) :
  length (mapi f xs) = length xs.
Proof. apply mapiFrom_length. Qed.

Lemma mapiFrom_nth {A B : Type} (f : nat -> A -> B) (xs : list A) (i k : nat) (da : A) (db : B) :
  (k < length xs)%nat ->
  nth k (mapiFrom f i xs) db = f (i + k)%nat (nth k xs da).
Proof.
  revert i k. induction xs as [|x t IH]; intros i k Hk; simpl in *; [lia|].
  destruct k as [|k].
  - now rewrite Nat.add_0_r.
  - rewrite IH by lia. f_equal. lia.
Qed.

Lemma mapi_nth {A B : Type} (f : nat -> A -> B) (xs : list A) (k : nat) (da : A) (db : B) :
  (k < length xs)%nat -> nth k (mapi f xs) db = f k (nth k xs da).
Proof. intros Hk. unfold mapi. now rewrite (mapiFrom_nth f xs 0 k da db Hk). Qed.

(** Inside the array, [slice] with a non-negative start is the usual
    sub-list. *)
Lemma slice_inside {A : Type} (s e : Z) (xs : list A) :
  0 <= s <= e -> e <= Z.of_nat (length xs) ->
  slice s e xs = firstn (Z.to_nat e - Z.to_nat s) (skipn (Z.to_nat s) xs).
Proof.
  intros Hs He. unfold slice, relIndex.
  destruct (Z.ltb_spec s 0); [lia|].
  destruct (Z.ltb_spec e 0); [lia|].
  rewrite !Z.min_l by lia. rewrite Z.max_l by lia.
  f_equal. lia.
Qed.

Lemma insertBy_length {A : Type} (leb : A -> A -> bool) (x : A) (xs : list A) :
  length (insertBy leb x xs) = S (length xs).
Proof.
  induction xs as [|y t IH]; simpl; [reflexivity|].
  destruct (leb y x); simpl; [now rewrite IH | reflexivity].
Qed.

Lemma sortBy_length_acc {A : Type} (leb : A -> A -> bool) (xs acc : list A) :
  length (fold_left (fun a x => insertBy leb x a) xs acc) = (length xs + length acc)%nat.
Proof.
  revert acc. induction xs as [|x t IH]; intros acc; simpl; [reflexivity|].
  rewrite IH, insertBy_length. lia.
Qed.

Lemma sortBy_length {A : Type} (leb : A -> A -> bool) (xs : list A) :
  length (sortBy leb xs) = length xs.
Proof. unfold sortBy. rewrite sortBy_length_acc. simpl. lia. Qed.

(** [sortBy] sorts: for a total order test its result is ascending, and
    it is a rearrangement of its argument. *)
Section Sorting.
Context {A : Type} (leb : A -> A -> bool).
Hypothesis leb_total : forall a b, leb a b = false -> leb b a = true.

Lemma insertBy_HdRel (y x : A) (t : list A) :
  leb y x = true -> HdRel (fun a b => leb a b = true) y t ->
  HdRel (fun a b => leb a b = true) y (insertBy leb x t).
Proof.
  intros Hyx Ht. destruct t as [|z t']; simpl; [now constructor|].
  destruct (leb z x); constructor; [now inversion Ht | exact Hyx].
Qed.

Lemma insertBy_sorted (x : A) (xs : list A) :
  Sorted (fun a b => leb a b = true) xs ->
  Sorted (fun a b => leb a b = true) (insertBy leb x xs).
Proof.
  induction 1 as [|y t Ht IH Hy]; simpl.
  - repeat constructor.
  - destruct (leb y x) eqn:E.
    + constructor; [exact IH | now apply insertBy_HdRel].
    + constructor; [now constructor | constructor; now apply leb_total].
Qed.

Lemma sortBy_sorted (xs : list A) :
  Sorted (fun a b => leb a b = true) (sortBy leb xs).
Proof.
  unfold sortBy.
  assert (Hacc : Sorted (fun a b => leb a b = true) []) by constructor.
  revert Hacc. generalize (@nil A).
  induction xs as [|x t IH]; intros acc Hacc; simpl; [exact Hacc|].
  apply IH. now apply insertBy_sorted.
Qed.

Lemma insertBy_Permutation (x : A) (xs : list A) :
  Permutation (insertBy leb x xs) (x :: xs).
Proof.
  induction xs as [|y t IH]; simpl; [reflexivity|].
  destruct (leb y x); [|reflexivity].
  rewrite IH. apply perm_swap.
Qed.

Lemma sortBy_Permutation (xs : list A) : Permutation (sortBy leb xs) xs.
Proof.
  unfold sortBy. rewrite <- (app_nil_r xs) at 2.
  generalize (@nil A).
  induction xs as [|x t IH]; intros acc; simpl; [reflexivity|].
  rewrite IH, insertBy_Permutation. symmetry. apply Permutation_middle.
Qed.

End Sorting.

Lemma Sorted_ext_rel {A : Type} (R R' : A -> A -> Prop) (l : list A) :
  (forall a b, R a b -> R' a b) -> Sorted R l -> Sorted R' l.
Proof.
  intros Himpl. induction 1 as [|a t Ht IH Ha]; constructor; [exact IH|].
  destruct Ha; constructor. now apply Himpl.
Qed.

End ArrayFacts.

(** ** The smoother against its index-wise definition *)

Section SortedSlices.
Local Open Scope Q_scope.

Lemma Qle_bool_total (a b : Q) : Qle_bool a b = false -> Qle_bool b a = true.
Proof.
  intros H. apply Qle_bool_iff. apply Qlt_le_weak, Qnot_le_lt.
  intros Hle. apply Qle_bool_iff in Hle. congruence.
Qed.

Lemma Qle_transitive : Relations_1.Transitive Qle.
Proof. intros a b c. apply Qle_trans. Qed.

(** What [sortBy] returns on numbers is the sorted slice. *)
Lemma sortBy_sortedSlice (window : list Q) :
  Smoother.sortedSlice window (JsArray.sortBy Qle_bool window).
Proof.
  split; [apply sortBy_Permutation|].
  apply (Sorted_StronglySorted Qle_transitive).
  apply (Sorted_ext_rel (fun a b => Qle_bool a b = true)).
  - intros a b. apply Qle_bool_iff.
  - apply sortBy_sorted, Qle_bool_total.
Qed.

(** Two ascending rearrangements of reduced fractions are the same
    list. *)
Lemma sorted_reduced_unique (l1 l2 : list Q) :
  Forall (fun x => Qred x = x) l1 ->
  StronglySorted Qle l1 -> StronglySorted Qle l2 -> Permutation l1 l2 -> l1 = l2.
Proof.
  revert l2. induction l1 as [|a t1 IH]; intros l2 Hred S1 S2 Hperm.
  - apply Permutation_nil in Hperm. now subst.
  - destruct l2 as [|b t2].
    { apply Permutation_sym, Permutation_nil in Hperm. discriminate. }
    apply StronglySorted_inv in S1, S2. destruct S1 as [S1 Ha], S2 as [S2 Hb].
    inversion Hred as [|? ? Hra Hrt]; subst.
    assert (Hrb : Qred b = b).
    { assert (Hin : In b (a :: t1))
        by (apply (Permutation_in b (Permutation_sym Hperm)); now left).
      destruct Hin as [<- | Hin]; [exact Hra|].
      exact (proj1 (List.Forall_forall _ _) Hrt b Hin). }
    assert (Hab : a <= b).
    { assert (Hin : In b (a :: t1))
        by (apply (Permutation_in b (Permutation_sym Hperm)); now left).
      destruct Hin as [<- | Hin]; [apply Qle_refl|].
      exact (proj1 (List.Forall_forall _ _) Ha b Hin). }
    assert (Hba : b <= a).
    { assert (Hin : In a (b :: t2)) by (apply (Permutation_in a Hperm); now left).
      destruct Hin as [<- | Hin]; [apply Qle_refl|].
      exact (proj1 (List.Forall_forall _ _) Hb a Hin). }
    assert (E : a = b).
    { rewrite <- Hra, <- Hrb. apply Qred_complete. now apply Qle_antisym. }
    subst b. f_equal. apply IH; try assumption.
    now apply Permutation_cons_inv in Hperm.
Qed.

Lemma sorted_map_Qred (l : list Q) :
  StronglySorted Qle l -> StronglySorted Qle (List.map Qred l).
Proof.
  induction 1 as [|a t Ht IH Ha]; cbn [List.map]; constructor; [exact IH|].
  apply List.Forall_forall. intros x Hx. apply in_map_iff in Hx.
  destruct Hx as (y & <- & Hy). apply Qred_le.
  exact (proj1 (List.Forall_forall _ _) Ha y Hy).
Qed.

Lemma map_Qred_nth (l1 l2 : list Q) (k : nat) :
  List.map Qred l1 = List.map Qred l2 -> nth k l1 0 == nth k l2 0.
Proof.
  revert l2 k. induction l1 as [|a t1 IH]; intros [|b t2] k H; try discriminate.
  - reflexivity.
  - cbn [List.map] in H. injection H as Hab Ht.
    destruct k as [|k]; cbn [nth]; [now apply Qred_eq_iff | now apply IH].
Qed.

(** The sorted slice is unique up to the representation of its values,
    and so is its median. *)
Lemma sortedSlice_median (window w w' : list Q) :
  Smoother.sortedSlice window w -> Smoother.sortedSlice window w' ->
  Smoother.specMedian w == Smoother.specMedian w'.
Proof.
  intros [P1 S1] [P2 S2].
  assert (Hperm : Permutation w w') by (rewrite P1; now symmetry).
  assert (Hmap : List.map Qred w = List.map Qred w').
  { apply sorted_reduced_unique.
    - apply List.Forall_forall. intros x Hx. apply in_map_iff in Hx.
      destruct Hx as (y & <- & _). apply Qred_complete, Qred_correct.
    - now apply sorted_map_Qred.
    - now apply sorted_map_Qred.
    - now apply Permutation_map. }
  unfold Smoother.specMedian. rewrite (Permutation_length Hperm).
  destruct (Nat.even (length w')).
  - rewrite (map_Qred_nth w w' _ Hmap), (map_Qred_nth w w' (length w' / 2) Hmap).
    reflexivity.
  - apply (map_Qred_nth w w' _ Hmap).
Qed.

End SortedSlices.

Section SmootherFacts.
Import JsArray Smoother.
Local Open Scope Q_scope.

Variable medWin : nat.
Variable alpha : Q.

Lemma medianOfSorted_spec (w : list Q) : medianOfSorted w = specMedian w.
Proof.
  unfold medianOfSorted, specMedian.
  rewrite Nat.shiftr_div_pow2. change (2 ^ 1)%nat with 2%nat.
  rewrite <- Nat.negb_even. now destruct (Nat.even (length w)).
Qed.

(** The window the code slices is the window of the definition. *)
Lemma medianAt_window (pred : list Q) (i : nat) :
  (i < length pred)%nat ->
  medianAt pred medWin i = specMedian (sortBy Qle_bool (specWindow medWin pred i)).
Proof.
  intros Hi. unfold medianAt, specWindow.
  rewrite medianOfSorted_spec. do 2 f_equal.
  rewrite Nat.shiftr_div_pow2. change (2 ^ 1)%nat with 2%nat.
  rewrite slice_inside by lia.
  f_equal; [|f_equal]; lia.
Qed.

(** The median pass of the code is the median pass of the definition. *)
Lemma medianAt_medianPass (pred : list Q) :
  medianPass medWin pred (medianAt pred medWin).
Proof.
  intros i w Hi Hw. rewrite (medianAt_window pred i Hi).
  apply (sortedSlice_median (specWindow medWin pred i)); [|exact Hw].
  apply sortBy_sortedSlice.
Qed.

(** A median pass is determined up to the representation of its
    values. *)
Lemma medianPass_unique (pred : list Q) (med : nat -> Q) (i : nat) :
  medianPass medWin pred med -> (i < length pred)%nat ->
  medianAt pred medWin i == med i.
Proof.
  intros Hmed Hi. rewrite (medianAt_window pred i Hi). symmetry.
  apply (Hmed i _ Hi), sortBy_sortedSlice.
Qed.

Lemma emaLoop_length (acc : Q) (rest : list Q) :
  length (emaLoop alpha acc rest) = length rest.
Proof.
  revert acc. induction rest as [|m t IH]; intros acc; simpl; [reflexivity|].
  now rewrite IH.
Qed.

Lemma ema_length (visited : list Q) : length (ema alpha visited) = length visited.
Proof. destruct visited; simpl; [reflexivity|]. now rewrite emaLoop_length. Qed.

Lemma emaLoop_nth (l : list Q) (j : nat) (rest : list Q) (k : nat) :
  rest = skipn (S j) l -> (S j + k < length l)%nat ->
  nth k (emaLoop alpha (emaRec alpha (fun i => nth i l 0) j) rest) 0
  = emaRec alpha (fun i => nth i l 0) (S j + k).
Proof.
  revert j k. induction rest as [|m t IH]; intros j k Hrest Hk.
  - exfalso. assert (H : length (skipn (S j) l) = O) by now rewrite <- Hrest.
    rewrite length_skipn in H. lia.
  - assert (Hm : m = nth (S j) l 0).
    { rewrite <- (firstn_skipn (S j) l) at 1.
      rewrite app_nth2; rewrite length_firstn; [|lia].
      replace (S j - Nat.min (S j) (length l))%nat with O by lia.
      now rewrite <- Hrest. }
    assert (Ht : t = skipn (S (S j)) l).
    { change (S (S j)) with (1 + S j)%nat. rewrite <- skipn_skipn, <- Hrest. reflexivity. }
    simpl emaLoop. destruct k as [|k].
    + simpl nth. rewrite Nat.add_0_r. simpl emaRec. now rewrite Hm.
    + simpl nth. rewrite Hm.
      change (alpha * nth (S j) l 0 + (1 - alpha) * emaRec alpha (fun i => nth i l 0) j)
        with (emaRec alpha (fun i => nth i l 0) (S j)).
      rewrite (IH (S j) k Ht) by lia. f_equal. lia.
Qed.

Lemma ema_nth (l : list Q) (k : nat) :
  (k < length l)%nat -> nth k (ema alpha l) 0 = emaRec alpha (fun i => nth i l 0) k.
Proof.
  intros Hk. destruct l as [|m0 t]; [simpl in Hk; lia|].
  destruct k as [|k]; [reflexivity|].
  simpl ema. simpl nth at 1.
  change m0 with (emaRec alpha (fun i => nth i (m0 :: t) 0) 0) at 1.
  rewrite (emaLoop_nth (m0 :: t) 0 t k); [reflexivity| reflexivity | simpl in *; lia].
Qed.

Lemma emaRec_ext (h h' : nat -> Q) (d : nat) :
  (forall j, (j <= d)%nat -> h j = h' j) -> emaRec alpha h d = emaRec alpha h' d.
Proof.
  induction d as [|d IH]; intros H; simpl.
  - apply H. lia.
  - rewrite H by lia. rewrite IH; [reflexivity|]. intros j Hj. apply H. lia.
Qed.

Lemma emaRec_compat (h h' : nat -> Q) (d : nat) :
  (forall j, (j <= d)%nat -> h j == h' j) -> emaRec alpha h d == emaRec alpha h' d.
Proof.
  induction d as [|d IH]; intros H; simpl.
  - apply H. lia.
  - rewrite (H (S d)) by lia. rewrite IH; [reflexivity|]. intros j Hj. apply H. lia.
Qed.

Lemma specFwd_emaRec (med : nat -> Q) (i : nat) :
  specFwd alpha med i = emaRec alpha med i.
Proof. induction i as [|i IH]; simpl; [reflexivity|]. now rewrite IH. Qed.

Lemma specBwdBack_emaRec (med : nat -> Q) (last d : nat) :
  specBwdBack alpha med last d = emaRec alpha (fun j => med (last - j)%nat) d.
Proof.
  induction d as [|d IH]; simpl.
  - now rewrite Nat.sub_0_r.
  - now rewrite IH.
Qed.

(** The clamp of the code is the clamp of the definition. *)
Lemma clamp01_spec (v : Q) : clamp01 v = specClamp v.
Proof.
  unfold clamp01, specClamp.
  destruct (Qle_bool v 0) eqn:E0.
  - apply Qle_bool_iff in E0.
    assert (Hmin : Qmin 1 v = v).
    { unfold Qmin, GenericMinMax.gmin. destruct (1 ?= v) eqn:C; [| |reflexivity].
      - apply Qeq_alt in C. lra.
      - apply Qlt_alt in C. lra. }
    rewrite Hmin. unfold Qmax, GenericMinMax.gmax.
    destruct (0 ?= v) eqn:C; [reflexivity | | reflexivity].
    apply Qlt_alt in C. lra.
  - assert (H0 : 0 < v).
    { apply Qnot_le_lt. intros H. apply Qle_bool_iff in H. congruence. }
    destruct (Qle_bool 1 v) eqn:E1.
    + apply Qle_bool_iff in E1.
      assert (Hmin : Qmin 1 v = 1).
      { unfold Qmin, GenericMinMax.gmin. destruct (1 ?= v) eqn:C; [reflexivity..|].
        apply Qgt_alt in C. lra. }
      rewrite Hmin. reflexivity.
    + assert (H1 : v < 1).
      { apply Qnot_le_lt. intros H. apply Qle_bool_iff in H. congruence. }
      assert (Hmin : Qmin 1 v = v).
      { unfold Qmin, GenericMinMax.gmin. destruct (1 ?= v) eqn:C; [| |reflexivity].
        - apply Qeq_alt in C. lra.
        - apply Qlt_alt in C. lra. }
      rewrite Hmin. unfold Qmax, GenericMinMax.gmax.
      destruct (0 ?= v) eqn:C; [|reflexivity|].
      * apply Qeq_alt in C. lra.
      * apply Qgt_alt in C. lra.
Qed.

Lemma specClamp_compat (x y : Q) : x == y -> specClamp x == specClamp y.
Proof.
  intros E. unfold specClamp. rewrite (Qleb_comp x y E 0 0 (Qeq_refl 0)).
  destruct (Qle_bool y 0); [reflexivity|].
  rewrite (Qleb_comp 1 1 (Qeq_refl 1) x y E).
  destruct (Qle_bool 1 y); [reflexivity | exact E].
Qed.

Lemma smoothSeriesWith_length (pred : list Q) :
  length (smoothSeriesWith medWin alpha pred) = length pred.
Proof.
  unfold smoothSeriesWith. destruct pred as [|p t]; [reflexivity|].
  rewrite length_map, mapi_length, ema_length, mapi_length. reflexivity.
Qed.

(** The value the code writes at an index, by the recurrence its two
    loops follow. *)
Lemma smoothSeriesWith_nth (pred : list Q) (i : nat) :
  (i < length pred)%nat ->
  nth i (smoothSeriesWith medWin alpha pred) 0
  = clamp01 ((emaRec alpha (medianAt pred medWin) i
              + emaRec alpha (fun j => medianAt pred medWin (length pred - 1 - j)%nat)
                       (length pred - 1 - i)) / 2).
Proof.
  intros Hi. unfold smoothSeriesWith.
  destruct pred as [|p t] eqn:Epred; [simpl in Hi; lia|]. rewrite <- Epred in *.
  clear Epred p t.
  set (med := mapi (fun i _ => medianAt pred medWin i) pred).
  assert (Hlen : length med = length pred) by apply mapi_length.
  assert (Hmed : forall j, (j < length pred)%nat -> nth j med 0 = medianAt pred medWin j).
  { intros j Hj. unfold med. now rewrite (mapi_nth _ pred j 0 0 Hj). }
  rewrite (nth_indep _ 0 (clamp01 0))
    by (rewrite length_map, mapi_length, ema_length; lia).
  rewrite map_nth. f_equal.
  rewrite (mapi_nth _ (ema alpha med) i 0 0) by (rewrite ema_length; lia).
  f_equal. f_equal.
  - rewrite ema_nth by lia.
    apply emaRec_ext. intros j Hj. apply Hmed. lia.
  - rewrite rev_nth by (rewrite ema_length, length_rev; lia).
    rewrite ema_length, length_rev, Hlen.
    rewrite ema_nth by (rewrite length_rev; lia).
    replace (length pred - S i)%nat with (length pred - 1 - i)%nat by lia.
    apply emaRec_ext. intros j Hj.
    rewrite rev_nth by lia. rewrite Hlen, Hmed by lia. f_equal. lia.
Qed.

(** Against any median pass of the definition, the value at an index is
    the clamped average of the two moving averages. *)
Lemma smoothSeriesWith_refines (pred : list Q) (med : nat -> Q) (i : nat) :
  medianPass medWin pred med -> (i < length pred)%nat ->
  nth i (smoothSeriesWith medWin alpha pred) 0 == specOut alpha pred med i.
Proof.
  intros Hmed Hi. rewrite (smoothSeriesWith_nth pred i Hi), clamp01_spec.
  unfold specOut. apply specClamp_compat.
  unfold specBwd. rewrite specFwd_emaRec, specBwdBack_emaRec.
  assert (Hf : emaRec alpha (medianAt pred medWin) i == emaRec alpha med i).
  { apply emaRec_compat. intros j Hj. apply medianPass_unique; [exact Hmed | lia]. }
  assert (Hb : emaRec alpha (fun j => medianAt pred medWin (length pred - 1 - j)%nat)
                 (length pred - 1 - i)
               == emaRec alpha (fun j => med (length pred - 1 - j)%nat)
                    (length pred - 1 - i)).
  { apply emaRec_compat. intros j Hj. apply medianPass_unique; [exact Hmed | lia]. }
  rewrite Hf, Hb. reflexivity.
Qed.

End SmootherFacts.

(** A constant series stays constant, and a single spike is removed. *)
Example smoothSeries_of_constant :
  List.map Qred (Smoother.smoothSeries [0.5; 0.5; 0.5; 0.5]%Q)
  = [1 # 2; 1 # 2; 1 # 2; 1 # 2]%Q.
Proof. vm_compute. reflexivity. Qed.

Example smoothSeries_removes_spike :
  List.map Qred (Smoother.smoothSeries [0; 0; 0; 1; 0; 0; 0]%Q)
  = [0; 0; 0; 0; 0; 0; 0]%Q.
Proof. vm_compute. reflexivity. Qed.

(** C3. For every input sequence, [smoothSeries] with the median window 5
    and the smoothing factor 0.35 returns a sequence of the same length.
    The slice of the input around every index has a sorted rearrangement,
    and a median pass exists: values that are, at every index, the median
    of the sorted slice of the input around the index.  Against every
    median pass, the value of [smoothSeries] at every index is the average
    of the causal and of the anti-causal moving average of the median
    pass, clamped to [0, 1].  The empty input yields the empty output. *)
Theorem smoothSeries_refines_reference (pred : list Q) :
  length (Smoother.smoothSeries pred) = length pred /\
  (forall i, (i < length pred)%nat ->
     exists w, Smoother.sortedSlice (Smoother.specWindow 5 pred i) w) /\
  (exists med, Smoother.medianPass 5 pred med) /\
  (forall med,
     Smoother.medianPass 5 pred med ->
     forall i, (i < length pred)%nat ->
       exists out,
         nth_error (Smoother.smoothSeries pred) i = Some out /\
         (out == Smoother.specOut 0.35 pred med i)%Q) /\
  Smoother.smoothSeries [] = [].
Proof.
  unfold Smoother.smoothSeries. split; [apply smoothSeriesWith_length|].
  split; [intros i _; eexists; apply sortBy_sortedSlice|].
  split; [exists (Smoother.medianAt pred 5); apply medianAt_medianPass|].
  split; [|reflexivity].
  intros med Hmed i Hi.
  exists (nth i (Smoother.smoothSeriesWith 5 0.35 pred) 0%Q). split.
  - apply nth_error_nth'. now rewrite smoothSeriesWith_length.
  - now apply smoothSeriesWith_refines.
Qed.

(** ** The labeller: every segment it finalizes is well-formed *)

Section LabelerFacts.
Import JsArray Labeler LabelerSpec.
Local Open Scope Q_scope.

Lemma get_of_nat {A : Type} (xs : list A) (i : nat) :
  get xs (Z.of_nat i) = nth_error xs i.
Proof.
  unfold get. destruct (Z.ltb_spec (Z.of_nat i) 0); [lia|].
  now rewrite Nat2Z.id.
Qed.

Lemma range_from (from a n : nat) :
  List.map (fun k => (Z.of_nat from + Z.of_nat k)%Z) (seq a n)
  = List.map Z.of_nat (seq (from + a) n).
Proof.
  revert a. induction n as [|n IH]; intros a; simpl; [reflexivity|].
  f_equal; [lia|]. rewrite IH. f_equal. f_equal. lia.
Qed.

Lemma range_of_nat (from n : nat) :
  range (Z.of_nat from) (Z.of_nat n) = List.map Z.of_nat (seq from n).
Proof.
  unfold range. rewrite Nat2Z.id, range_from. now rewrite Nat.add_0_r.
Qed.

Lemma window_as_map {A : Type} (xs : list A) (d : A) (a n : nat) :
  (a + n <= length xs)%nat ->
  firstn n (skipn a xs) = List.map (fun i => nth i xs d) (seq a n).
Proof.
  revert a. induction n as [|n IH]; intros a Hn; [reflexivity|].
  destruct (skipn a xs) as [|x t] eqn:E.
  - assert (H : length (skipn a xs) = O) by now rewrite E.
    rewrite length_skipn in H. lia.
  - simpl. f_equal.
    + rewrite <- (firstn_skipn a xs) at 1.
      rewrite app_nth2; rewrite length_firstn; [|lia].
      replace (a - Nat.min a (length xs))%nat with O by lia. now rewrite E.
    + rewrite <- IH by lia. f_equal.
      change (S a) with (1 + a)%nat. rewrite <- skipn_skipn, E. reflexivity.
Qed.

Lemma fold_left_over_map {A B C : Type} (f : A -> B -> A) (g : C -> B) (l : list C) (a : A) :
  fold_left f (List.map g l) a = fold_left (fun acc i => f acc (g i)) l a.
Proof. revert a. induction l as [|x t IH]; intros a; simpl; [reflexivity|apply IH]. Qed.

Lemma filter_over_map {A B : Type} (p : B -> bool) (g : A -> B) (l : list A) :
  List.filter p (List.map g l) = List.map g (List.filter (fun x => p (g x)) l).
Proof.
  induction l as [|x t IH]; simpl; [reflexivity|].
  destruct (p (g x)); simpl; now rewrite IH.
Qed.

Lemma Forall_snoc {A : Type} (P : A -> Prop) (l : list A) (x : A) :
  Forall P l -> P x -> Forall P (l ++ [x]).
Proof. intros Hl Hx. apply Forall_app. split; [exact Hl|]. now constructor. Qed.

Lemma Qmin_pick (x y : Q) : Qmin x y = x \/ Qmin x y = y.
Proof. unfold Qmin, GenericMinMax.gmin. destruct (x ?= y); auto. Qed.

Lemma Qmax_pick (x y : Q) : Qmax x y = x \/ Qmax x y = y.
Proof. unfold Qmax, GenericMinMax.gmax. destruct (x ?= y); auto. Qed.

Lemma fold_pick_In {A : Type} (pick : Q -> Q -> Q) (g : A -> Q) (l : list A) (x : Q) :
  (forall a b, pick a b = a \/ pick a b = b) ->
  fold_left (fun acc i => pick acc (g i)) l x = x \/
  exists i, In i l /\ fold_left (fun acc i => pick acc (g i)) l x = g i.
Proof.
  intros Hpick. revert x. induction l as [|a t IH]; intros x; simpl; [now left|].
  destruct (IH (pick x (g a))) as [E | (i & Hi & E)].
  - rewrite E. destruct (Hpick x (g a)) as [E' | E']; rewrite E'.
    + now left.
    + right. exists a. split; [now left | reflexivity].
  - right. exists i. split; [now right | exact E].
Qed.

Section Thresholds.
Variable openTh closeTh : Q.
Variable smooth : list Q.

Local Abbreviation sample := (LabelerSpec.sample smooth).
Local Abbreviation len := (length smooth).

Lemma sample_read (i : nat) :
  (i < len)%nat -> nth_error smooth i = Some (sample i).
Proof. intros Hi. unfold LabelerSpec.sample. now apply nth_error_nth'. Qed.

Lemma extremeValue_attained (st : State) (from upto : nat) :
  (from <= upto)%nat ->
  exists i, In i (segmentIndices from upto) /\ extremeValue smooth st from upto = sample i.
Proof.
  intros Hle. unfold extremeValue.
  assert (Hsub : forall i, In i (from :: segmentIndices (S from) upto) ->
                           In i (segmentIndices from upto)).
  { intros i Hi. unfold segmentIndices in *.
    replace (S upto - from)%nat with (S (S upto - S from)) by lia.
    exact Hi. }
  destruct (fold_pick_In (match st with CLOSED => Qmin | OPEN => Qmax end)
              sample (segmentIndices (S from) upto) (sample from)) as [E | (i & Hi & E)].
  - destruct st; [apply Qmin_pick | apply Qmax_pick].
  - exists from. split; [apply Hsub; now left | exact E].
  - exists i. split; [apply Hsub; now right | exact E].
Qed.

Lemma fold_min_le (g : nat -> Q) (l : list nat) (x : Q) :
  fold_left (fun acc i => Qmin acc (g i)) l x <= x /\
  forall i, In i l -> fold_left (fun acc i => Qmin acc (g i)) l x <= g i.
Proof.
  revert x. induction l as [|a t IH]; intros x; cbn [fold_left].
  - split; [apply Qle_refl | intros i []].
  - destruct (IH (Qmin x (g a))) as [Hx Hin]. split.
    + eapply Qle_trans; [exact Hx | apply Q.le_min_l].
    + intros i [<- | Hi]; [|now apply Hin].
      eapply Qle_trans; [exact Hx | apply Q.le_min_r].
Qed.

Lemma fold_max_ge (g : nat -> Q) (l : list nat) (x : Q) :
  x <= fold_left (fun acc i => Qmax acc (g i)) l x /\
  forall i, In i l -> g i <= fold_left (fun acc i => Qmax acc (g i)) l x.
Proof.
  revert x. induction l as [|a t IH]; intros x; cbn [fold_left].
  - split; [apply Qle_refl | intros i []].
  - destruct (IH (Qmax x (g a))) as [Hx Hin]. split.
    + eapply Qle_trans; [apply Q.le_max_l | exact Hx].
    + intros i [<- | Hi]; [|now apply Hin].
      eapply Qle_trans; [apply Q.le_max_r | exact Hx].
Qed.

(** The procedure's extreme value is the least sample of a CLOSED segment
    and the greatest sample of an OPEN one. *)
Lemma extremeValue_extreme (st : State) (from upto i : nat) :
  (from <= i <= upto)%nat ->
  match st with
  | CLOSED => extremeValue smooth st from upto <= sample i
  | OPEN => sample i <= extremeValue smooth st from upto
  end.
Proof.
  intros Hi. unfold extremeValue.
  assert (Hcase : i = from \/ In i (segmentIndices (S from) upto)).
  { destruct (Nat.eq_dec i from) as [-> | Hne]; [now left | right].
    unfold segmentIndices. apply in_seq. lia. }
  destruct st.
  - destruct (fold_min_le sample (segmentIndices (S from) upto) (sample from)) as [Hx Hin].
    destruct Hcase as [-> | Hc]; [exact Hx | now apply Hin].
  - destruct (fold_max_ge sample (segmentIndices (S from) upto) (sample from)) as [Hx Hin].
    destruct Hcase as [-> | Hc]; [exact Hx | now apply Hin].
Qed.

Lemma specPlateau_nonempty (st : State) (from upto : nat) :
  (from <= upto)%nat -> specPlateau smooth st from upto <> [].
Proof.
  intros Hle. destruct (extremeValue_attained st from upto Hle) as (i & Hi & E).
  unfold specPlateau. intros Hnil.
  assert (Hin : In i (List.filter (fun i => Qeq_bool (sample i) (extremeValue smooth st from upto))
                        (segmentIndices from upto))).
  { apply List.filter_In. split; [exact Hi|]. rewrite E. apply Qeq_bool_iff. reflexivity. }
  rewrite Hnil in Hin. exact Hin.
Qed.

Lemma specPlateau_within (st : State) (from upto i : nat) :
  In i (specPlateau smooth st from upto) -> (from <= i <= upto)%nat.
Proof.
  unfold specPlateau, segmentIndices. intros Hin.
  apply List.filter_In in Hin. destruct Hin as [Hin _].
  apply in_seq in Hin. lia.
Qed.

Lemma specExtremum_within (st : State) (from upto : nat) :
  (from <= upto)%nat ->
  (from <= specExtremum smooth st from upto <= upto)%nat.
Proof.
  intros Hle. apply (specPlateau_within st). unfold specExtremum.
  apply nth_In.
  pose proof (specPlateau_nonempty st from upto Hle) as Hne.
  destruct (specPlateau smooth st from upto) as [|x t]; [congruence|].
  apply Nat.div_lt; simpl; lia.
Qed.

(** The window and the plateau of the source are those of the procedure. *)
Lemma window_of_segment (from upto : nat) :
  (from <= upto)%nat -> (upto < len)%nat ->
  slice (Z.of_nat from) (Z.of_nat upto + 1) smooth
  = sample from :: List.map sample (segmentIndices (S from) upto).
Proof.
  intros Hle Hlt. rewrite slice_inside by lia.
  rewrite (window_as_map smooth 0%Q) by lia.
  replace (Z.to_nat (Z.of_nat upto + 1) - Z.to_nat (Z.of_nat from))%nat
    with (S (upto - from)) by lia.
  rewrite Nat2Z.id. simpl. unfold segmentIndices.
  replace (S upto - S from)%nat with (upto - from)%nat by lia. reflexivity.
Qed.

Lemma extreme_of_segment (st : State) (from upto : nat) :
  (from <= upto)%nat -> (upto < len)%nat ->
  match st with
  | CLOSED => mathMin (slice (Z.of_nat from) (Z.of_nat upto + 1) smooth)
  | OPEN => mathMax (slice (Z.of_nat from) (Z.of_nat upto + 1) smooth)
  end = Some (extremeValue smooth st from upto).
Proof.
  intros Hle Hlt. rewrite window_of_segment by assumption.
  unfold extremeValue. destruct st; simpl; now rewrite fold_left_over_map.
Qed.

Lemma plateauOf_spec (st : State) (from upto : nat) :
  (from <= upto)%nat -> (upto < len)%nat ->
  plateauOf smooth (Z.of_nat from) (Z.of_nat upto) st
  = List.map Z.of_nat (specPlateau smooth st from upto).
Proof.
  intros Hle Hlt. unfold plateauOf.
  replace (Z.of_nat upto - Z.of_nat from + 1)%Z with (Z.of_nat (S upto - from)) by lia.
  rewrite range_of_nat, (extreme_of_segment st from upto Hle Hlt).
  rewrite filter_over_map. unfold specPlateau, segmentIndices. f_equal.
  apply List.filter_ext_in. intros i Hi. apply in_seq in Hi.
  rewrite get_of_nat, sample_read by lia. reflexivity.
Qed.

Lemma plateauMiddle_spec (st : State) (from upto : nat) :
  (from <= upto)%nat ->
  plateauMiddle (List.map Z.of_nat (specPlateau smooth st from upto))
  = Some (Z.of_nat (specExtremum smooth st from upto)).
Proof.
  intros Hle. unfold plateauMiddle, specExtremum. rewrite length_map.
  pose proof (specPlateau_nonempty st from upto Hle) as Hne.
  set (P := specPlateau smooth st from upto) in *.
  rewrite nth_error_map.
  rewrite (nth_error_nth' P 0%nat); [reflexivity|].
  destruct P as [|x t]; [congruence|]. apply Nat.div_lt; simpl; lia.
Qed.

(** [finishSegment] on a well-formed segment is the procedure's
    [finalize]. *)
Lemma finishSegment_spec (st : State) (from run upto : nat) (found : list nat * list nat) :
  (from <= upto)%nat -> (upto < len)%nat ->
  finishSegment smooth (scanOf st from run found) (Z.of_nat upto) st
  = Some (scanOf st from run (finalize smooth st from upto found)).
Proof.
  intros Hle Hlt. unfold finishSegment.
  pose proof (plateauOf_spec st from upto Hle Hlt) as HP. unfold plateauOf in HP.
  cbn [segStart scanOf].
  destruct (Z.ltb_spec (Z.of_nat upto) (Z.of_nat from)); [lia|].
  destruct st; rewrite HP, plateauMiddle_spec by assumption; cbn;
    unfold scanOf, finalize; cbn; now rewrite List.map_app.
Qed.

Lemma countRun_scanOf (st : State) (from run : nat) (found : list nat * list nat) (y : Q) :
  countRun openTh closeTh (scanOf st from run found) y
  = scanOf st from (if beyond openTh closeTh st y then S run else O) found.
Proof.
  unfold countRun, scanOf, beyond. cbn.
  destruct st; [destruct (Qle_bool openTh y) | destruct (Qle_bool y closeTh)]; reflexivity.
Qed.

Lemma confirms_scanOf (st : State) (from run : nat) (found : list nat * list nat) :
  confirms (scanOf st from run found) = (minRun <=? run)%nat.
Proof. destruct st; reflexivity. Qed.

(** One iteration of the source's loop follows the procedure; when it
    commits a transition, the index is at least [minRun] and the segment
    it finalizes is well-formed. *)
Lemma step_spec (k : nat) (p : Point) :
  (k < len)%nat -> wellPlaced openTh closeTh smooth k p ->
  step smooth openTh closeTh (scanAt p) (Z.of_nat k) (sample k)
  = Some (scanAt (advance openTh closeTh smooth k p)) /\
  wellPlaced openTh closeTh smooth (S k) (advance openTh closeTh smooth k p) /\
  (confirms (countRun openTh closeTh (scanAt p) (sample k)) = true ->
   (minRun <= k)%nat /\
   (0 <= segStart (scanAt p) <= Z.of_nat k - Z.of_nat minRun)%Z /\
   plateauOf smooth (segStart (scanAt p)) (Z.of_nat k - Z.of_nat minRun)
             (state (scanAt p)) <> []).
Proof.
  destruct p as [[[st from] run] found]. intros Hk (Hrun & Hin & Hps & Hvs).
  unfold step, scanAt, advance. rewrite countRun_scanOf, confirms_scanOf.
  fold (LabelerSpec.sample smooth k).
  set (run' := if beyond openTh closeTh st (sample k) then S run else O).
  assert (Hrun' : (run' <= S run)%nat) by (unfold run'; destruct (beyond _ _ _ _); lia).
  unfold minRun in *.
  destruct (Nat.leb_spec 3 run') as [Hfire | Hquiet].
  - assert (Hrun3 : run' = 3%nat) by lia.
    assert (Hplace : (from + 3 <= k)%nat).
    { destruct Hin as [Hin | (-> & _ & -> & Hb)]; [lia|].
      unfold run' in Hrun3. rewrite Hb in Hrun3. discriminate. }
    rewrite Hrun3. cbn [Nat.eqb].
    replace (Z.of_nat k - Z.of_nat 3)%Z with (Z.of_nat (k - 3)) by lia.
    assert (Hst : state (scanOf st from 3 found) = st) by reflexivity.
    rewrite Hst, finishSegment_spec by lia.
    split; [|split].
    + replace (Z.of_nat (k - 3) + 1)%Z with (Z.of_nat (k - 3 + 1)) by lia.
      destruct st; reflexivity.
    + unfold wellPlaced, minRun. split; [lia|]. split; [left; lia|].
      pose proof (specExtremum_within st from (k - 3) ltac:(lia)) as Hw.
      destruct st; cbn [finalize fst snd]; split; try assumption;
        apply Forall_snoc; try assumption; lia.
    + intros _. cbn [segStart scanOf state]. split; [lia|]. split; [lia|].
      rewrite plateauOf_spec by lia.
      pose proof (specPlateau_nonempty st from (k - 3) ltac:(lia)) as Hne.
      destruct (specPlateau smooth st from (k - 3)); [congruence | discriminate].
  - assert (Hne : (run' =? 3)%nat = false) by (apply Nat.eqb_neq; lia).
    rewrite Hne. split; [reflexivity|]. split; [|discriminate].
    unfold wellPlaced, minRun. split; [lia|]. split; [|split; assumption].
    left. destruct Hin as [Hin | (-> & -> & -> & Hb)]; [lia|].
    unfold run'. rewrite Hb. lia.
Qed.

Lemma scanFrom_app (i : Z) (a b : list Q) (sc : Scan) :
  scanFrom smooth openTh closeTh i (a ++ b) sc
  = match scanFrom smooth openTh closeTh i a sc with
    | Some sc' => scanFrom smooth openTh closeTh (i + Z.of_nat (length a)) b sc'
    | None => None
    end.
Proof.
  revert i sc. induction a as [|y t IH]; intros i sc.
  - simpl. now rewrite Z.add_0_r.
  - cbn [app scanFrom length]. destruct (step smooth openTh closeTh sc i y); [|reflexivity].
    rewrite IH. replace (i + 1 + Z.of_nat (length t))%Z with (i + Z.of_nat (S (length t)))%Z by lia.
    reflexivity.
Qed.

Lemma firstn_snoc (k : nat) :
  (k < len)%nat -> firstn (S k) smooth = firstn k smooth ++ [sample k].
Proof.
  intros Hk. unfold LabelerSpec.sample.
  rewrite <- (firstn_skipn k smooth) at 1.
  rewrite firstn_app, length_firstn, Nat.min_l by lia.
  rewrite firstn_all2 by (rewrite length_firstn; lia).
  f_equal. replace (S k - k)%nat with 1%nat by lia.
  rewrite (window_as_map smooth 0%Q k 1) by lia. reflexivity.
Qed.

Hypothesis thresholds_apart : closeTh < openTh.

Lemma first_sample_does_not_count :
  beyond openTh closeTh (specInitialState openTh closeTh smooth) (sample 0) = false.
Proof.
  unfold specInitialState, specMid, beyond, Qdiv. change (/ 2) with (1 # 2).
  destruct (Qle_bool ((openTh + closeTh) * (1 # 2)) (sample 0)) eqn:E.
  - apply Qle_bool_iff in E. apply not_true_is_false. intros H.
    apply Qle_bool_iff in H. lra.
  - apply not_true_is_false. intros H. apply Qle_bool_iff in H.
    apply not_true_iff_false in E. apply E. apply Qle_bool_iff. lra.
Qed.

(** Before every iteration the source's variables are those of the
    procedure, and they are well placed. *)
Lemma scanPrefix_spec (k : nat) :
  (k <= len)%nat -> smooth <> [] ->
  scanPrefix openTh closeTh smooth k = Some (scanAt (specPoint openTh closeTh smooth k)) /\
  wellPlaced openTh closeTh smooth k (specPoint openTh closeTh smooth k).
Proof.
  intros Hk Hne. induction k as [|k IH].
  - unfold scanPrefix. destruct smooth as [|y0 t] eqn:E; [congruence|].
    split.
    + cbn. unfold initialScan, scanOf, specInitialState, specMid, LabelerSpec.sample. cbn.
      destruct (Qle_bool ((openTh + closeTh) / 2) y0); reflexivity.
    + unfold wellPlaced, minRun. cbn [specPoint fst snd].
      split; [lia|]. split; [|split; constructor].
      right. repeat split; try reflexivity.
      rewrite <- E. apply first_sample_does_not_count.
  - destruct IH as [Hscan Hwell]; [lia|].
    destruct (step_spec k _ ltac:(lia) Hwell) as (Hstep & Hwell' & _).
    split; [|exact Hwell'].
    unfold scanPrefix in *. destruct smooth as [|y0 t] eqn:E; [congruence|].
    rewrite <- E in *. rewrite firstn_snoc by lia.
    rewrite scanFrom_app, Hscan. cbn [scanFrom].
    rewrite length_firstn, Nat.min_l by lia.
    rewrite Z.add_0_l, Hstep. reflexivity.
Qed.

Lemma specScanAt_advance (todo k : nat) (p : Point) :
  specScanAt openTh closeTh smooth (S todo) k p
  = specScanAt openTh closeTh smooth todo (S k) (advance openTh closeTh smooth k p).
Proof.
  destruct p as [[[st from] run] found]. unfold specScanAt, advance. cbn [specScan].
  destruct (_ =? minRun)%nat; reflexivity.
Qed.

Lemma specScanAt_point (todo k : nat) :
  specScanAt openTh closeTh smooth todo k (specPoint openTh closeTh smooth k)
  = specScanAt openTh closeTh smooth 0 (k + todo)
               (specPoint openTh closeTh smooth (k + todo)).
Proof.
  revert k. induction todo as [|todo IH]; intros k.
  - now rewrite Nat.add_0_r.
  - rewrite specScanAt_advance. change (advance openTh closeTh smooth k (specPoint openTh closeTh smooth k))
      with (specPoint openTh closeTh smooth (S k)).
    rewrite IH. now replace (S k + todo)%nat with (k + S todo)%nat by lia.
Qed.

(** The whole scan, final segment included, is the procedure's. *)
Lemma scanSegments_spec :
  smooth <> [] ->
  exists sc,
    scanSegments openTh closeTh smooth = Some sc /\
    foundPeaks sc = List.map Z.of_nat (fst (specExtrema openTh closeTh smooth)) /\
    foundValleys sc = List.map Z.of_nat (snd (specExtrema openTh closeTh smooth)) /\
    Forall (fun i => (i < len)%nat) (fst (specExtrema openTh closeTh smooth)) /\
    Forall (fun i => (i < len)%nat) (snd (specExtrema openTh closeTh smooth)).
Proof.
  intros Hne.
  destruct (scanPrefix_spec len (Nat.le_refl _) Hne) as [Hscan Hwell].
  unfold specExtrema.
  change (specScan openTh closeTh smooth len 0 (specInitialState openTh closeTh smooth) 0 0 ([], []))
    with (specScanAt openTh closeTh smooth len 0 (specPoint openTh closeTh smooth 0)).
  rewrite specScanAt_point. cbn [Nat.add].
  unfold scanSegments, scanPrefix in *. destruct smooth as [|y0 t] eqn:E; [congruence|].
  rewrite <- E in *. rewrite firstn_all in Hscan. rewrite Hscan.
  destruct (specPoint openTh closeTh smooth len) as [[[st from] run] found].
  destruct Hwell as (Hrun & Hin & Hps & Hvs).
  assert (Hlen : (0 < len)%nat) by (rewrite E; simpl; lia).
  assert (Hfrom : (from <= len - 1)%nat).
  { destruct Hin as [Hin | (H0 & _)]; lia. }
  unfold scanAt. cbn [state scanOf].
  replace (Z.of_nat len - 1)%Z with (Z.of_nat (len - 1)) by lia.
  rewrite finishSegment_spec by lia.
  eexists. split; [reflexivity|].
  pose proof (specExtremum_within st from (len - 1) Hfrom) as Hw.
  cbn [specScanAt specScan foundPeaks foundValleys scanOf].
  split; [reflexivity|]. split; [reflexivity|].
  destruct st; cbn [finalize fst snd]; split; try assumption;
    apply Forall_snoc; try assumption; lia.
Qed.

End Thresholds.
End LabelerFacts.

(** ** The labeller with its fixed thresholds *)

Section FixedThresholds.
Import JsArray Labeler LabelerSpec.

Lemma fixed_thresholds_apart : (CLOSE_TH_FIXED < OPEN_TH_FIXED)%Q.
Proof. reflexivity. Qed.

Lemma smoothSeries_length (pred : list Q) :
  length (Smoother.smoothSeries pred) = length pred.
Proof. apply smoothSeriesWith_length. Qed.

Lemma smoothSeries_nonempty (p : Q) (rest : list Q) :
  Smoother.smoothSeries (p :: rest) <> [].
Proof.
  intros H. apply (f_equal (@length Q)) in H.
  rewrite smoothSeries_length in H. discriminate.
Qed.

Lemma removelast_In {A : Type} (x : A) (l : list A) :
  In x (removelast l) -> In x l.
Proof.
  induction l as [|a t IH]; [intros []|].
  destruct t as [|b t']; [intros []|].
  change (removelast (a :: b :: t')) with (a :: removelast (b :: t')).
  intros [-> | Hx]; [now left | right; now apply IH].
Qed.

Lemma ensurePairing_within (P : Z -> Prop) (ps vs : list Z) :
  Forall P ps -> Forall P vs ->
  Forall P (fst (ensurePairing ps vs)) /\ Forall P (snd (ensurePairing ps vs)).
Proof.
  intros Hps Hvs. unfold ensurePairing.
  destruct ps as [|p ps']; [split; assumption|].
  destruct vs as [|v vs']; [split; assumption|].
  cbn [fst snd]. split.
  - destruct (indexLt _ _); [|assumption]. now inversion Hps.
  - destruct (indexLt _ _); [|assumption].
    apply List.Forall_forall. intros x Hx.
    apply (proj1 (List.Forall_forall P (v :: vs')) Hvs).
    now apply removelast_In.
Qed.

Lemma Forall_of_nat_within (n : nat) (l : list nat) :
  Forall (fun i => (i < n)%nat) l ->
  Forall (fun i => 0 <= i < Z.of_nat n) (List.map Z.of_nat l).
Proof.
  induction 1 as [|i l Hi _ IH]; cbn; constructor; [lia | exact IH].
Qed.

(** With the fixed thresholds the sample that decides the initial state
    is on the wrong side of the threshold that would leave it. *)
Lemma initial_sample_resets_counters (y0 : Q) :
  overRun (countRun OPEN_TH_FIXED CLOSE_TH_FIXED
             (initialScan OPEN_TH_FIXED CLOSE_TH_FIXED y0) y0) = O /\
  underRun (countRun OPEN_TH_FIXED CLOSE_TH_FIXED
              (initialScan OPEN_TH_FIXED CLOSE_TH_FIXED y0) y0) = O.
Proof.
  pose proof (first_sample_does_not_count OPEN_TH_FIXED CLOSE_TH_FIXED [y0]
                fixed_thresholds_apart) as Hfirst.
  unfold specInitialState, specMid, LabelerSpec.sample, beyond in Hfirst.
  cbn [nth] in Hfirst.
  unfold countRun, initialScan. cbn [state overRun underRun].
  destruct (Qle_bool ((OPEN_TH_FIXED + CLOSE_TH_FIXED) / 2) y0);
    cbn [state]; rewrite Hfirst; split; reflexivity.
Qed.

Lemma get_lastIndex {A : Type} (xs : list A) (d : A) :
  xs <> [] -> get xs (lastIndex xs) = Some (List.last xs d).
Proof.
  intros Hne. unfold lastIndex.
  replace (Z.of_nat (length xs) - 1) with (Z.of_nat (length xs - 1))
    by (destruct xs; [congruence | cbn [length]; lia]).
  rewrite get_of_nat.
  destruct (exists_last Hne) as (front & x & ->).
  rewrite List.last_last, length_app. cbn [length].
  replace (length front + 1 - 1)%nat with (length front) by lia.
  now rewrite nth_error_app2, Nat.sub_diag by lia.
Qed.

(** What the pairing block does to the valleys, for every pair of
    non-empty lists: it removes the List.last valley exactly when that valley
    precedes the last of the peaks that remain. *)
Lemma ensurePairing_drops_preceding_valley (ps vs : list Z) :
  ps <> [] -> vs <> [] ->
  let ps1 := fst (ensurePairing ps vs) in
  (ps1 <> [] /\ List.last vs 0 < List.last ps1 0 -> snd (ensurePairing ps vs) = removelast vs) /\
  (ps1 = [] \/ List.last ps1 0 <= List.last vs 0 -> snd (ensurePairing ps vs) = vs).
Proof.
  intros Hps Hvs. unfold ensurePairing.
  destruct ps as [|p ps']; [congruence|]. destruct vs as [|v vs']; [congruence|].
  cbn [fst snd].
  set (ps1 := if indexLt (get (p :: ps') 0) (get (v :: vs') 0) then tl (p :: ps') else p :: ps').
  rewrite (get_lastIndex (v :: vs') 0) by discriminate.
  destruct ps1 as [|q qs] eqn:E.
  - cbn. split; [intros [H _]; congruence | reflexivity].
  - rewrite (get_lastIndex (q :: qs) 0) by discriminate.
    unfold indexLt. split.
    + intros [_ Hlt]. now destruct (Z.ltb_spec (List.last (v :: vs') 0) (List.last (q :: qs) 0)); [|lia].
    + intros [H | Hle]; [discriminate|].
      now destruct (Z.ltb_spec (List.last (v :: vs') 0) (List.last (q :: qs) 0)); [lia|].
Qed.

(** The labeller always returns. *)
Lemma labelBlinkExtrema_total (pred : list Q) :
  exists ex, labelBlinkExtrema pred = Some ex.
Proof.
  unfold labelBlinkExtrema, labelBlinkExtremaWith.
  destruct (Smoother.smoothSeries pred) as [|y0 t] eqn:E; [eexists; reflexivity|].
  destruct (scanSegments_spec OPEN_TH_FIXED CLOSE_TH_FIXED (y0 :: t)
              fixed_thresholds_apart ltac:(discriminate)) as (sc & Hscan & _).
  rewrite Hscan. destruct (ensurePairing _ _). eexists; reflexivity.
Qed.

End FixedThresholds.

(** C2. For every non-empty input, the scan of [labelBlinkExtrema] with the
    fixed thresholds 0.8 and 0.2 finds the peaks and valleys that the
    procedure of the specification finds on the smoothed series (initial
    state from the midpoint, a transition after [minRun] consecutive
    samples beyond the threshold, the plateau midpoint of each finalized
    segment, the last segment finalized in the current state), and the
    result holds these lists after the pairing block. *)
Theorem labelBlinkExtrema_follows_procedure (p : Q) (rest : list Q) :
  let pred := p :: rest in
  let smooth := Smoother.smoothSeries pred in
  let found := LabelerSpec.specExtrema Labeler.OPEN_TH_FIXED Labeler.CLOSE_TH_FIXED smooth in
  exists sc,
    Labeler.scanSegments Labeler.OPEN_TH_FIXED Labeler.CLOSE_TH_FIXED smooth = Some sc /\
    Labeler.foundPeaks sc = List.map Z.of_nat (fst found) /\
    Labeler.foundValleys sc = List.map Z.of_nat (snd found) /\
    Labeler.labelBlinkExtrema pred
    = Some (Labeler.mkExtremes smooth
              (fst (Labeler.ensurePairing (Labeler.foundPeaks sc) (Labeler.foundValleys sc)))
              (snd (Labeler.ensurePairing (Labeler.foundPeaks sc) (Labeler.foundValleys sc)))).
Proof.
  intros pred smooth found.
  destruct (scanSegments_spec Labeler.OPEN_TH_FIXED Labeler.CLOSE_TH_FIXED smooth
              fixed_thresholds_apart (smoothSeries_nonempty p rest))
    as (sc & Hscan & Hps & Hvs & _).
  exists sc. repeat split; try assumption.
  unfold Labeler.labelBlinkExtrema, Labeler.labelBlinkExtremaWith.
  fold pred. fold smooth.
  destruct smooth as [|y0 t] eqn:E; [now apply smoothSeries_nonempty in E|].
  rewrite Hscan. now destruct (Labeler.ensurePairing _ _).
Qed.

(** C10. For every input and the fixed thresholds, the scan of
    [labelBlinkExtrema] never fails to produce an index: it reaches every
    iteration; an iteration that commits a transition has an index of at
    least [minRun], finalizes a segment with
    [0 <= segStart <= endIdx < length] and selects from a non-empty plateau;
    so does the final segment; and every returned peak and valley index
    lies in [0, length). *)
Theorem labelBlinkExtrema_stays_in_range (pred : list Q) :
  let smooth := Smoother.smoothSeries pred in
  let n := length pred in
  let prefix := Labeler.scanPrefix Labeler.OPEN_TH_FIXED Labeler.CLOSE_TH_FIXED smooth in
  length smooth = n /\
  (forall y0 t, smooth = y0 :: t ->
     let counted :=
       Labeler.countRun Labeler.OPEN_TH_FIXED Labeler.CLOSE_TH_FIXED
         (Labeler.initialScan Labeler.OPEN_TH_FIXED Labeler.CLOSE_TH_FIXED y0) y0 in
     Labeler.overRun counted = O /\ Labeler.underRun counted = O) /\
  (forall k, (k < n)%nat ->
     exists sc y,
       prefix k = Some sc /\ nth_error smooth k = Some y /\
       (Labeler.confirms
          (Labeler.countRun Labeler.OPEN_TH_FIXED Labeler.CLOSE_TH_FIXED sc y) = true ->
        (Labeler.minRun <= k)%nat /\
        0 <= Labeler.segStart sc <= Z.of_nat k - Z.of_nat Labeler.minRun /\
        Z.of_nat k - Z.of_nat Labeler.minRun < Z.of_nat n /\
        Labeler.plateauOf smooth (Labeler.segStart sc)
          (Z.of_nat k - Z.of_nat Labeler.minRun) (Labeler.state sc) <> [])) /\
  ((0 < n)%nat ->
     exists sc,
       prefix n = Some sc /\
       0 <= Labeler.segStart sc <= Z.of_nat n - 1 /\
       Labeler.plateauOf smooth (Labeler.segStart sc) (Z.of_nat n - 1)
         (Labeler.state sc) <> []) /\
  exists ex,
    Labeler.labelBlinkExtrema pred = Some ex /\
    Labeler.smooth ex = smooth /\
    Forall (fun i => 0 <= i < Z.of_nat n) (Labeler.peaks ex) /\
    Forall (fun i => 0 <= i < Z.of_nat n) (Labeler.valleys ex).
Proof.
  intros smooth n prefix.
  assert (Hlen : length smooth = n) by apply smoothSeries_length.
  split; [exact Hlen|].
  split.
  { intros y0 t _ counted. subst counted. apply initial_sample_resets_counters. }
  destruct pred as [|p rest].
  { split; [intros k Hk; cbn in Hk; lia|]. split; [intros Hn; cbn in Hn; lia|].
    eexists. split; [reflexivity|]. cbn. repeat split; constructor. }
  assert (Hne : smooth <> []) by apply smoothSeries_nonempty.
  pose proof fixed_thresholds_apart as Hth.
  split; [|split].
  - intros k Hk.
    destruct (scanPrefix_spec Labeler.OPEN_TH_FIXED Labeler.CLOSE_TH_FIXED smooth Hth k
                ltac:(lia) Hne) as [Hscan Hwell].
    destruct (step_spec Labeler.OPEN_TH_FIXED Labeler.CLOSE_TH_FIXED smooth k _
                ltac:(lia) Hwell) as (_ & _ & Hfire).
    eexists. exists (LabelerSpec.sample smooth k).
    split; [exact Hscan|]. split; [apply sample_read; lia|].
    intros Hc. destruct (Hfire Hc) as (H1 & H2 & H3).
    repeat split; try assumption; lia.
  - intros Hn.
    destruct (scanPrefix_spec Labeler.OPEN_TH_FIXED Labeler.CLOSE_TH_FIXED smooth Hth n
                ltac:(lia) Hne) as [Hscan Hwell].
    eexists. split; [exact Hscan|].
    destruct (LabelerSpec.specPoint _ _ _ n) as [[[st from] run] found].
    destruct Hwell as (Hrun & Hin & _).
    assert (Hfrom : (from <= n - 1)%nat) by (destruct Hin as [Hin | (H0 & _)]; lia).
    cbn [LabelerSpec.scanAt Labeler.segStart Labeler.state LabelerSpec.scanOf].
    split; [lia|].
    replace (Z.of_nat n - 1) with (Z.of_nat (n - 1)) by lia.
    rewrite plateauOf_spec by lia.
    pose proof (specPlateau_nonempty smooth st from (n - 1) Hfrom) as Hp.
    destruct (LabelerSpec.specPlateau smooth st from (n - 1)); [congruence | discriminate].
  - destruct (scanSegments_spec Labeler.OPEN_TH_FIXED Labeler.CLOSE_TH_FIXED smooth Hth Hne)
      as (sc & Hscan & Hps & Hvs & Hpr & Hvr).
    rewrite Hlen in Hpr, Hvr.
    apply Forall_of_nat_within in Hpr, Hvr. rewrite <- Hps in Hpr. rewrite <- Hvs in Hvr.
    destruct (ensurePairing_within _ _ _ Hpr Hvr) as [Hp' Hv'].
    unfold Labeler.labelBlinkExtrema, Labeler.labelBlinkExtremaWith.
    fold smooth. destruct smooth as [|y0 t] eqn:E; [congruence|].
    rewrite Hscan. destruct (Labeler.ensurePairing _ _) as [ps vs].
    eexists. split; [reflexivity|]. cbn. repeat split; assumption.
Qed.

(** C1 (the source departs from it). One closed-open-closed-open recording:
    the scan finds the valleys 0 and 19 and the peaks 12 and 31, the
    pairing block then removes the valley 19, which precedes the last peak,
    and the result has two peaks in a row.  One closed-open-closed
    recording: the last valley, 23, follows the last peak, 12, and is
    kept. *)
Theorem ensurePairing_leaves_unpaired_extrema :
  let closed := repeat 0%Q 8 in
  let open := repeat 1%Q 8 in
  (exists ex,
     Labeler.labelBlinkExtrema (closed ++ open ++ closed ++ open) = Some ex /\
     Labeler.peaks ex = [12; 31] /\ Labeler.valleys ex = [0] /\
     Labeler.mergedLabels (Labeler.peaks ex) (Labeler.valleys ex)
     = [Labeler.Valley; Labeler.Peak; Labeler.Peak] /\
     Labeler.valleyPeakPairs
       (Labeler.mergedLabels (Labeler.peaks ex) (Labeler.valleys ex)) = false) /\
  (exists ex,
     Labeler.labelBlinkExtrema (closed ++ open ++ closed) = Some ex /\
     Labeler.peaks ex = [12] /\ Labeler.valleys ex = [0; 23] /\
     Labeler.valleyPeakPairs
       (Labeler.mergedLabels (Labeler.peaks ex) (Labeler.valleys ex)) = false).
Proof.
  cbv zeta. split.
  - eexists. split; [vm_compute; reflexivity|]. repeat split.
  - eexists. split; [vm_compute; reflexivity|]. repeat split.
Qed.

(** ** The ordering signs of the smooth trainer *)

Section OrderingSignFacts.
Import JsArray SmoothBlink.

Lemma insertBy_Forall {A : Type} (P : A -> Prop) (leb : A -> A -> bool) (x : A) (xs : list A) :
  P x -> Forall P xs -> Forall P (insertBy leb x xs).
Proof.
  intros Hx. induction 1 as [|y t Hy Ht IH]; simpl.
  - now constructor.
  - destruct (leb y x); constructor; auto.
Qed.

Lemma sortBy_Forall {A : Type} (P : A -> Prop) (leb : A -> A -> bool) (xs : list A) :
  Forall P xs -> Forall P (sortBy leb xs).
Proof.
  unfold sortBy. assert (Hacc : Forall P (@nil A)) by constructor.
  revert Hacc. generalize (@nil A).
  induction xs as [|x t IH]; intros acc Hacc Hxs; simpl; [exact Hacc|].
  inversion Hxs; subst. apply IH; [|assumption]. now apply insertBy_Forall.
Qed.

Lemma sortBy_Sorted (xs : list Z) : Sorted Z.le (sortBy Z.leb xs).
Proof.
  eapply Sorted_ext_rel; [|apply (sortBy_sorted Z.leb)].
  - intros a b H. now apply Z.leb_le.
  - intros a b H. apply Z.leb_gt in H. apply Z.leb_le. lia.
Qed.

Lemma nth_list_insert (l : list Z) (i j : nat) (x d : Z) :
  (i < length l)%nat ->
  nth j (<[i := x]> l) d = if (j =? i)%nat then x else nth j l d.
Proof.
  revert i j. induction l as [|a t IH]; intros i j Hi; cbn in Hi; [lia|].
  destruct i as [|i]; destruct j as [|j]; cbn; try reflexivity.
  apply IH. lia.
Qed.

(** Painting the positions [a, a + m) leaves the others as they were. *)
Lemma assignEach_paints (sgn : Z) (m a : nat) (os : list Z) :
  (a + m <= length os)%nat ->
  exists os',
    assignEach sgn (List.map Z.of_nat (seq a m)) os = Some os' /\
    length os' = length os /\
    forall j, nth j os' 0 = if (a <=? j)%nat && (j <? a + m)%nat then sgn else nth j os 0.
Proof.
  revert a os. induction m as [|m IH]; intros a os Hm.
  - exists os. split; [reflexivity|]. split; [reflexivity|].
    intros j. destruct (Nat.leb_spec a j), (Nat.ltb_spec j (a + 0)); cbn; try reflexivity; lia.
  - cbn [seq List.map assignEach]. unfold assign.
    destruct (Z.leb_spec 0 (Z.of_nat a)); [|lia].
    destruct (Z.ltb_spec (Z.of_nat a) (Z.of_nat (length os))); [|lia].
    cbn [andb]. rewrite Nat2Z.id.
    destruct (IH (S a) (<[a := sgn]> os)) as (os' & Hos' & Hlen & Hnth).
    { rewrite length_insert. lia. }
    exists os'. split; [exact Hos'|]. split; [now rewrite Hlen, length_insert|].
    intros j. rewrite Hnth, nth_list_insert by lia.
    destruct (Nat.leb_spec (S a) j), (Nat.ltb_spec j (S a + m)),
      (Nat.leb_spec a j), (Nat.ltb_spec j (a + S m)), (Nat.eqb_spec j a);
      cbn; try reflexivity; lia.
Qed.

Lemma paint_interval (sgn s e : Z) (os : list Z) :
  0 <= s <= e -> e <= Z.of_nat (length os) ->
  exists os',
    assignEach sgn (range s (e - s)) os = Some os' /\
    length os' = length os /\
    forall j, nth j os' 0
              = if (s <=? Z.of_nat j) && (Z.of_nat j <? e) then sgn else nth j os 0.
Proof.
  intros Hs He.
  replace (range s (e - s))
    with (List.map Z.of_nat (seq (Z.to_nat s) (Z.to_nat (e - s)))).
  2:{ rewrite <- range_of_nat. unfold range.
      now rewrite Nat2Z.id, Z2Nat.id by lia. }
  destruct (assignEach_paints sgn (Z.to_nat (e - s)) (Z.to_nat s) os) as (os' & H1 & H2 & H3);
    [lia|].
  exists os'. split; [exact H1|]. split; [exact H2|].
  intros j. rewrite H3.
  destruct (Nat.leb_spec (Z.to_nat s) j), (Nat.ltb_spec j (Z.to_nat s + Z.to_nat (e - s))),
    (Z.leb_spec s (Z.of_nat j)), (Z.ltb_spec (Z.of_nat j) e); cbn; try reflexivity; lia.
Qed.

Lemma signByTurn_before (rising : bool) (extrema : list Z) (i : Z) :
  Sorted Z.le extrema -> (forall s, hd_error extrema = Some s -> i < s) ->
  signByTurn rising extrema i = 0.
Proof.
  intros Hsorted. revert rising.
  induction Hsorted as [|s t Ht IH Hhd]; intros rising Hi; [reflexivity|].
  destruct t as [|e t']; [reflexivity|].
  cbn [signByTurn]. specialize (Hi s eq_refl).
  destruct (Z.leb_spec s i); [lia|]. cbn [andb].
  apply IH. intros s' Hs'. cbn in Hs'. inversion Hs'; subst.
  inversion Hhd; subst. lia.
Qed.

Lemma signByTurn_nonzero_inside (rising : bool) (s e : Z) (rest : list Z) (i : Z) :
  s <= i < e ->
  signByTurn rising (s :: e :: rest) i = if rising then 1 else -1.
Proof.
  intros Hi. cbn [signByTurn].
  destruct (Z.leb_spec s i), (Z.ltb_spec i e); cbn; try reflexivity; lia.
Qed.

Lemma signByTurn_skip (rising : bool) (s e : Z) (rest : list Z) (i : Z) :
  ~ (s <= i < e) ->
  signByTurn rising (s :: e :: rest) i = signByTurn (negb rising) (e :: rest) i.
Proof.
  intros Hi. cbn [signByTurn].
  destruct (Z.leb_spec s i), (Z.ltb_spec i e); cbn [andb]; try reflexivity; lia.
Qed.

(** The walk writes to every position the sign of the turn of its
    interval and leaves the positions outside the intervals alone. *)
Lemma walk_paints (extrema : list Z) (rising : bool) (os : list Z) :
  Sorted Z.le extrema ->
  Forall (fun e => 0 <= e <= Z.of_nat (length os)) extrema ->
  exists os',
    walk rising extrema os = Some os' /\
    length os' = length os /\
    forall j, nth j os' 0
              = if (signByTurn rising extrema (Z.of_nat j) =? 0)
                then nth j os 0
                else signByTurn rising extrema (Z.of_nat j).
Proof.
  intros Hsorted. revert rising os.
  induction Hsorted as [|s t Ht IH Hhd]; intros rising os Hin.
  - exists os. repeat split.
  - destruct t as [|e t'].
    + exists os. repeat split.
    + inversion Hin as [|? ? Hs Hin']; subst.
      inversion Hin' as [|? ? He _]; subst.
      cbn [walk].
      assert (Hse : s <= e) by now inversion Hhd.
      destruct (paint_interval (if rising then 1 else -1) s e os) as (os1 & H1 & H2 & H3);
        [lia | lia |].
      rewrite H1.
      destruct (IH (negb rising) os1) as (os' & H4 & H5 & H6).
      { rewrite H2. exact Hin'. }
      exists os'. split; [exact H4|]. split; [congruence|].
      intros j. rewrite H6, H3.
      destruct (Z.leb_spec s (Z.of_nat j)) as [Hsj | Hsj];
        destruct (Z.ltb_spec (Z.of_nat j) e) as [Hje | Hje]; cbn [andb];
        try (rewrite (signByTurn_skip rising s e t') by lia; reflexivity).
      rewrite (signByTurn_before (negb rising) (e :: t') (Z.of_nat j) Ht).
      2:{ intros s' Hs'. cbn in Hs'. inversion Hs'; subst. exact Hje. }
      rewrite signByTurn_nonzero_inside by lia.
      cbn. destruct rising; reflexivity.
Qed.

Lemma signByTurn_cons2 (rising : bool) (s e : Z) (rest : list Z) (i : Z) :
  signByTurn rising (s :: e :: rest) i
  = if (s <=? i) && (i <? e) then (if rising then 1 else -1)
    else signByTurn (negb rising) (e :: rest) i.
Proof. reflexivity. Qed.

Lemma signByStart_cons2 (valleyIdx : list Z) (s e : Z) (rest : list Z) (i : Z) :
  signByStart valleyIdx (s :: e :: rest) i
  = if (s <=? i) && (i <? e) then (if has valleyIdx s then 1 else -1)
    else signByStart valleyIdx (e :: rest) i.
Proof. reflexivity. Qed.

Lemma signByTurn_by_start (valleyIdx extrema : list Z) (i : Z) :
  alternating valleyIdx extrema ->
  signByTurn (has valleyIdx (hd 0 extrema)) extrema i = signByStart valleyIdx extrema i.
Proof.
  induction extrema as [|s t IH]; intros Halt; [reflexivity|].
  destruct t as [|e t']; [reflexivity|].
  destruct Halt as [Hse Halt].
  rewrite signByTurn_cons2, signByStart_cons2. cbn [hd].
  destruct ((s <=? i) && (i <? e)); [reflexivity|].
  rewrite <- IH by exact Halt. cbn [hd]. rewrite Hse. now rewrite negb_involutive.
Qed.

Lemma signByTurn_few (rising : bool) (extrema : list Z) (i : Z) :
  (length extrema < 2)%nat -> signByTurn rising extrema i = 0.
Proof. destruct extrema as [|s [|e t]]; cbn; try reflexivity; lia. Qed.

Lemma nth_repeat_zero (n j : nat) : nth j (repeat 0 n) 0 = 0.
Proof.
  revert j. induction n as [|n IH]; intros [|j]; cbn; try reflexivity. apply IH.
Qed.

Lemma orderingSigns_spec (N : nat) (data : BlinkTrainingData) :
  (0 < N)%nat ->
  Forall (fun e => 0 <= e < Z.of_nat N) (valleys data ++ peaks data) ->
  exists os,
    orderingSigns N data = Some os /\
    length os = (N - 1)%nat /\
    forall i, nth i os 0
              = signByTurn (has (valleys data) (hd 0 (extremaOf data)))
                           (extremaOf data) (Z.of_nat i).
Proof.
  intros HN Hin. unfold orderingSigns. destruct N as [|n]; [lia|].
  fold (extremaOf data).
  assert (Hsorted : Sorted Z.le (extremaOf data)) by apply sortBy_Sorted.
  assert (Hext : Forall (fun e => 0 <= e <= Z.of_nat (length (repeat 0 n))) (extremaOf data)).
  { apply sortBy_Forall. eapply Forall_impl; [exact Hin|].
    intros e He. cbn beta in *. rewrite repeat_length. lia. }
  destruct (walk_paints (extremaOf data) (has (valleys data) (hd 0 (extremaOf data)))
              (repeat 0 n) Hsorted Hext) as (os & H1 & H2 & H3).
  destruct (extremaOf data) as [|e0 [|e1 t]] eqn:E.
  - exists (repeat 0 n). split; [reflexivity|]. split; [rewrite repeat_length; lia|].
    intros i. now rewrite nth_repeat_zero.
  - exists (repeat 0 n). split; [reflexivity|]. split; [rewrite repeat_length; lia|].
    intros i. now rewrite nth_repeat_zero.
  - exists os. split; [exact H1|]. split; [rewrite H2, repeat_length; lia|].
    intros i. rewrite H3, nth_repeat_zero.
    destruct (Z.eqb_spec (signByTurn (has (valleys data) (hd 0 (e0 :: e1 :: t)))
                            (e0 :: e1 :: t) (Z.of_nat i)) 0) as [Hz | Hz];
      [now rewrite Hz | reflexivity].
Qed.

End OrderingSignFacts.

(** C5 (counterexample). With the valleys 10 and 20 and the peak 40 over 50
    samples, the interval from 20 to 40 starts at a valley, so position 25
    should carry [+1]; the source writes [-1] there. *)
Lemma orderingSigns_not_by_start :
  let data := SmoothBlink.mkBlinkTrainingData ([], [], []) [40] [10; 20] in
  exists os,
    SmoothBlink.orderingSigns 50 data = Some os /\
    nth 25 os 0 = -1 /\
    nth 25 (SmoothBlink.expectedSigns 50 data) 0 = 1 /\
    os <> SmoothBlink.expectedSigns 50 data.
Proof.
  cbv zeta. eexists. split; [vm_compute; reflexivity|].
  split; [reflexivity|]. split; [reflexivity|]. vm_compute. discriminate.
Qed.

(** C5 (as amended). Given peaks and valleys that are indices into the [N]
    samples, the ordering-sign array has length [N - 1]; the intervals
    between consecutive sorted extrema carry [+1] and [-1] in turn, the
    first one [+1] exactly when the smallest extremum is a valley, and the
    positions outside every interval carry [0].  Whenever the sorted
    extrema alternate between valleys and peaks this is [+1] on every
    interval that starts at a valley and [-1] on every interval that
    starts at a peak; for the peak 40 and the valleys 10 and 70 it is
    [+1] on [10, 40), [-1] on [40, 70) and [0] elsewhere. *)
Theorem orderingSigns_by_turn (N : nat) (data : SmoothBlink.BlinkTrainingData)
  (HN : (0 < N)%nat)
  (Hin : Forall (fun e => 0 <= e < Z.of_nat N)
                (SmoothBlink.valleys data ++ SmoothBlink.peaks data)) :
  exists os,
    SmoothBlink.orderingSigns N data = Some os /\
    length os = (N - 1)%nat /\
    (forall i, (i < N - 1)%nat ->
       nth i os 0
       = SmoothBlink.signByTurn
           (SmoothBlink.has (SmoothBlink.valleys data) (hd 0 (SmoothBlink.extremaOf data)))
           (SmoothBlink.extremaOf data) (Z.of_nat i)) /\
    (SmoothBlink.alternating (SmoothBlink.valleys data) (SmoothBlink.extremaOf data) ->
       os = SmoothBlink.expectedSigns N data) /\
    (SmoothBlink.peaks data = [40] -> SmoothBlink.valleys data = [10; 70] ->
       forall i, (i < N - 1)%nat ->
         nth i os 0 = if (10 <=? Z.of_nat i) && (Z.of_nat i <? 40) then 1
                      else if (40 <=? Z.of_nat i) && (Z.of_nat i <? 70) then -1
                      else 0).
Proof.
  destruct (orderingSigns_spec N data HN Hin) as (os & H1 & H2 & H3).
  exists os. split; [exact H1|]. split; [exact H2|].
  split; [intros i _; apply H3|]. split.
  - intros Halt. apply (nth_ext _ _ 0 0).
    + unfold SmoothBlink.expectedSigns. now rewrite length_map, length_seq.
    + intros i Hi. rewrite H3. unfold SmoothBlink.expectedSigns.
      rewrite (nth_indep _ 0 (SmoothBlink.signByStart (SmoothBlink.valleys data)
                                (SmoothBlink.extremaOf data) (Z.of_nat 0)))
        by (rewrite length_map, length_seq; lia).
      rewrite (map_nth (fun i => SmoothBlink.signByStart (SmoothBlink.valleys data)
                                   (SmoothBlink.extremaOf data) (Z.of_nat i))).
      rewrite seq_nth by lia. cbn [Nat.add].
      now apply signByTurn_by_start.
  - intros Hp Hv i _. rewrite H3. unfold SmoothBlink.extremaOf. rewrite Hp, Hv.
    reflexivity.
Qed.

Lemma orderingSigns_by_turn_witness :
  exists os,
    SmoothBlink.orderingSigns 100
      (SmoothBlink.mkBlinkTrainingData ([], [], []) [40] [10; 70]) = Some os /\
    length os = 99%nat /\
    nth 10 os 0 = 1 /\ nth 39 os 0 = 1 /\ nth 40 os 0 = -1 /\ nth 69 os 0 = -1 /\
    nth 9 os 0 = 0 /\ nth 70 os 0 = 0.
Proof.
  destruct (orderingSigns_by_turn 100
              (SmoothBlink.mkBlinkTrainingData ([], [], []) [40] [10; 70]))
    as (os & H1 & H2 & _ & _ & H5).
  - lia.
  - cbn. repeat constructor; lia.
  - exists os. split; [exact H1|]. split; [exact H2|].
    specialize (H5 eq_refl eq_refl).
    repeat split; rewrite H5 by lia; reflexivity.
Defined.

(** ** The composite loss of the smooth trainer *)

Section LossFacts.
Import JsArray SmoothBlink.
Local Open Scope Q_scope.

Lemma gather_in_range (y : list Q) (indices : list Z) :
  Forall (fun i => (0 <= i < Z.of_nat (length y))%Z) indices ->
  gather y indices = Some (List.map (at_ y) indices).
Proof.
  induction 1 as [|i t Hi Ht IH]; [reflexivity|].
  cbn [gather List.map]. rewrite IH. unfold get, at_.
  destruct (Z.ltb_spec i 0); [lia|].
  rewrite (nth_error_nth' y 0) by lia. reflexivity.
Qed.

Lemma zipWith_length (f : Q -> Q -> Q) (a b : list Q) :
  length (zipWith f a b) = Nat.min (length a) (length b).
Proof.
  revert b. induction a as [|x a' IH]; intros [|y b']; cbn; try reflexivity.
  now rewrite IH.
Qed.

Lemma zipWith_nth (f : Q -> Q -> Q) (a b : list Q) (i : nat) (d : Q) :
  (i < length a)%nat -> (i < length b)%nat ->
  nth i (zipWith f a b) d = f (nth i a 0) (nth i b 0).
Proof.
  revert b i. induction a as [|x a' IH]; intros [|y b'] i Ha Hb; cbn in *; try lia.
  destruct i as [|i]; [reflexivity|]. apply IH; lia.
Qed.

Lemma zipWith_maps {A : Type} (f : Q -> Q -> Q) (g h : A -> Q) (l : list A) :
  zipWith f (List.map g l) (List.map h l) = List.map (fun x => f (g x) (h x)) l.
Proof. induction l as [|x t IH]; cbn; [reflexivity|]. now rewrite IH. Qed.

Lemma elementwise_same_length (f : Q -> Q -> Q) (a b : list Q) :
  length a = length b -> elementwise f a b = Some (zipWith f a b).
Proof. intros H. unfold elementwise. now rewrite H, Nat.eqb_refl. Qed.

Lemma sum_app (a b : list Q) : sum (a ++ b) == sum a + sum b.
Proof.
  induction a as [|x t IH]; unfold sum in *; cbn [app fold_right].
  - ring.
  - rewrite IH. ring.
Qed.

Lemma sum_pointwise {A : Type} (f g : A -> Q) (l : list A) :
  (forall x, In x l -> f x == g x) -> sum (List.map f l) == sum (List.map g l).
Proof.
  induction l as [|x t IH]; intros H; unfold sum in *; cbn [List.map fold_right];
    [reflexivity|].
  rewrite (H x) by now left. rewrite IH; [reflexivity|].
  intros z Hz. apply H. now right.
Qed.

Lemma has_In (s : list Z) (i : Z) : has s i = true <-> In i s.
Proof.
  unfold has. rewrite existsb_exists. split.
  - intros (x & Hx & E). apply Z.eqb_eq in E. now subst.
  - intros Hi. exists i. split; [exact Hi | apply Z.eqb_refl].
Qed.

Lemma map_seq_nth {A : Type} (f : nat -> A) (n i : nat) (d : A) :
  (i < n)%nat -> nth i (List.map f (seq 0 n)) d = f i.
Proof.
  intros Hi. rewrite (nth_indep _ d (f O)) by (rewrite length_map, length_seq; lia).
  rewrite (map_nth f), seq_nth by lia. reflexivity.
Qed.

Lemma as_map_of_nth (l : list Q) :
  l = List.map (fun i => nth i l 0) (seq 0 (length l)).
Proof.
  apply (nth_ext _ _ 0 0).
  - now rewrite length_map, length_seq.
  - intros i Hi. now rewrite map_seq_nth.
Qed.

Lemma relu_of_zero (x : Q) : x == 0 -> relu x == 0.
Proof. intros Hx. unfold relu. rewrite Q.max_l; [exact Hx | rewrite Hx; apply Qle_refl]. Qed.

(** The tensor operations against the written-out ones. *)
Lemma sum_total (l : list Q) : sum l = LossSpec.total l.
Proof. induction l as [|x t IH]; [reflexivity|]. unfold sum in *. cbn. now rewrite IH. Qed.

Lemma relu_positivePart (x : Q) : relu x == LossSpec.positivePart x.
Proof.
  unfold relu, LossSpec.positivePart. destruct (Qle_bool x 0) eqn:E.
  - apply Qle_bool_iff in E. now apply Q.max_r.
  - apply Q.max_l, Qlt_le_weak, Qnot_le_lt. intros H. apply Qle_bool_iff in H. congruence.
Qed.

Lemma target_targetOf (peakSet : list Z) (i : Z) :
  (if has peakSet i then 1 else 0) = LossSpec.targetOf peakSet i.
Proof.
  unfold LossSpec.targetOf. destruct (in_dec Z.eq_dec i peakSet) as [Hi | Hi].
  - now rewrite (proj2 (has_In peakSet i) Hi).
  - destruct (has peakSet i) eqn:E; [|reflexivity]. now apply has_In in E.
Qed.

Lemma total_app (a b : list Q) :
  LossSpec.total (a ++ b) == LossSpec.total a + LossSpec.total b.
Proof. rewrite <- !sum_total. apply sum_app. Qed.

Lemma total_pointwise {A : Type} (f g : A -> Q) (l : list A) :
  (forall x, In x l -> f x == g x) ->
  LossSpec.total (List.map f l) == LossSpec.total (List.map g l).
Proof. rewrite <- !sum_total. apply sum_pointwise. Qed.

Lemma anchor_part (peakSet valleySet : list Z) (y : list Q) :
  sum (zipWith squaredDifference
         (List.map (fun i => if has peakSet i then 1 else 0) (peakSet ++ valleySet))
         (List.map (at_ y) (peakSet ++ valleySet)))
  = LossSpec.total
      (List.map (fun i => LossSpec.squaredError (LossSpec.targetOf peakSet i)
                                                (LossSpec.predAt y i))
                (peakSet ++ valleySet)).
Proof.
  rewrite zipWith_maps, sum_total. f_equal. apply map_ext. intros i.
  now rewrite target_targetOf.
Qed.

(** Where no valley is also a peak, the targets are those of the
    specification. *)
Lemma anchor_claimed (peakSet valleySet : list Z) (y : list Q) :
  (forall v, In v valleySet -> ~ In v peakSet) ->
  LossSpec.anchor peakSet valleySet y == LossSpec.claimedAnchor peakSet valleySet y.
Proof.
  intros Hdisj. unfold LossSpec.anchor, LossSpec.claimedAnchor, LossSpec.average.
  rewrite !length_map, !length_app, !length_map.
  apply Qdiv_comp; [|reflexivity].
  rewrite List.map_app, !total_app.
  apply Qplus_comp; apply total_pointwise; intros i Hi; unfold LossSpec.targetOf;
    destruct (in_dec Z.eq_dec i peakSet) as [Hp | Hp]; try reflexivity.
  - contradiction.
  - now apply Hdisj in Hi.
Qed.

Lemma ordering_part (orderingSign : list Z) (y0 : Q) (yNext : list Q) :
  length orderingSign = length yNext ->
  sum (List.map relu (List.map Qopp
         (zipWith Qmult (List.map inject_Z orderingSign)
            (zipWith Qminus yNext (firstn (length yNext) (y0 :: yNext))))))
  == LossSpec.total
       (List.map (LossSpec.penalty orderingSign (y0 :: yNext)) (seq 0 (length yNext))).
Proof.
  intros Hlen.
  rewrite <- (sum_total (List.map (LossSpec.penalty orderingSign (y0 :: yNext))
                                  (seq 0 (length yNext)))).
  set (y := y0 :: yNext).
  set (diff := zipWith Qminus yNext (firstn (length yNext) y)).
  assert (Hy : length (firstn (length yNext) y) = length yNext).
  { rewrite length_firstn. unfold y. cbn. lia. }
  assert (Hdiff : length diff = length yNext).
  { unfold diff. rewrite zipWith_length, Hy. lia. }
  set (signed := zipWith Qmult (List.map inject_Z orderingSign) diff).
  assert (Hsigned : length signed = length yNext).
  { unfold signed. rewrite zipWith_length, length_map, Hdiff. lia. }
  rewrite (as_map_of_nth (List.map relu (List.map Qopp signed))).
  rewrite !length_map, Hsigned.
  apply sum_pointwise. intros i Hi. apply in_seq in Hi.
  rewrite (nth_indep _ 0 (relu (Qopp 0))) by (rewrite !length_map; lia).
  rewrite (map_nth relu), (map_nth Qopp).
  unfold signed. rewrite zipWith_nth by (rewrite ?length_map; lia).
  rewrite (nth_indep _ 0 (inject_Z 0)) by (rewrite length_map; lia).
  rewrite (map_nth inject_Z).
  unfold diff. rewrite zipWith_nth by lia.
  rewrite nth_firstn. destruct (Nat.ltb_spec i (length yNext)); [|lia].
  unfold LossSpec.penalty. change (nth (S i) y 0) with (nth i yNext 0).
  destruct (Z.eqb_spec (nth i orderingSign 0%Z) 0) as [Hz | Hz];
    [|apply relu_positivePart].
  rewrite Hz. apply relu_of_zero. ring.
Qed.

End LossFacts.

(** C4, as the specification has it, fails where an index is listed both
    as a peak and as a valley: the program's target for such a valley is 1,
    not 0.  For peaks [1], valleys [1; 2], no ordering sign and the
    predictions [0; 3/4; 1/2] the program's loss is 1/8, and the loss with
    the target 0 at each valley index is 7/24. *)
Lemma composite_loss_not_by_claimed_targets :
  exists loss,
    SmoothBlink.makeCompositeLoss [0; 0] [1] [1; 2] [0; 3 # 4; 1 # 2]%Q = Some loss /\
    (loss == 1 # 8)%Q /\
    (LossSpec.claimedLoss [0%Z; 0%Z] [1%Z] [1%Z; 2%Z] [0; 3 # 4; 1 # 2] == 7 # 24)%Q /\
    ~ (loss == LossSpec.claimedLoss [0%Z; 0%Z] [1%Z] [1%Z; 2%Z] [0; 3 # 4; 1 # 2])%Q.
Proof.
  eexists. split; [vm_compute; reflexivity|]. split; [reflexivity|].
  split; [reflexivity|]. intros H. vm_compute in H. discriminate H.
Qed.

(** C4. For a prediction vector of at least two values, ordering signs for
    its adjacent pairs, and peak and valley indices that are not all
    missing and lie inside the vector, the loss of the smooth trainer is
    the anchor term plus one half of the ordering term: the mean squared
    distance of the predictions at the extrema from their targets, 1 at
    every index that is a peak and 0 at every other valley index, and the
    mean over all adjacent pairs of [relu (- sign * (pred[i+1] - pred[i]))],
    nothing for a zero sign.  Where no valley index is also a peak, the
    targets are 1 at each peak and 0 at each valley. *)
Theorem composite_loss_is_anchor_plus_half_ordering
  (orderingSign peakSet valleySet : list Z) (y : list Q)
  (Hlong : (2 <= length y)%nat)
  (Hsigns : length orderingSign = (length y - 1)%nat)
  (Hsome : peakSet ++ valleySet <> [])
  (Hin : Forall (fun i => 0 <= i < Z.of_nat (length y)) (peakSet ++ valleySet)) :
  exists loss,
    SmoothBlink.makeCompositeLoss orderingSign peakSet valleySet y = Some loss /\
    (loss == LossSpec.loss orderingSign peakSet valleySet y)%Q /\
    ((forall v, In v valleySet -> ~ In v peakSet) ->
     (loss == LossSpec.claimedLoss orderingSign peakSet valleySet y)%Q).
Proof.
  assert (Hmain : exists loss,
            SmoothBlink.makeCompositeLoss orderingSign peakSet valleySet y = Some loss /\
            (loss == LossSpec.loss orderingSign peakSet valleySet y)%Q).
  { unfold SmoothBlink.makeCompositeLoss.
    rewrite (gather_in_range y _ Hin).
    unfold SmoothBlink.meanSquaredError.
    rewrite elementwise_same_length by now rewrite !length_map.
    destruct y as [|y0 yNext]; [cbn in Hlong; lia|].
    set (y := y0 :: yNext) in *.
    assert (HN : (length y - 1)%nat = length yNext) by (unfold y; cbn; lia).
    rewrite HN in *.
    set (sq := SmoothBlink.zipWith SmoothBlink.squaredDifference _ _).
    assert (Hsq : length sq = length (peakSet ++ valleySet)).
    { unfold sq. now rewrite zipWith_length, !length_map, Nat.min_id. }
    unfold SmoothBlink.mean.
    destruct sq as [|q0 sq'] eqn:Esq.
    { destruct (peakSet ++ valleySet); [congruence | discriminate]. }
    rewrite <- Esq in *. clear Esq q0 sq'.
    rewrite elementwise_same_length
      by (rewrite length_firstn; unfold y; cbn [length]; lia).
    rewrite elementwise_same_length
      by (rewrite length_map, zipWith_length, length_firstn; unfold y; cbn [length]; lia).
    set (pen := List.map SmoothBlink.relu _).
    assert (Hpen : length pen = length yNext).
    { unfold pen. rewrite !length_map, zipWith_length, length_map, zipWith_length,
        length_firstn. unfold y. cbn [length]. lia. }
    destruct pen as [|p0 pen'] eqn:Epen.
    { cbn in Hpen. unfold y in Hlong. cbn in Hlong. lia. }
    rewrite <- Epen in *. clear Epen p0 pen'.
    eexists. split; [reflexivity|].
    unfold LossSpec.loss, LossSpec.anchor, LossSpec.ordering, LossSpec.average.
    rewrite HN, Hpen, Hsq, !length_map, length_seq.
    unfold sq. rewrite anchor_part.
    pose proof (ordering_part orderingSign y0 yNext Hsigns) as Hordering.
    fold y pen in Hordering. rewrite Hordering.
    unfold Qdiv. ring. }
  destruct Hmain as (loss & Hloss & Heq). exists loss.
  split; [exact Hloss|]. split; [exact Heq|].
  intros Hdisjoint. rewrite Heq. unfold LossSpec.loss, LossSpec.claimedLoss.
  now rewrite anchor_claimed.
Qed.

Lemma composite_loss_witness :
  exists loss,
    SmoothBlink.makeCompositeLoss [1; -1] [1] [0; 2] [0.2; 0.9; 0.1]%Q = Some loss /\
    (loss == LossSpec.loss [1%Z; (-1)%Z] [1%Z] [0%Z; 2%Z] [0.2; 0.9; 0.1])%Q /\
    ((forall v, In v [0; 2] -> ~ In v [1]) ->
     (loss == LossSpec.claimedLoss [1%Z; (-1)%Z] [1%Z] [0%Z; 2%Z] [0.2; 0.9; 0.1])%Q).
Proof.
  apply composite_loss_is_anchor_plus_half_ordering.
  - cbn. lia.
  - reflexivity.
  - discriminate.
  - cbn. repeat constructor; lia.
Defined.

(** ** Runtime mapping *)

Section MapperFacts.
Local Open Scope Q_scope.

Lemma clamped_in_unit (x : Q) : 0 <= Qmin (Qmax x 0) 1 <= 1.
Proof.
  split.
  - apply Q.min_glb; [apply Q.le_max_r | discriminate].
  - apply Q.le_min_r.
Qed.

End MapperFacts.

(** The keys are the strings of the source. *)
Example smooth_key_of_left_eye :
  SmoothBlink.getKey Types.EyeLeft SmoothBlink.VERSION = "smooth:left:v1".
Proof. vm_compute. reflexivity. Qed.

Example binary_key_of_combined_eye :
  Binary.getKey Types.EyeCombined Binary.VERSION = "binary:combined:v1".
Proof. vm_compute. reflexivity. Qed.

(** With nothing registered the mapping is the neutral default. *)
Example mapOpenness_on_empty_registry :
  Pipeline.mapOpenness (0.1, 0.2, 0.3)%Q Types.EyeRight Registry.empty = 0.5%Q.
Proof. reflexivity. Qed.

(** C6. For every residual triple and eye, [mapOpenness] returns the
    smooth model's prediction clamped to [0, 1] when a smooth model is
    registered under the eye's smooth key; otherwise the binary model's
    prediction clamped to [0, 1] when a binary model is registered under
    the eye's binary key; and exactly 0.5 when neither is registered. *)
Theorem mapOpenness_prefers_smooth_then_binary
  (v : Types.Vec3) (eye : Types.Eye) (r : Registry.Registry) :
  (forall m,
     Registry.get (SmoothBlink.getKey eye SmoothBlink.VERSION) r = Some m ->
     Pipeline.mapOpenness v eye r = Qmin (Qmax (Types.output m v) 0) 1 /\
     (0 <= Pipeline.mapOpenness v eye r <= 1)%Q) /\
  (Registry.get (SmoothBlink.getKey eye SmoothBlink.VERSION) r = None ->
   forall m,
     Registry.get (Binary.getKey eye Binary.VERSION) r = Some m ->
     Pipeline.mapOpenness v eye r = Qmin (Qmax (Types.output m v) 0) 1 /\
     (0 <= Pipeline.mapOpenness v eye r <= 1)%Q) /\
  (Registry.get (SmoothBlink.getKey eye SmoothBlink.VERSION) r = None ->
   Registry.get (Binary.getKey eye Binary.VERSION) r = None ->
   Pipeline.mapOpenness v eye r = 0.5%Q).
Proof.
  unfold Pipeline.mapOpenness, SmoothBlink.predict, Binary.predict.
  split; [|split].
  - intros m ->. split; [reflexivity | apply clamped_in_unit].
  - intros -> m ->. split; [reflexivity | apply clamped_in_unit].
  - intros -> ->. reflexivity.
Qed.

(** ** Calibration capture *)

Section CaptureFacts.
Import Types Capture.

Lemma isNewTimestamp_iff (ts lastTS : option Z) :
  isNewTimestamp ts lastTS = true <-> ts <> None /\ ts <> lastTS.
Proof.
  unfold isNewTimestamp. destruct ts as [t|], lastTS as [t'|]; cbn.
  - rewrite negb_true_iff, Z.eqb_neq. split.
    + intros H. split; congruence.
    + intros [_ H] E. apply H. now subst.
  - split; [intros _; split; discriminate | reflexivity].
  - split; [discriminate | intros [H _]; congruence].
  - split; [discriminate | intros [H _]; congruence].
Qed.

Lemma isNewTimestamp_same (ts : option Z) : isNewTimestamp ts ts = false.
Proof. destruct ts as [t|]; cbn; [now rewrite Z.eqb_refl | reflexivity]. Qed.

Lemma ensureMatrix_idem (m : option SampleMatrix) :
  ensureMatrix (ensureMatrix m) = ensureMatrix m.
Proof. now destruct m. Qed.

Lemma ensureMatrix_push (m : option SampleMatrix) (l : Latents) :
  ensureMatrix (pushLatents (ensureMatrix m) l) = pushLatents (ensureMatrix m) l.
Proof. now destruct m. Qed.

End CaptureFacts.

Ltac buffer_fields :=
  cbn [Capture.combined Capture.left Capture.right Capture.lastCombinedTS
       Capture.lastLeftTS Capture.lastRightTS Capture.ongoing
       Capture.ensureMatrices Capture.matrixOf Capture.lastTSOf].

Tactic Notation "buffer_fields" "in" hyp(H) :=
  cbn [Capture.combined Capture.left Capture.right Capture.lastCombinedTS
       Capture.lastLeftTS Capture.lastRightTS Capture.ongoing
       Capture.ensureMatrices Capture.matrixOf Capture.lastTSOf] in H.

(** C7. For every buffer and eye, [appendSamples] appends the eye's sample
    to the three rows and records its timestamp exactly when that timestamp
    is non-null and differs from the one last recorded for the eye, and
    otherwise leaves the eye's samples and recorded timestamp as they
    were; a second call with the same arguments changes nothing, so the
    same sample and timestamp given twice are stored once. *)
Theorem appendSamples_dedups_by_timestamp
  (buffer : Capture.CalibrationBuffer) (combinedTS leftTS rightTS : option Z)
  (latents latentsLeft latentsRight : Capture.Latents) (eye : Types.Eye) :
  let ts := match eye with
            | Types.EyeCombined => combinedTS
            | Types.EyeLeft => leftTS
            | Types.EyeRight => rightTS
            end in
  let sample := match eye with
                | Types.EyeCombined => latents
                | Types.EyeLeft => latentsLeft
                | Types.EyeRight => latentsRight
                end in
  let before := default Capture.emptyMatrix (Capture.matrixOf eye buffer) in
  let after := Capture.appendSamples buffer combinedTS leftTS rightTS
                 latents latentsLeft latentsRight in
  (ts <> None /\ ts <> Capture.lastTSOf eye buffer ->
   Capture.matrixOf eye after
   = Some (Types.row0 before ++ [Capture.unsupervised1 sample],
           Types.row1 before ++ [Capture.unsupervised2 sample],
           Types.row2 before ++ [Capture.unsupervised3 sample]) /\
   Capture.lastTSOf eye after = ts) /\
  (~ (ts <> None /\ ts <> Capture.lastTSOf eye buffer) ->
   Capture.matrixOf eye after = Some before /\
   Capture.lastTSOf eye after = Capture.lastTSOf eye buffer) /\
  Capture.appendSamples after combinedTS leftTS rightTS latents latentsLeft latentsRight
  = after.
Proof.
  intros ts sample before after.
  split; [|split].
  - intros Hnew. apply isNewTimestamp_iff in Hnew.
    subst ts sample before after. unfold Capture.appendSamples.
    destruct buffer as [c l r tc tl tr o], eye; buffer_fields; buffer_fields in Hnew;
      destruct (Capture.isNewTimestamp combinedTS tc) eqn:Ec; buffer_fields;
      destruct (Capture.isNewTimestamp leftTS tl) eqn:El; buffer_fields;
      destruct (Capture.isNewTimestamp rightTS tr) eqn:Er; buffer_fields;
      try congruence;
      match goal with
      | |- context [Capture.ensureMatrix ?m] => destruct m as [[[? ?] ?]|]
      end; split; reflexivity.
  - intros Hold.
    assert (Hf : Capture.isNewTimestamp ts (Capture.lastTSOf eye buffer) = false).
    { apply not_true_iff_false. intros H. apply Hold. now apply isNewTimestamp_iff. }
    subst ts sample before after. unfold Capture.appendSamples.
    destruct buffer as [c l r tc tl tr o], eye; buffer_fields; buffer_fields in Hf;
      destruct (Capture.isNewTimestamp combinedTS tc) eqn:Ec; buffer_fields;
      destruct (Capture.isNewTimestamp leftTS tl) eqn:El; buffer_fields;
      destruct (Capture.isNewTimestamp rightTS tr) eqn:Er; buffer_fields;
      try congruence;
      match goal with
      | |- context [Capture.ensureMatrix ?m] => destruct m as [[[? ?] ?]|]
      end; split; reflexivity.
  - subst after. unfold Capture.appendSamples.
    destruct buffer as [c l r tc tl tr o]. buffer_fields.
    destruct (Capture.isNewTimestamp combinedTS tc) eqn:Ec; buffer_fields;
      destruct (Capture.isNewTimestamp leftTS tl) eqn:El; buffer_fields;
      destruct (Capture.isNewTimestamp rightTS tr) eqn:Er; buffer_fields;
      repeat (rewrite ?isNewTimestamp_same, ?Ec, ?El, ?Er; buffer_fields);
      unfold Capture.ensureMatrices; buffer_fields;
      rewrite ?ensureMatrix_idem, ?ensureMatrix_push; reflexivity.
Qed.

(** ** Training orchestration *)

Section OrchestratorFacts.
Import Types.

Lemma nth_map_inside {A B : Type} (f : A -> B) (l : list A) (i : nat) (da : A) (db : B) :
  (i < length l)%nat -> nth i (List.map f l) db = f (nth i l da).
Proof.
  intros Hi. rewrite (nth_indep _ db (f da)) by now rewrite length_map.
  apply map_nth.
Qed.

Lemma matToFrames_down (k : nat) (shuffled : list nat) (m : SampleMatrix) :
  matToFrames (Binary.down k shuffled m) = List.map (frameAt m) (firstn k shuffled).
Proof.
  unfold matToFrames, Binary.down. cbn [row0 fst snd].
  set (idx := firstn k shuffled).
  apply (nth_ext _ _ (0%Q, 0%Q, 0%Q) (0%Q, 0%Q, 0%Q)).
  - now rewrite mapi_length, !length_map.
  - intros i Hi. rewrite mapi_length, length_map in Hi.
    rewrite (mapi_nth _ _ i 0%Q) by (rewrite length_map; lia).
    rewrite (nth_map_inside (frameAt m) idx i O) by lia.
    unfold frameAt. cbn [row0 row1 row2 fst snd].
    now rewrite !(nth_map_inside _ idx i O) by lia.
Qed.

Lemma firstn_of_permutation (k n : nat) (shuffled : list nat) :
  Permutation shuffled (seq 0 n) -> (k <= n)%nat ->
  length (firstn k shuffled) = k /\
  NoDup (firstn k shuffled) /\
  Forall (fun i => (i < n)%nat) (firstn k shuffled).
Proof.
  intros Hperm Hk.
  assert (Hlen : length shuffled = n).
  { rewrite (Permutation_length Hperm). apply length_seq. }
  assert (Hnd : List.NoDup shuffled).
  { apply (Permutation_NoDup (Permutation_sym Hperm)). apply seq_NoDup. }
  split; [rewrite length_firstn; lia|]. split.
  - apply NoDup_ListNoDup.
    rewrite <- (firstn_skipn k shuffled) in Hnd.
    now apply List.NoDup_app_remove_r in Hnd.
  - apply List.Forall_forall. intros i Hi.
    assert (Hin : In i shuffled).
    { rewrite <- (firstn_skipn k shuffled). apply in_or_app. now left. }
    apply (Permutation_in _ Hperm) in Hin. apply in_seq in Hin. lia.
Qed.

End OrchestratorFacts.

(** C8. For every eye, [calibrateBinary] trains the binary model only when
    the eye's closed and open buffers are both present and hold a sample.
    The samples it then submits are [k = min(|closed|, |open|)] distinct
    samples of each buffer, drawn through the shuffled indices, the closed
    ones labelled 0 and the open ones 1: [2k] samples in all. *)
Theorem binary_training_is_balanced
  (fitBinary : list Types.Vec3 -> list Q -> nat -> Q -> Types.Model)
  (shuffles : Types.Eye -> list nat * list nat)
  (eye : Types.Eye) (w : Pipeline.World)
  (Hshuffled : forall closed open,
     Capture.matrixOf eye (Pipeline.closedBuffer w) = Some closed ->
     Capture.matrixOf eye (Pipeline.openBuffer w) = Some open ->
     Permutation (fst (shuffles eye)) (seq 0 (length (Types.row0 closed))) /\
     Permutation (snd (shuffles eye)) (seq 0 (length (Types.row0 open)))) :
  let w' := Pipeline.calibrateBinaryFor fitBinary shuffles eye w in
  (Pipeline.hasSamples (Capture.matrixOf eye (Pipeline.closedBuffer w))
   && Pipeline.hasSamples (Capture.matrixOf eye (Pipeline.openBuffer w)) = false ->
   w' = w) /\
  (forall closed open,
     Capture.matrixOf eye (Pipeline.closedBuffer w) = Some closed ->
     Capture.matrixOf eye (Pipeline.openBuffer w) = Some open ->
     Pipeline.hasSamples (Some closed) && Pipeline.hasSamples (Some open) = true ->
     let k := Nat.min (length (Types.row0 closed)) (length (Types.row0 open)) in
     let idxClosed := firstn k (fst (shuffles eye)) in
     let idxOpen := firstn k (snd (shuffles eye)) in
     let xs := List.map (Types.frameAt closed) idxClosed
               ++ List.map (Types.frameAt open) idxOpen in
     let ys := repeat 0%Q k ++ repeat 1%Q k in
     Binary.trainingSet (fst (shuffles eye)) (snd (shuffles eye)) closed open = (xs, ys) /\
     Pipeline.trainCalls w' = Pipeline.trainCalls w ++ [Pipeline.TrainBinary eye closed open] /\
     Pipeline.registry w'
     = Registry.set (Binary.getKey eye Binary.VERSION)
                    (fitBinary xs ys 100%nat 0.01%Q) true (Pipeline.registry w) /\
     length idxClosed = k /\ length idxOpen = k /\
     NoDup idxClosed /\ NoDup idxOpen /\
     Forall (fun i => (i < length (Types.row0 closed))%nat) idxClosed /\
     Forall (fun i => (i < length (Types.row0 open))%nat) idxOpen /\
     length xs = (2 * k)%nat /\ length ys = (2 * k)%nat).
Proof.
  intros w'. split.
  - intros Hnone. subst w'. unfold Pipeline.calibrateBinaryFor.
    destruct (Capture.matrixOf eye (Pipeline.closedBuffer w)) as [closed|]; [|reflexivity].
    destruct (Capture.matrixOf eye (Pipeline.openBuffer w)) as [open|]; [|reflexivity].
    now rewrite Hnone.
  - intros closed open Hc Ho Hboth k idxClosed idxOpen xs ys.
    destruct (Hshuffled closed open Hc Ho) as [Hpc Hpo].
    unfold w', Pipeline.calibrateBinaryFor. rewrite Hc, Ho, Hboth.
    destruct (firstn_of_permutation k _ _ Hpc ltac:(subst k; lia)) as (Lc & Nc & Fc).
    destruct (firstn_of_permutation k _ _ Hpo ltac:(subst k; lia)) as (Lo & No & Fo).
    assert (Hset : Binary.trainingSet (fst (shuffles eye)) (snd (shuffles eye)) closed open
                   = (xs, ys)).
    { unfold Binary.trainingSet. fold k. now rewrite !matToFrames_down. }
    split; [exact Hset|]. split; [reflexivity|]. split.
    { cbn [Pipeline.registry Pipeline.withRegistry]. unfold Binary.train. now rewrite Hset. }
    repeat split; try assumption.
    + subst xs. rewrite length_app, !length_map. unfold idxClosed, idxOpen.
      rewrite Lc, Lo. lia.
    + subst ys. rewrite length_app, !repeat_length. lia.
Qed.

Lemma binary_training_is_balanced_witness :
  let fitBinary := fun (_ : list Types.Vec3) (_ : list Q) (_ : nat) (_ : Q) =>
                     Types.mkModel (fun _ => 1%Q) in
  let shuffles := fun (_ : Types.Eye) => ([1; 0]%nat, [0]%nat) in
  let closed : Types.SampleMatrix := ([0.1; 0.2]%Q, [0.3; 0.4]%Q, [0.5; 0.6]%Q) in
  let open : Types.SampleMatrix := ([0.7]%Q, [0.8]%Q, [0.9]%Q) in
  let buffer := fun m => Capture.mkCalibrationBuffer (Some m) None None None None None false in
  let w := Pipeline.mkWorld (buffer closed) (buffer open) Capture.makeBuffer
             Registry.empty [] [] in
  Pipeline.trainCalls (Pipeline.calibrateBinaryFor fitBinary shuffles Types.EyeCombined w)
  = [Pipeline.TrainBinary Types.EyeCombined closed open] /\
  Binary.trainingSet [1; 0]%nat [0]%nat closed open
  = ([(0.2, 0.4, 0.6); (0.7, 0.8, 0.9)]%Q, [0; 1]%Q).
Proof.
  intros fitBinary shuffles closed open buffer w.
  assert (Hshuffled : forall c o,
     Capture.matrixOf Types.EyeCombined (Pipeline.closedBuffer w) = Some c ->
     Capture.matrixOf Types.EyeCombined (Pipeline.openBuffer w) = Some o ->
     Permutation (fst (shuffles Types.EyeCombined)) (seq 0 (length (Types.row0 c))) /\
     Permutation (snd (shuffles Types.EyeCombined)) (seq 0 (length (Types.row0 o)))).
  { intros c o Hc Ho. cbn in Hc, Ho. inversion Hc; inversion Ho; subst c o. cbn.
    split; [apply perm_swap | apply Permutation_refl]. }
  destruct (binary_training_is_balanced fitBinary shuffles Types.EyeCombined w Hshuffled)
    as [_ Htrain].
  destruct (Htrain closed open eq_refl eq_refl eq_refl) as (Hset & Hcalls & _).
  split; [exact Hcalls | exact Hset].
Defined.

(** C9. On blink-phase deactivation, for every eye: when the eye's blink
    buffer is missing or empty the training step returns with nothing
    changed; when the labelling of the predicted sequence has no peak or
    no valley it returns with the registry and its stored artifacts
    unchanged and no training call made.  In neither case is an error
    raised, and the labelling itself always returns. *)
Theorem no_extrema_no_smooth_training
  (fitSmooth : list Types.Vec3 -> (list Q -> option Q) -> nat -> Q -> Types.Model)
  (eye : Types.Eye) (w : Pipeline.World) :
  (Pipeline.hasSamples (Capture.matrixOf eye (Pipeline.blinkBuffer w)) = false ->
   Pipeline.runBlinkInferenceAndTrainForEye fitSmooth eye w = Some w) /\
  (forall mat,
     Capture.matrixOf eye (Pipeline.blinkBuffer w) = Some mat ->
     Pipeline.hasSamples (Some mat) = true ->
     let pred := List.map (fun v => Binary.predict eye v (Pipeline.registry w))
                          (Types.matToFrames mat) in
     exists ex,
       Labeler.labelBlinkExtrema pred = Some ex /\
       (Labeler.peaks ex = [] \/ Labeler.valleys ex = [] ->
        exists w',
          Pipeline.runBlinkInferenceAndTrainForEye fitSmooth eye w = Some w' /\
          Pipeline.registry w' = Pipeline.registry w /\
          Pipeline.trainCalls w' = Pipeline.trainCalls w /\
          Pipeline.blinkBuffer w' = Pipeline.blinkBuffer w)).
Proof.
  split.
  - intros Hnone. unfold Pipeline.runBlinkInferenceAndTrainForEye, Pipeline.hasSamples in *.
    destruct (Capture.matrixOf eye (Pipeline.blinkBuffer w)) as [mat|]; [|reflexivity].
    apply negb_false_iff in Hnone. now rewrite Hnone.
  - intros mat Hmat Hsome pred.
    unfold Pipeline.runBlinkInferenceAndTrainForEye, Pipeline.hasSamples in *.
    rewrite Hmat. apply negb_true_iff in Hsome. rewrite Hsome.
    destruct (labelBlinkExtrema_total pred) as (ex & Hex).
    exists ex. split; [exact Hex|]. intros Hempty.
    fold pred. rewrite Hex.
    destruct (Labeler.peaks ex) as [|p ps], (Labeler.valleys ex) as [|v vs];
      try (eexists; split; [reflexivity|]; repeat split).
    destruct Hempty; discriminate.
Qed.

(** * Further properties of the code *)

(** ** Model keys and the registry *)

Section KeyFacts.
Import Types.

Lemma withVersion_inj (kind kind' : ModelKind) (eye eye' : Eye) (v v' : nat) :
  Registry.withVersion kind eye v = Registry.withVersion kind' eye' v' ->
  kind = kind' /\ eye = eye' /\ v = v'.
Proof.
  unfold Registry.withVersion. intros H.
  destruct kind, kind', eye, eye'; cbn [kindName eyeName] in H;
    try discriminate H;
    do 4 (apply (inj (String.app _)) in H);
    apply (inj pretty) in H; now subst.
Qed.

Lemma uriFor_inj (key key' : string) :
  Registry.uriFor key = Registry.uriFor key' -> key = key'.
Proof. unfold Registry.uriFor. intros H. now apply (inj (String.app _)) in H. Qed.

Lemma get_set (key key' : string) (m : Model) (persist : bool) (r : Registry.Registry) :
  Registry.get key' (Registry.set key m persist r)
  = if decide (key = key') then Some m else Registry.get key' r.
Proof. unfold Registry.get, Registry.set. cbn. apply lookup_insert. Qed.

Lemma loadIfExists_get (key key' : string) (r : Registry.Registry) :
  Registry.get key' (Registry.loadIfExists key r)
  = match Registry.get key' r with
    | Some m => Some m
    | None => if decide (key = key') then Registry.saved r !! Registry.uriFor key else None
    end.
Proof.
  unfold Registry.get, Registry.loadIfExists.
  destruct (Registry.map r !! key) as [m|] eqn:E.
  - destruct (Registry.map r !! key') as [m'|] eqn:E'; [reflexivity|].
    destruct (decide (key = key')) as [->|]; [congruence | reflexivity].
  - destruct (Registry.saved r !! Registry.uriFor key) as [m|] eqn:Es; cbn.
    + rewrite lookup_insert.
      destruct (decide (key = key')) as [->|].
      * now rewrite E.
      * now destruct (Registry.map r !! key').
    + destruct (decide (key = key')) as [->|].
      * now rewrite E.
      * now destruct (Registry.map r !! key').
Qed.

Lemma loadIfExists_saved (key : string) (r : Registry.Registry) :
  Registry.saved (Registry.loadIfExists key r) = Registry.saved r.
Proof.
  unfold Registry.loadIfExists.
  destruct (Registry.map r !! key); [reflexivity|].
  now destruct (Registry.saved r !! Registry.uriFor key).
Qed.

Lemma loadAll_get (keys : list string) (key' : string) (r : Registry.Registry) :
  Registry.get key' (fold_left (fun acc key => Registry.loadIfExists key acc) keys r)
  = match Registry.get key' r with
    | Some m => Some m
    | None => if decide (key' ∈ keys) then Registry.saved r !! Registry.uriFor key' else None
    end /\
  Registry.saved (fold_left (fun acc key => Registry.loadIfExists key acc) keys r)
  = Registry.saved r.
Proof.
  revert r. induction keys as [|key t IH]; intros r; cbn [fold_left].
  - split; [|reflexivity]. destruct (Registry.get key' r); [reflexivity|].
    destruct (decide (key' ∈ [])) as [Hin|]; [|reflexivity].
    now apply elem_of_nil in Hin.
  - destruct (IH (Registry.loadIfExists key r)) as [Hget Hsaved].
    rewrite Hget, Hsaved, loadIfExists_saved, loadIfExists_get. split; [|reflexivity].
    destruct (Registry.get key' r) as [m|]; [reflexivity|].
    destruct (decide (key = key')) as [->|Hne].
    + destruct (decide (key' ∈ key' :: t)) as [_|Hn];
        [|exfalso; apply Hn; apply elem_of_cons; now left].
      destruct (Registry.saved r !! Registry.uriFor key'); [reflexivity|].
      now destruct (decide (key' ∈ t)).
    + destruct (decide (key' ∈ t)) as [Hin|Hnin];
        destruct (decide (key' ∈ key :: t)) as [Hin'|Hnin']; try reflexivity.
      * exfalso. apply Hnin'. apply elem_of_cons. now right.
      * exfalso. apply elem_of_cons in Hin'. destruct Hin' as [E|Hin']; [now apply Hne | now apply Hnin].
Qed.

End KeyFacts.

(** X1. Two model keys are the same string only for the same kind, eye and
    version. *)
Theorem model_keys_are_distinct
  (kind kind' : Types.ModelKind) (eye eye' : Types.Eye) (v v' : nat) :
  Registry.withVersion kind eye v = Registry.withVersion kind' eye' v'
  <-> kind = kind' /\ eye = eye' /\ v = v'.
Proof.
  split; [apply withVersion_inj|]. now intros (-> & -> & ->).
Qed.

(** X2. A model set with [persist] is found again by [loadIfExists] in a
    registry that starts with nothing in memory and the same store, and
    also after [dispose]; set without [persist], the store and hence a
    later start are as before. *)
Theorem persisted_model_is_loaded_again
  (key : string) (m : Types.Model) (r : Registry.Registry) :
  let kept := Registry.set key m true r in
  let restarted := Registry.mkRegistry ∅ (Registry.saved kept) in
  Registry.get key (Registry.loadIfExists key restarted) = Some m /\
  Registry.get key (Registry.dispose key kept) = None /\
  Registry.get key (Registry.loadIfExists key (Registry.dispose key kept)) = Some m /\
  Registry.saved (Registry.set key m false r) = Registry.saved r.
Proof.
  cbv zeta. repeat split.
  - rewrite loadIfExists_get. unfold Registry.get, Registry.set. cbn.
    rewrite lookup_empty. destruct (decide (key = key)); [|congruence].
    apply lookup_insert_eq.
  - unfold Registry.get, Registry.dispose, Registry.set. cbn.
    rewrite lookup_insert_eq. cbn. apply lookup_delete_eq.
  - rewrite loadIfExists_get.
    unfold Registry.get, Registry.dispose, Registry.set. cbn.
    rewrite lookup_insert_eq. cbn. rewrite lookup_delete_eq.
    destruct (decide (key = key)); [|congruence].
    apply lookup_insert_eq.
Qed.

(** X3. After [warmLoadPersistedModels], for every kind and eye the
    registry holds, under the current-version key, the model it already
    had in memory, or else the one the store has for that key; the store
    itself is unchanged. *)
Theorem warm_load_restores_every_model
  (kind : Types.ModelKind) (eye : Types.Eye) (r : Registry.Registry) :
  let key := Registry.withVersion kind eye 1 in
  Registry.get key (Pipeline.warmLoadPersistedModels r)
  = match Registry.get key r with
    | Some m => Some m
    | None => Registry.saved r !! Registry.uriFor key
    end /\
  Registry.saved (Pipeline.warmLoadPersistedModels r) = Registry.saved r.
Proof.
  intros key. unfold Pipeline.warmLoadPersistedModels.
  destruct (loadAll_get Pipeline.persistedKeys key r) as [Hget Hsaved].
  split; [|exact Hsaved]. rewrite Hget.
  destruct (Registry.get key r); [reflexivity|].
  destruct (decide (key ∈ Pipeline.persistedKeys)) as [_|Hn]; [reflexivity|].
  exfalso. apply Hn. subst key. unfold Pipeline.persistedKeys.
  apply list_elem_of_In. destruct kind, eye; cbn; tauto.
Qed.

(** ** What a training run changes at run time *)

Section TrainingEffect.
Import Types.

Lemma smooth_key_is_not_binary (eye eye' : Eye) (v v' : nat) :
  SmoothBlink.getKey eye v <> Binary.getKey eye' v'.
Proof.
  unfold SmoothBlink.getKey, Binary.getKey. intros H.
  apply withVersion_inj in H. destruct H as [H _]. discriminate H.
Qed.

Lemma binary_key_inj (eye eye' : Eye) (v v' : nat) :
  Binary.getKey eye v = Binary.getKey eye' v' <-> eye = eye' /\ v = v'.
Proof.
  unfold Binary.getKey. split.
  - intros H. apply withVersion_inj in H. tauto.
  - now intros [-> ->].
Qed.


(** [new Set(xs)] holds the elements of [xs]. *)
Lemma setOf_In (xs : list Z) (x : Z) : In x (SmoothBlink.setOf xs) <-> In x xs.
Proof.
  induction xs as [|a t IH]; [reflexivity|]. cbn [SmoothBlink.setOf]. split.
  - intros [-> | Hx]; [now left|]. right. apply IH. apply filter_In in Hx. tauto.
  - intros [-> | Hx]; [now left|].
    destruct (Z.eq_dec x a) as [-> | Hne]; [now left|]. right.
    apply filter_In. split; [now apply IH|].
    apply negb_true_iff, Z.eqb_neq. exact Hne.
Qed.

Lemma anchors_inside (n : nat) (data : SmoothBlink.BlinkTrainingData) :
  Forall (fun i => 0 <= i < Z.of_nat n)
         (SmoothBlink.setOf (SmoothBlink.peaks data)
          ++ SmoothBlink.setOf (SmoothBlink.valleys data))
  <-> Forall (fun i => 0 <= i < Z.of_nat n)
             (SmoothBlink.peaks data ++ SmoothBlink.valleys data).
Proof.
  rewrite !List.Forall_forall. split; intros H x Hx; apply H;
    apply in_app_iff; apply in_app_iff in Hx;
    destruct Hx as [Hx | Hx]; [left | right | left | right]; now apply setOf_In.
Qed.


(** On two predictions or more the loss throws exactly when an anchor
    lies outside them, given one sign for each adjacent pair. *)
Lemma lossThrowsFor_inside (orderingSign peakSet valleySet : list Z) (N : nat) :
  (2 <= N)%nat -> length orderingSign = (N - 1)%nat ->
  Forall (fun i => 0 <= i < Z.of_nat N) (peakSet ++ valleySet) ->
  SmoothBlink.lossThrowsFor orderingSign peakSet valleySet N = false.
Proof.
  intros HN Hlen Hin. unfold SmoothBlink.lossThrowsFor, SmoothBlink.lossResult.
  destruct N as [|[|n]]; [lia | lia |]. cbn [repeat].
  change (0%Q :: 0%Q :: repeat 0%Q n) with (repeat 0%Q (S (S n))).
  rewrite (gather_in_range (repeat 0%Q (S (S n))))
    by (rewrite repeat_length; exact Hin).
  rewrite elementwise_same_length
    by (rewrite length_firstn, !repeat_length; cbn [length]; rewrite repeat_length; lia).
  rewrite elementwise_same_length
    by (rewrite length_map, zipWith_length, length_firstn, !repeat_length;
        cbn [length]; rewrite repeat_length; lia).
  now destruct (SmoothBlink.makeCompositeLoss _ _ _ _).
Qed.


Lemma lossThrowsFor_one (orderingSign peakSet valleySet : list Z) :
  SmoothBlink.lossThrowsFor orderingSign peakSet valleySet 1 = true.
Proof. reflexivity. Qed.


(** With all extrema inside the [N >= 2] samples, [train] returns with the
    model fitted with the composite loss registered. *)
Lemma train_inside
  (fit : list Vec3 -> (list Q -> option Q) -> nat -> Q -> Model)
  (eye : Eye) (data : SmoothBlink.BlinkTrainingData) (opts : TrainOpts)
  (r : Registry.Registry) :
  let N := length (row0 (SmoothBlink.latents data)) in
  (2 <= N)%nat ->
  Forall (fun i => 0 <= i < Z.of_nat N) (SmoothBlink.peaks data ++ SmoothBlink.valleys data) ->
  exists sign,
    SmoothBlink.orderingSigns N data = Some sign /\
    length sign = (N - 1)%nat /\
    SmoothBlink.train fit eye data opts r
    = Some (Registry.set (SmoothBlink.getKey eye (default SmoothBlink.VERSION (version opts)))
              (fit (matToFrames (SmoothBlink.latents data))
                   (SmoothBlink.makeCompositeLoss sign
                      (SmoothBlink.setOf (SmoothBlink.peaks data))
                      (SmoothBlink.setOf (SmoothBlink.valleys data)))
                   (default 100%nat (epochs opts))
                   (default 0.001%Q (learningRate opts)))
              true r).
Proof.
  intros N HN Hin.
  destruct (orderingSigns_spec N data ltac:(lia)) as (sign & Hsign & Hlen & _).
  { apply Forall_app. apply Forall_app in Hin. tauto. }
  exists sign. split; [exact Hsign|]. split; [exact Hlen|].
  unfold SmoothBlink.train. fold N. destruct N as [|n] eqn:EN; [lia|].
  rewrite Hsign.
  rewrite lossThrowsFor_inside; [| lia | exact Hlen | now apply anchors_inside].
  now rewrite andb_false_r.
Qed.

End TrainingEffect.

(** X4. A binary training run for one eye shows at run time only for that
    eye, only when it stored under the current version, and only while no
    smooth model is registered for the eye: then [mapOpenness] is the new
    model's clamped output; in every other case [mapOpenness] is what it
    was. *)
Theorem binary_training_effect_on_mapOpenness
  (fit : list Types.Vec3 -> list Q -> nat -> Q -> Types.Model)
  (eye eye' : Types.Eye) (closed open : Types.SampleMatrix) (opts : Types.TrainOpts)
  (shuffledClosed shuffledOpen : list nat) (r : Registry.Registry) (v : Types.Vec3) :
  let ver := default Binary.VERSION (Types.version opts) in
  let r' := Binary.train fit eye closed open opts shuffledClosed shuffledOpen r in
  let set := Binary.trainingSet shuffledClosed shuffledOpen closed open in
  let model := fit (fst set) (snd set) (default 100%nat (Types.epochs opts))
                   (default 0.01%Q (Types.learningRate opts)) in
  (ver = Binary.VERSION ->
   Registry.get (SmoothBlink.getKey eye SmoothBlink.VERSION) r = None ->
   Pipeline.mapOpenness v eye r' = Qmin (Qmax (Types.output model v) 0) 1) /\
  (eye' <> eye \/ ver <> Binary.VERSION \/
   Registry.get (SmoothBlink.getKey eye' SmoothBlink.VERSION) r <> None ->
   Pipeline.mapOpenness v eye' r' = Pipeline.mapOpenness v eye' r).
Proof.
  intros ver r' set model.
  assert (Hr' : r' = Registry.set (Binary.getKey eye ver) model true r).
  { subst r' model set ver. unfold Binary.train.
    now destruct (Binary.trainingSet shuffledClosed shuffledOpen closed open). }
  rewrite Hr'. unfold Pipeline.mapOpenness, SmoothBlink.predict, Binary.predict.
  split.
  - intros Hver Hnone. rewrite !get_set, Hnone.
    destruct (decide (Binary.getKey eye ver = SmoothBlink.getKey eye SmoothBlink.VERSION))
      as [E|_]; [now apply eq_sym, smooth_key_is_not_binary in E|].
    rewrite Hver. destruct (decide (Binary.getKey eye Binary.VERSION = Binary.getKey eye Binary.VERSION));
      [reflexivity | congruence].
  - intros Hother. rewrite !get_set.
    destruct (decide (Binary.getKey eye ver = SmoothBlink.getKey eye' SmoothBlink.VERSION))
      as [E|_]; [now apply eq_sym, smooth_key_is_not_binary in E|].
    destruct (Registry.get (SmoothBlink.getKey eye' SmoothBlink.VERSION) r) as [s|] eqn:Es;
      [reflexivity|].
    destruct (decide (Binary.getKey eye ver = Binary.getKey eye' Binary.VERSION)) as [E|_];
      [|reflexivity].
    apply binary_key_inj in E. destruct E as [-> ->].
    destruct Hother as [H | [H | H]]; congruence.
Qed.


(** ** The smoother: range and constant series *)

Section SmootherRange.
Import JsArray Smoother.
Local Open Scope Q_scope.


Lemma clamp01_compat (x y : Q) : x == y -> clamp01 x == clamp01 y.
Proof. intros H. unfold clamp01. now rewrite H. Qed.

Lemma median_of_constant (c : Q) (w : list Q) :
  w <> [] -> Forall (eq c) w -> medianOfSorted w == c.
Proof.
  intros Hne Hall. unfold medianOfSorted.
  assert (Hlen : (0 < length w)%nat) by (destruct w; [congruence | cbn; lia]).
  assert (Hnth : forall i, (i < length w)%nat -> nth i w 0 = c).
  { intros i Hi. symmetry. apply (proj1 (List.Forall_forall (eq c) w) Hall). now apply nth_In. }
  rewrite Nat.shiftr_div_pow2. change (2 ^ 1)%nat with 2%nat.
  assert (Hm : (length w / 2 < length w)%nat) by (apply Nat.div_lt; lia).
  destruct (Nat.odd (length w)).
  - now rewrite Hnth.
  - rewrite !Hnth by lia. field.
Qed.

Lemma window_of_constant (c : Q) (n medWin i : nat) :
  (i < n)%nat -> medianAt (repeat c n) medWin i == c.
Proof.
  intros Hi. unfold medianAt. rewrite repeat_length.
  set (half := Z.of_nat (Nat.shiftr medWin 1)).
  set (s := Z.max 0 (Z.of_nat i - half)).
  set (e := Z.min (Z.of_nat n) (Z.of_nat i + half + 1)).
  assert (Hs : (0 <= s <= Z.of_nat i)%Z) by (subst s half; lia).
  assert (He : (Z.of_nat i < e <= Z.of_nat n)%Z) by (subst e half; lia).
  apply median_of_constant.
  - intros Hnil. apply (f_equal (@length Q)) in Hnil.
    rewrite sortBy_length, slice_inside in Hnil by (rewrite ?repeat_length; lia).
    rewrite length_firstn, length_skipn, repeat_length in Hnil. cbn in Hnil. lia.
  - apply sortBy_Forall. rewrite slice_inside by (rewrite ?repeat_length; lia).
    apply Forall_take, Forall_drop. apply List.Forall_forall. intros x Hx.
    symmetry. now apply repeat_spec in Hx.
Qed.

Lemma emaLoop_of_constant (alpha c acc : Q) (rest : list Q) :
  acc == c -> Forall (fun x => x == c) rest ->
  Forall (fun x => x == c) (emaLoop alpha acc rest).
Proof.
  intros Hacc Hrest. revert acc Hacc.
  induction Hrest as [|m t Hm Ht IH]; intros acc Hacc; cbn [emaLoop]; [constructor|].
  assert (Hnext : alpha * m + (1 - alpha) * acc == c) by (rewrite Hm, Hacc; ring).
  constructor; [exact Hnext | now apply IH].
Qed.

Lemma ema_of_constant (alpha c : Q) (l : list Q) :
  Forall (fun x => x == c) l -> Forall (fun x => x == c) (ema alpha l).
Proof.
  intros Hl. destruct Hl as [|m t Hm Ht]; cbn [ema]; [constructor|].
  constructor; [exact Hm | now apply emaLoop_of_constant].
Qed.

Lemma smoothSeriesWith_of_constant (medWin : nat) (alpha c : Q) (n : nat) :
  Forall (fun x => x == clamp01 c) (smoothSeriesWith medWin alpha (repeat c n)).
Proof.
  unfold smoothSeriesWith. destruct (repeat c n) as [|p t] eqn:E; [constructor|].
  rewrite <- E. clear E p t.
  set (med := mapi (fun i _ => medianAt (repeat c n) medWin i) (repeat c n)).
  assert (Hmed : Forall (fun x => x == c) med).
  { apply (Forall_nth _ 0). intros i Hi. unfold med in *. rewrite mapi_length, repeat_length in Hi.
    rewrite (mapi_nth _ _ i 0 0) by (rewrite repeat_length; lia).
    now apply window_of_constant. }
  pose proof (ema_of_constant alpha c med Hmed) as Hfwd.
  assert (Hbwd : Forall (fun x => x == c) (rev (ema alpha (rev med)))).
  { apply Forall_rev, ema_of_constant, Forall_rev, Hmed. }
  assert (Hlen : length (rev (ema alpha (rev med))) = length (ema alpha med)).
  { now rewrite length_rev, !ema_length, length_rev. }
  apply Forall_map. apply (Forall_nth _ 0). intros i Hi. rewrite mapi_length in Hi.
  rewrite (mapi_nth _ _ i 0 0) by lia.
  apply clamp01_compat.
  rewrite (proj1 (Forall_nth _ 0 _) Hfwd i Hi).
  rewrite (proj1 (Forall_nth _ 0 _) Hbwd i) by lia.
  field.
Qed.

End SmootherRange.


(** ** The scan: extrema in turn, and scans without a transition *)

Section ScanEvents.
Import JsArray Labeler LabelerSpec.
Local Open Scope Q_scope.

Variable openTh closeTh : Q.
Variable smooth : list Q.
Hypothesis thresholds_apart : closeTh < openTh.
Hypothesis smooth_nonempty : smooth <> [].

Local Abbreviation point := (specPoint openTh closeTh smooth).
Local Abbreviation events := (specEvents openTh closeTh smooth).

Lemma flip_flip (st : State) : LabelerSpec.flip (LabelerSpec.flip st) = st.
Proof. now destruct st. Qed.

Lemma indicesOf_snoc (st st' : State) (evs : list (nat * State)) (x : nat) :
  indicesOf st (evs ++ [(x, st')])
  = indicesOf st evs ++ (if sameState st' st then [x] else []).
Proof.
  unfold indicesOf. rewrite List.filter_app, List.map_app. cbn.
  now destruct (sameState st' st).
Qed.

Lemma finalize_indices (st : State) (from upto : nat) (evs : list (nat * State))
  (found : list nat * list nat) :
  fst found = indicesOf OPEN evs -> snd found = indicesOf CLOSED evs ->
  let found' := finalize smooth st from upto found in
  let evs' := evs ++ [(specExtremum smooth st from upto, st)] in
  fst found' = indicesOf OPEN evs' /\ snd found' = indicesOf CLOSED evs'.
Proof.
  intros Hp Hv. cbv zeta. rewrite !indicesOf_snoc.
  destruct st; cbn; rewrite Hp, Hv, ?app_nil_r; split; reflexivity.
Qed.

Lemma inTurn_snoc (evs : list (nat * State)) (x : nat * State) :
  inTurn evs ->
  (forall e, last evs = Some e -> (fst e < fst x)%nat /\ snd x = LabelerSpec.flip (snd e)) ->
  inTurn (evs ++ [x]).
Proof.
  induction evs as [|a t IH]; intros Hturn Hlast; [exact I|].
  destruct t as [|b t'].
  - cbn. destruct (Hlast a eq_refl) as [H1 H2]. repeat split; assumption.
  - destruct Hturn as (H1 & H2 & H3).
    change ((a :: b :: t') ++ [x]) with (a :: b :: (t' ++ [x])).
    cbn [inTurn]. repeat split; try assumption.
    apply IH; [exact H3|]. intros ev Hev. apply Hlast.
    now rewrite last_cons_cons.
Qed.

Lemma events_settled (k : nat) :
  (k <= length smooth)%nat -> eventsSettled openTh closeTh smooth k.
Proof.
  induction k as [|k IH]; intros Hk.
  - unfold eventsSettled. cbn. repeat split; try reflexivity; intros; discriminate.
  - specialize (IH ltac:(lia)).
    destruct (scanPrefix_spec openTh closeTh smooth thresholds_apart k ltac:(lia) smooth_nonempty)
      as [_ Hwell].
    unfold eventsSettled in *. cbn [specPoint specEvents].
    destruct (point k) as [[[st from] run] found] eqn:Ep.
    destruct IH as (Hp & Hv & Hturn & Hlast).
    destruct Hwell as (Hrun & Hin & _).
    unfold advance.
    set (run' := if beyond openTh closeTh st (LabelerSpec.sample smooth k) then S run else O) in *.
    unfold minRun in *.
    destruct (Nat.eqb_spec run' 3) as [Hfire | Hquiet].
    + assert (Hplace : (from + 3 <= k)%nat).
      { destruct Hin as [Hin | (-> & _ & -> & Hb)]; [subst run'; destruct (beyond _ _ _ _); lia|].
        unfold run' in Hfire. rewrite Hb in Hfire. discriminate. }
      pose proof (specExtremum_within smooth st from (k - 3) ltac:(lia)) as Hw.
      destruct (finalize_indices st from (k - 3) (events k) found Hp Hv) as [Hp' Hv'].
      split; [exact Hp'|]. split; [exact Hv'|]. split.
      * apply inTurn_snoc; [exact Hturn|]. intros e He. destruct (Hlast e He) as [H1 H2].
        cbn [fst snd]. split; [lia|]. now rewrite H2, flip_flip.
      * intros e He. rewrite last_snoc in He. injection He as <-. cbn [fst snd].
        split; [lia | now rewrite flip_flip].
    + repeat split; try assumption; now apply Hlast.
Qed.

(** The lists the whole scan finds are the indices of the events, state
    by state, and the events are in turn. *)
Lemma all_events_settled :
  fst (specExtrema openTh closeTh smooth) = indicesOf OPEN (specAllEvents openTh closeTh smooth) /\
  snd (specExtrema openTh closeTh smooth) = indicesOf CLOSED (specAllEvents openTh closeTh smooth) /\
  inTurn (specAllEvents openTh closeTh smooth).
Proof.
  pose proof (events_settled (length smooth) (Nat.le_refl _)) as Hset.
  destruct (scanPrefix_spec openTh closeTh smooth thresholds_apart (length smooth)
              (Nat.le_refl _) smooth_nonempty) as [_ Hwell].
  unfold specExtrema.
  change (specScan openTh closeTh smooth (length smooth) 0
            (specInitialState openTh closeTh smooth) 0 0 ([], []))
    with (specScanAt openTh closeTh smooth (length smooth) 0 (point 0)).
  rewrite specScanAt_point. cbn [Nat.add].
  unfold specAllEvents, eventsSettled in *.
  destruct (point (length smooth)) as [[[st from] run] found].
  destruct Hset as (Hp & Hv & Hturn & Hlast).
  destruct Hwell as (_ & Hin & _).
  assert (Hlen : (0 < length smooth)%nat) by (destruct smooth; [congruence | cbn; lia]).
  assert (Hfrom : (from <= length smooth - 1)%nat) by (destruct Hin as [Hin | (H0 & _)]; lia).
  pose proof (specExtremum_within smooth st from (length smooth - 1) Hfrom) as Hw.
  cbn [specScanAt specScan].
  destruct (finalize_indices st from (length smooth - 1) (events (length smooth)) found Hp Hv)
    as [Hp' Hv'].
  split; [exact Hp'|]. split; [exact Hv'|].
  apply inTurn_snoc; [exact Hturn|]. intros e He. destruct (Hlast e He) as [H1 H2].
  cbn [fst snd]. split; [lia|]. now rewrite H2, flip_flip.
Qed.

End ScanEvents.

Section TurnCounting.
Import LabelerSpec Labeler.

Lemma sameState_flip (st : State) : sameState st (LabelerSpec.flip st) = false.
Proof. now destruct st. Qed.

Lemma sameState_refl (st : State) : sameState st st = true.
Proof. now destruct st. Qed.

Lemma sameState_flip_l (st : State) : sameState (LabelerSpec.flip st) st = false.
Proof. now destruct st. Qed.

Lemma indicesOf_cons (st : State) (a : nat * State) (t : list (nat * State)) :
  indicesOf st (a :: t) = (if sameState (snd a) st then [fst a] else []) ++ indicesOf st t.
Proof. unfold indicesOf. cbn. now destruct (sameState (snd a) st). Qed.

(** Of events in turn, the state of the first one occurs as often as the
    other state, or once more. *)
Lemma inTurn_counts (evs : list (nat * State)) :
  inTurn evs ->
  match evs with
  | [] => True
  | e :: _ =>
      length (indicesOf (snd e) evs) = length (indicesOf (LabelerSpec.flip (snd e)) evs) \/
      length (indicesOf (snd e) evs) = S (length (indicesOf (LabelerSpec.flip (snd e)) evs))
  end.
Proof.
  induction evs as [|a t IH]; [trivial|]. intros Hturn.
  destruct t as [|b t'].
  - right. unfold indicesOf. cbn. now rewrite sameState_refl, sameState_flip.
  - destruct Hturn as (_ & Hb & Hrest). specialize (IH Hrest). cbn beta iota in IH.
    rewrite Hb, flip_flip in IH.
    rewrite !(indicesOf_cons _ a (b :: t')), sameState_refl, sameState_flip.
    cbn [app length].
    destruct IH as [IH | IH]; [right | left]; lia.
Qed.

Lemma inTurn_counts_close (evs : list (nat * State)) :
  inTurn evs ->
  (length (indicesOf OPEN evs) <= S (length (indicesOf CLOSED evs)))%nat /\
  (length (indicesOf CLOSED evs) <= S (length (indicesOf OPEN evs)))%nat.
Proof.
  intros Hturn. pose proof (inTurn_counts evs Hturn) as H.
  destruct evs as [|[i st] t]; [cbn; lia|].
  cbn [snd] in H. destruct st; cbn [LabelerSpec.flip] in H; lia.
Qed.

End TurnCounting.

(** X8. Before the pairing block, the extrema the scan has found are in
    turn: there is a list of events with strictly rising indices and
    states that alternate, whose OPEN indices are the peaks and whose
    CLOSED indices are the valleys, in order; so the two lists differ in
    length by at most one. *)
Theorem scan_finds_extrema_in_turn (p : Q) (rest : list Q) :
  let smooth := Smoother.smoothSeries (p :: rest) in
  exists sc events,
    Labeler.scanSegments Labeler.OPEN_TH_FIXED Labeler.CLOSE_TH_FIXED smooth = Some sc /\
    events <> [] /\
    LabelerSpec.inTurn events /\
    Labeler.foundPeaks sc = List.map Z.of_nat (LabelerSpec.indicesOf Labeler.OPEN events) /\
    Labeler.foundValleys sc = List.map Z.of_nat (LabelerSpec.indicesOf Labeler.CLOSED events) /\
    (length (Labeler.foundPeaks sc) <= S (length (Labeler.foundValleys sc)))%nat /\
    (length (Labeler.foundValleys sc) <= S (length (Labeler.foundPeaks sc)))%nat.
Proof.
  intros smooth.
  assert (Hne : smooth <> []) by apply smoothSeries_nonempty.
  destruct (scanSegments_spec Labeler.OPEN_TH_FIXED Labeler.CLOSE_TH_FIXED smooth
              fixed_thresholds_apart Hne) as (sc & Hscan & Hps & Hvs & _).
  destruct (all_events_settled Labeler.OPEN_TH_FIXED Labeler.CLOSE_TH_FIXED smooth
              fixed_thresholds_apart Hne) as (Hp & Hv & Hturn).
  exists sc, (LabelerSpec.specAllEvents Labeler.OPEN_TH_FIXED Labeler.CLOSE_TH_FIXED smooth).
  rewrite Hps, Hvs, Hp, Hv, !length_map.
  destruct (inTurn_counts_close _ Hturn) as [H1 H2].
  repeat split; try assumption; try reflexivity.
  unfold LabelerSpec.specAllEvents.
  destruct (LabelerSpec.specPoint _ _ _ _) as [[[st from] run] found].
  intros Hnil. now apply app_eq_nil in Hnil.
Qed.

(** ** Scans that commit no transition *)

Section QuietScan.
Import JsArray Labeler LabelerSpec.
Local Open Scope Q_scope.

Variable openTh closeTh : Q.
Variable smooth : list Q.
Hypothesis thresholds_apart : closeTh < openTh.
Hypothesis smooth_nonempty : smooth <> [].

Local Abbreviation point := (specPoint openTh closeTh smooth).

Local Abbreviation quietBelow := (LabelerSpec.quietBelow openTh closeTh smooth).

Lemma quiet_point (k : nat) :
  quietBelow k ->
  exists run, point k = (specInitialState openTh closeTh smooth, O, run, ([], [])).
Proof.
  induction k as [|k IH]; intros Hquiet.
  - exists O. reflexivity.
  - destruct IH as (run & Hp).
    { intros i st from r found Hi. apply Hquiet. lia. }
    cbn [specPoint]. rewrite Hp. unfold advance.
    pose proof (Hquiet k _ _ _ _ ltac:(lia) Hp) as Hne.
    apply Nat.eqb_neq in Hne. rewrite Hne. eexists. reflexivity.
Qed.

(** A scan without a transition finds one extremum: a peak when it starts
    OPEN, a valley when it starts CLOSED. *)
Lemma quiet_scan_finds_one :
  quietBelow (length smooth) ->
  exists sc x,
    scanSegments openTh closeTh smooth = Some sc /\
    (0 <= x < Z.of_nat (length smooth))%Z /\
    match specInitialState openTh closeTh smooth with
    | OPEN => foundPeaks sc = [x] /\ foundValleys sc = []
    | CLOSED => foundPeaks sc = [] /\ foundValleys sc = [x]
    end.
Proof.
  intros Hquiet.
  destruct (scanSegments_spec openTh closeTh smooth thresholds_apart smooth_nonempty)
    as (sc & Hscan & Hps & Hvs & _).
  destruct (quiet_point (length smooth) Hquiet) as (run & Hp).
  assert (Hex : specExtrema openTh closeTh smooth
                = finalize smooth (specInitialState openTh closeTh smooth) 0
                    (length smooth - 1) ([], [])).
  { unfold specExtrema.
    change (specScan openTh closeTh smooth (length smooth) 0
              (specInitialState openTh closeTh smooth) 0 0 ([], []))
      with (specScanAt openTh closeTh smooth (length smooth) 0 (point 0)).
    rewrite specScanAt_point. cbn [Nat.add]. rewrite Hp. reflexivity. }
  rewrite Hex in Hps, Hvs.
  pose proof (specExtremum_within smooth (specInitialState openTh closeTh smooth) 0
                (length smooth - 1) ltac:(lia)) as Hw.
  assert (Hlen : (0 < length smooth)%nat) by (destruct smooth; [congruence | cbn; lia]).
  exists sc, (Z.of_nat (specExtremum smooth (specInitialState openTh closeTh smooth) 0
                          (length smooth - 1))).
  split; [exact Hscan|]. split; [lia|].
  destruct (specInitialState openTh closeTh smooth); cbn in Hps, Hvs; split; assumption.
Qed.

(** At most [minRun] samples never complete a run. *)
Lemma short_is_quiet : (length smooth <= minRun)%nat -> quietBelow (length smooth).
Proof.
  intros Hshort i st from run found Hi Hp Hfire.
  destruct (scanPrefix_spec openTh closeTh smooth thresholds_apart i ltac:(lia) smooth_nonempty)
    as [_ Hwell].
  rewrite Hp in Hwell. destruct Hwell as (Hrun & Hin & _). unfold minRun in *.
  destruct Hin as [Hin | (Hi0 & _ & Hr0 & Hb)].
  - destruct (beyond openTh closeTh st (LabelerSpec.sample smooth i)); lia.
  - subst i. rewrite Hb in Hfire. discriminate.
Qed.

(** Samples strictly between the thresholds never start a run. *)
Lemma between_is_quiet :
  Forall (fun y => closeTh < y < openTh) smooth -> quietBelow (length smooth).
Proof.
  intros Hall i st from run found Hi Hp.
  assert (Hy : closeTh < LabelerSpec.sample smooth i < openTh).
  { apply (proj1 (List.Forall_forall _ smooth) Hall). unfold LabelerSpec.sample.
    now apply nth_In. }
  assert (Hb : beyond openTh closeTh st (LabelerSpec.sample smooth i) = false).
  { apply not_true_is_false. intros H. destruct st; cbn in H; apply Qle_bool_iff in H; lra. }
  rewrite Hb. unfold minRun. discriminate.
Qed.

End QuietScan.

Section QuietLabel.
Import Labeler.
Local Open Scope Q_scope.

(** The labeller on a scan without a transition: the pairing block has
    nothing to pair. *)
Lemma quiet_label (pred : list Q) :
  pred <> [] ->
  LabelerSpec.quietBelow OPEN_TH_FIXED CLOSE_TH_FIXED (Smoother.smoothSeries pred)
    (length (Smoother.smoothSeries pred)) ->
  exists ex x,
    labelBlinkExtrema pred = Some ex /\
    (0 <= x < Z.of_nat (length pred))%Z /\
    ((peaks ex = [x] /\ valleys ex = []) \/ (peaks ex = [] /\ valleys ex = [x])).
Proof.
  intros Hne Hquiet.
  destruct pred as [|p rest]; [congruence|].
  assert (Hsm : Smoother.smoothSeries (p :: rest) <> []) by apply smoothSeries_nonempty.
  destruct (quiet_scan_finds_one OPEN_TH_FIXED CLOSE_TH_FIXED _ fixed_thresholds_apart Hsm Hquiet)
    as (sc & x & Hscan & Hx & Hfound).
  rewrite smoothSeries_length in Hx.
  unfold labelBlinkExtrema, labelBlinkExtremaWith.
  destruct (Smoother.smoothSeries (p :: rest)) as [|y0 t] eqn:E; [congruence|].
  rewrite Hscan.
  destruct (LabelerSpec.specInitialState OPEN_TH_FIXED CLOSE_TH_FIXED (y0 :: t));
    destruct Hfound as [-> ->]; cbn [ensurePairing];
    eexists; exists x; (split; [reflexivity|]); (split; [exact Hx|]); cbn; tauto.
Qed.

End QuietLabel.

Section QuietPipeline.
Import Types.

(** With no peak or no valley the training step changes neither the
    registry nor the list of training calls. *)
Lemma runBlink_without_pair
  (fit : list Vec3 -> (list Q -> option Q) -> nat -> Q -> Model)
  (eye : Eye) (w : Pipeline.World) (mat : SampleMatrix) (ex : Labeler.Extremes) :
  Capture.matrixOf eye (Pipeline.blinkBuffer w) = Some mat ->
  Labeler.labelBlinkExtrema
    (List.map (fun v => Binary.predict eye v (Pipeline.registry w)) (matToFrames mat))
  = Some ex ->
  Labeler.peaks ex = [] \/ Labeler.valleys ex = [] ->
  exists w',
    Pipeline.runBlinkInferenceAndTrainForEye fit eye w = Some w' /\
    Pipeline.registry w' = Pipeline.registry w /\
    Pipeline.trainCalls w' = Pipeline.trainCalls w.
Proof.
  intros Hmat Hex Hempty. unfold Pipeline.runBlinkInferenceAndTrainForEye.
  rewrite Hmat. destruct (length (row0 mat) =? 0)%nat; [now exists w|].
  rewrite Hex.
  destruct (Labeler.peaks ex) as [|p ps], (Labeler.valleys ex) as [|v vs];
    try (eexists; split; [reflexivity|]; split; reflexivity).
  destruct Hempty; discriminate.
Qed.

Lemma matToFrames_length (m : SampleMatrix) : length (matToFrames m) = length (row0 m).
Proof. unfold matToFrames. apply mapi_length. Qed.

Lemma runBlink_quiet
  (fit : list Vec3 -> (list Q -> option Q) -> nat -> Q -> Model)
  (eye : Eye) (w : Pipeline.World) :
  (forall mat,
     Capture.matrixOf eye (Pipeline.blinkBuffer w) = Some mat ->
     row0 mat <> [] ->
     let pred := List.map (fun v => Binary.predict eye v (Pipeline.registry w))
                          (matToFrames mat) in
     LabelerSpec.quietBelow Labeler.OPEN_TH_FIXED Labeler.CLOSE_TH_FIXED
       (Smoother.smoothSeries pred) (length (Smoother.smoothSeries pred))) ->
  exists w',
    Pipeline.runBlinkInferenceAndTrainForEye fit eye w = Some w' /\
    Pipeline.registry w' = Pipeline.registry w /\
    Pipeline.trainCalls w' = Pipeline.trainCalls w.
Proof.
  intros Hquiet.
  destruct (Capture.matrixOf eye (Pipeline.blinkBuffer w)) as [mat|] eqn:Hmat.
  2:{ exists w. unfold Pipeline.runBlinkInferenceAndTrainForEye. now rewrite Hmat. }
  destruct (row0 mat) as [|q0 qs] eqn:Hrow.
  { exists w. unfold Pipeline.runBlinkInferenceAndTrainForEye. now rewrite Hmat, Hrow. }
  specialize (Hquiet mat eq_refl ltac:(rewrite Hrow; discriminate)). cbv zeta in Hquiet.
  set (pred := List.map (fun v => Binary.predict eye v (Pipeline.registry w))
                        (matToFrames mat)) in *.
  assert (Hne : pred <> []).
  { intros Hnil. apply (f_equal (@length Q)) in Hnil.
    unfold pred in Hnil. rewrite length_map, matToFrames_length, Hrow in Hnil. discriminate. }
  destruct (quiet_label pred Hne Hquiet) as (ex & x & Hex & _ & Hone).
  apply (runBlink_without_pair fit eye w mat ex Hmat Hex).
  destruct Hone as [[_ H] | [H _]]; tauto.
Qed.

End QuietPipeline.

(** X9. A series whose smoothed values all lie strictly between the two
    thresholds is labelled with exactly one extremum, inside the series:
    one peak and no valley, or one valley and no peak. *)
Theorem series_between_thresholds_has_one_extremum (pred : list Q)
  (Hne : pred <> [])
  (Hbetween : Forall (fun y => (Labeler.CLOSE_TH_FIXED < y < Labeler.OPEN_TH_FIXED)%Q)
                     (Smoother.smoothSeries pred)) :
  exists ex x,
    Labeler.labelBlinkExtrema pred = Some ex /\
    0 <= x < Z.of_nat (length pred) /\
    ((Labeler.peaks ex = [x] /\ Labeler.valleys ex = []) \/
     (Labeler.peaks ex = [] /\ Labeler.valleys ex = [x])).
Proof.
  apply quiet_label; [exact Hne|].
  now apply between_is_quiet.
Qed.

Lemma series_between_thresholds_witness :
  exists ex x,
    Labeler.labelBlinkExtrema [0.5; 0.6; 0.4; 0.5; 0.5]%Q = Some ex /\
    0 <= x < 5 /\
    ((Labeler.peaks ex = [x] /\ Labeler.valleys ex = []) \/
     (Labeler.peaks ex = [] /\ Labeler.valleys ex = [x])).
Proof.
  apply (series_between_thresholds_has_one_extremum [0.5; 0.6; 0.4; 0.5; 0.5]%Q).
  - discriminate.
  - vm_compute. repeat constructor; intros H; discriminate H.
Defined.

(** X10. A blink recording of at most three samples never trains the
    smooth model: the training step returns with the registry and the
    training calls as they were. *)
Theorem short_blink_recording_never_trains
  (fit : list Types.Vec3 -> (list Q -> option Q) -> nat -> Q -> Types.Model)
  (eye : Types.Eye) (w : Pipeline.World)
  (Hshort : forall mat,
     Capture.matrixOf eye (Pipeline.blinkBuffer w) = Some mat ->
     (length (Types.row0 mat) <= 3)%nat) :
  exists w',
    Pipeline.runBlinkInferenceAndTrainForEye fit eye w = Some w' /\
    Pipeline.registry w' = Pipeline.registry w /\
    Pipeline.trainCalls w' = Pipeline.trainCalls w.
Proof.
  apply runBlink_quiet. intros mat Hmat Hrow pred.
  assert (Hlen : length (Smoother.smoothSeries pred) = length (Types.row0 mat)).
  { rewrite smoothSeries_length. unfold pred. now rewrite length_map, matToFrames_length. }
  apply short_is_quiet.
  - apply fixed_thresholds_apart.
  - intros Hnil. rewrite Hnil in Hlen. destruct (Types.row0 mat); [congruence | discriminate].
  - rewrite Hlen. unfold Labeler.minRun. now apply Hshort.
Qed.

Lemma short_blink_recording_witness :
  let fit := fun (_ : list Types.Vec3) (_ : list Q -> option Q) (_ : nat) (_ : Q) =>
               Types.mkModel (fun _ => 1%Q) in
  let mat : Types.SampleMatrix := ([0.1; 0.2; 0.3]%Q, [0.4; 0.5; 0.6]%Q, [0.7; 0.8; 0.9]%Q) in
  let buffer := Capture.mkCalibrationBuffer None (Some mat) None None (Some 7) None false in
  let w := Pipeline.mkWorld Capture.makeBuffer Capture.makeBuffer buffer Registry.empty [] [] in
  exists w',
    Pipeline.runBlinkInferenceAndTrainForEye fit Types.EyeLeft w = Some w' /\
    Pipeline.registry w' = Pipeline.registry w /\
    Pipeline.trainCalls w' = Pipeline.trainCalls w.
Proof.
  intros fit mat buffer w.
  apply (short_blink_recording_never_trains fit Types.EyeLeft w).
  intros m Hm. cbn in Hm. injection Hm as <-. cbn. lia.
Defined.

(** X11. While no binary model is registered for an eye, every binary
    prediction is 0.5, the smoothed series stays at 0.5, and the blink
    training step for that eye never trains: it returns with the registry
    and the training calls as they were. *)
Theorem blink_before_binary_calibration_never_trains
  (fit : list Types.Vec3 -> (list Q -> option Q) -> nat -> Q -> Types.Model)
  (eye : Types.Eye) (w : Pipeline.World)
  (Hnone : Registry.get (Binary.getKey eye Binary.VERSION) (Pipeline.registry w) = None) :
  exists w',
    Pipeline.runBlinkInferenceAndTrainForEye fit eye w = Some w' /\
    Pipeline.registry w' = Pipeline.registry w /\
    Pipeline.trainCalls w' = Pipeline.trainCalls w.
Proof.
  apply runBlink_quiet. intros mat Hmat Hrow pred.
  assert (Hpred : pred = repeat 0.5%Q (length (Types.matToFrames mat))).
  { unfold pred. generalize (Types.matToFrames mat). intros frames.
    induction frames as [|f t IH]; [reflexivity|].
    cbn [List.map length repeat]. rewrite IH. f_equal.
    unfold Binary.predict. now rewrite Hnone. }
  apply between_is_quiet. rewrite Hpred.
  eapply List.Forall_impl;
    [|apply (smoothSeriesWith_of_constant _ _ 0.5%Q (length (Types.matToFrames mat)))].
  intros y Hy. cbn beta in Hy.
  assert (Hc : (Smoother.clamp01 0.5 == 0.5)%Q) by reflexivity.
  rewrite Hc in Hy. rewrite Hy. split; reflexivity.
Qed.

Lemma blink_before_binary_calibration_witness :
  let fit := fun (_ : list Types.Vec3) (_ : list Q -> option Q) (_ : nat) (_ : Q) =>
               Types.mkModel (fun _ => 1%Q) in
  let mat : Types.SampleMatrix :=
    ([0.1; 0.2; 0.3; 0.4; 0.5]%Q, [0.4; 0.5; 0.6; 0.7; 0.8]%Q, [0.7; 0.8; 0.9; 1; 0]%Q) in
  let buffer := Capture.mkCalibrationBuffer (Some mat) None None (Some 7) None None false in
  let w := Pipeline.mkWorld Capture.makeBuffer Capture.makeBuffer buffer Registry.empty [] [] in
  exists w',
    Pipeline.runBlinkInferenceAndTrainForEye fit Types.EyeCombined w = Some w' /\
    Pipeline.registry w' = Pipeline.registry w /\
    Pipeline.trainCalls w' = Pipeline.trainCalls w.
Proof.
  intros fit mat buffer w.
  apply (blink_before_binary_calibration_never_trains fit Types.EyeCombined w).
  reflexivity.
Defined.

(** ** The blink training step as a whole *)

Section BlinkStep.
Import Types.

Local Abbreviation inside n := (fun i : Z => 0 <= i < Z.of_nat n).

Lemma labelBlinkExtrema_within (pred : list Q) (ex : Labeler.Extremes) :
  Labeler.labelBlinkExtrema pred = Some ex ->
  Labeler.smooth ex = Smoother.smoothSeries pred /\
  Forall (inside (length pred)) (Labeler.peaks ex) /\
  Forall (inside (length pred)) (Labeler.valleys ex).
Proof.
  unfold Labeler.labelBlinkExtrema, Labeler.labelBlinkExtremaWith.
  pose proof (smoothSeries_length pred) as Hlen.
  destruct (Smoother.smoothSeries pred) as [|y0 t] eqn:E.
  { intros [= <-]. cbn. repeat split; constructor. }
  destruct (scanSegments_spec Labeler.OPEN_TH_FIXED Labeler.CLOSE_TH_FIXED (y0 :: t)
              fixed_thresholds_apart ltac:(discriminate)) as (sc & Hscan & Hps & Hvs & Fp & Fv).
  rewrite Hscan.
  apply Forall_of_nat_within in Fp, Fv. rewrite <- Hps in Fp. rewrite <- Hvs in Fv.
  rewrite Hlen in Fp, Fv.
  destruct (ensurePairing_within (inside (length pred)) _ _ Fp Fv) as [Hp Hv].
  destruct (Labeler.ensurePairing _ _) as [ps vs]. intros [= <-]. cbn in *. auto.
Qed.

(** The blink training step always returns.  It leaves the buffers alone
    and dispatches the plot whenever the eye has a sample; it trains when
    the labeller returns a peak and a valley, on the eye's matrix and the
    labeller's indices, all inside the recording, which then holds four
    samples or more. *)
Lemma runBlink_total
  (fit : list Vec3 -> (list Q -> option Q) -> nat -> Q -> Model)
  (eye : Eye) (w : Pipeline.World) :
  exists w',
    Pipeline.runBlinkInferenceAndTrainForEye fit eye w = Some w' /\
    Pipeline.closedBuffer w' = Pipeline.closedBuffer w /\
    Pipeline.openBuffer w' = Pipeline.openBuffer w /\
    Pipeline.blinkBuffer w' = Pipeline.blinkBuffer w /\
    ((Pipeline.trainCalls w' = Pipeline.trainCalls w /\
      Pipeline.registry w' = Pipeline.registry w) \/
     exists data sign,
       Pipeline.trainCalls w'
       = Pipeline.trainCalls w ++ [Pipeline.TrainSmooth eye data Pipeline.blinkOpts] /\
       Capture.matrixOf eye (Pipeline.blinkBuffer w) = Some (SmoothBlink.latents data) /\
       SmoothBlink.peaks data <> [] /\ SmoothBlink.valleys data <> [] /\
       Forall (inside (length (row0 (SmoothBlink.latents data)))) (SmoothBlink.peaks data) /\
       Forall (inside (length (row0 (SmoothBlink.latents data)))) (SmoothBlink.valleys data) /\
       (4 <= length (row0 (SmoothBlink.latents data)))%nat /\
       SmoothBlink.orderingSigns (length (row0 (SmoothBlink.latents data))) data = Some sign /\
       length sign = (length (row0 (SmoothBlink.latents data)) - 1)%nat /\
       Pipeline.registry w'
       = Registry.set (SmoothBlink.getKey eye SmoothBlink.VERSION)
           (fit (matToFrames (SmoothBlink.latents data))
                (SmoothBlink.makeCompositeLoss sign
                   (SmoothBlink.setOf (SmoothBlink.peaks data))
                   (SmoothBlink.setOf (SmoothBlink.valleys data)))
                150%nat 0.001%Q)
           true (Pipeline.registry w)).
Proof.
  unfold Pipeline.runBlinkInferenceAndTrainForEye.
  destruct (Capture.matrixOf eye (Pipeline.blinkBuffer w)) as [mat|] eqn:Hmat.
  2:{ exists w. repeat split; auto. }
  destruct (length (row0 mat) =? 0)%nat eqn:Hz.
  { exists w. repeat split; auto. }
  apply Nat.eqb_neq in Hz.
  set (pred := List.map (fun v => Binary.predict eye v (Pipeline.registry w)) (matToFrames mat)).
  assert (Hlen : length pred = length (row0 mat)).
  { unfold pred. now rewrite length_map, matToFrames_length. }
  destruct (labelBlinkExtrema_total pred) as (ex & Hex). rewrite Hex.
  destruct (labelBlinkExtrema_within pred ex Hex) as (_ & Fp & Fv). rewrite Hlen in Fp, Fv.
  destruct (Labeler.peaks ex) as [|p ps] eqn:Ep.
  { eexists. split; [reflexivity|]. repeat split; auto. }
  destruct (Labeler.valleys ex) as [|v vs] eqn:Ev.
  { eexists. split; [reflexivity|]. repeat split; auto. }
  assert (Hfour : (4 <= length (row0 mat))%nat).
  { destruct (le_lt_dec (length (row0 mat)) 3) as [Hshort|]; [exfalso | lia].
    assert (Hne : pred <> []).
    { intros Hnil. rewrite Hnil in Hlen. cbn in Hlen. lia. }
    assert (Hsm : Smoother.smoothSeries pred <> []).
    { intros Hnil. apply (f_equal (@length Q)) in Hnil.
      rewrite smoothSeries_length, Hlen in Hnil. cbn in Hnil. lia. }
    destruct (quiet_label pred Hne) as (ex' & x & Hex' & _ & Hone).
    { apply short_is_quiet; [apply fixed_thresholds_apart | exact Hsm|].
      rewrite smoothSeries_length, Hlen. exact Hshort. }
    rewrite Hex in Hex'. injection Hex' as <-. rewrite Ep, Ev in Hone.
    destruct Hone as [[_ H] | [H _]]; discriminate H. }
  set (data := SmoothBlink.mkBlinkTrainingData mat (p :: ps) (v :: vs)).
  fold data.
  match goal with
  | |- context [SmoothBlink.train _ _ _ _ ?r] =>
      destruct (train_inside fit eye data Pipeline.blinkOpts r)
        as (sign & Hsign & Hsignlen & Htrain)
  end.
  { cbn [SmoothBlink.latents data]. lia. }
  { apply Forall_app. split; assumption. }
  cbn [SmoothBlink.latents data] in Hsign, Hsignlen. rewrite Htrain.
  eexists. split; [reflexivity|]. cbn [Pipeline.withRegistry Pipeline.dispatchPlot
    Pipeline.dispatch Pipeline.closedBuffer Pipeline.openBuffer Pipeline.blinkBuffer
    Pipeline.trainCalls Pipeline.registry].
  split; [reflexivity|]. split; [reflexivity|]. split; [reflexivity|].
  right. exists data, sign. cbn [SmoothBlink.latents SmoothBlink.peaks SmoothBlink.valleys data].
  repeat split; try assumption; try discriminate.
Qed.

End BlinkStep.

(** X12. The blink training step never throws.  It leaves the three
    buffers as they are, and either makes no training call and leaves the
    registry as it is, or makes one call for this eye, with the eye's
    recorded matrix of at least four samples, at least one peak and one
    valley, all of them indices of recorded samples, and one ordering sign
    for each pair of adjacent samples, and registers the model fitted with
    150 epochs and learning rate 0.001 under the eye's smooth key. *)
Theorem blink_training_step_never_throws
  (fit : list Types.Vec3 -> (list Q -> option Q) -> nat -> Q -> Types.Model)
  (eye : Types.Eye) (w : Pipeline.World) :
  exists w',
    Pipeline.runBlinkInferenceAndTrainForEye fit eye w = Some w' /\
    Pipeline.closedBuffer w' = Pipeline.closedBuffer w /\
    Pipeline.openBuffer w' = Pipeline.openBuffer w /\
    Pipeline.blinkBuffer w' = Pipeline.blinkBuffer w /\
    ((Pipeline.trainCalls w' = Pipeline.trainCalls w /\
      Pipeline.registry w' = Pipeline.registry w) \/
     exists data sign,
       Pipeline.trainCalls w'
       = Pipeline.trainCalls w ++ [Pipeline.TrainSmooth eye data Pipeline.blinkOpts] /\
       Capture.matrixOf eye (Pipeline.blinkBuffer w) = Some (SmoothBlink.latents data) /\
       SmoothBlink.peaks data <> [] /\ SmoothBlink.valleys data <> [] /\
       Forall (fun i => 0 <= i < Z.of_nat (length (Types.row0 (SmoothBlink.latents data))))
              (SmoothBlink.peaks data) /\
       Forall (fun i => 0 <= i < Z.of_nat (length (Types.row0 (SmoothBlink.latents data))))
              (SmoothBlink.valleys data) /\
       (4 <= length (Types.row0 (SmoothBlink.latents data)))%nat /\
       SmoothBlink.orderingSigns (length (Types.row0 (SmoothBlink.latents data))) data
       = Some sign /\
       length sign = (length (Types.row0 (SmoothBlink.latents data)) - 1)%nat /\
       Pipeline.registry w'
       = Registry.set (SmoothBlink.getKey eye SmoothBlink.VERSION)
           (fit (Types.matToFrames (SmoothBlink.latents data))
                (SmoothBlink.makeCompositeLoss sign
                   (SmoothBlink.setOf (SmoothBlink.peaks data))
                   (SmoothBlink.setOf (SmoothBlink.valleys data)))
                150%nat 0.001%Q)
           true (Pipeline.registry w)).
Proof. apply runBlink_total. Qed.

(** ** The subscription callback *)

Section Callback.
Import Types.

Variable fitBinary : list Vec3 -> list Q -> nat -> Q -> Model.
Variable fitSmooth : list Vec3 -> (list Q -> option Q) -> nat -> Q -> Model.
Variable shuffles : Eye -> list nat * list nat.

Local Abbreviation calibrateBinaryFor := (Pipeline.calibrateBinaryFor fitBinary shuffles).
Local Abbreviation calibrateBinary := (Pipeline.calibrateBinary fitBinary shuffles).
Local Abbreviation collect := (Pipeline.collectAndMaybeCalibrate fitBinary fitSmooth shuffles).

Lemma calibrateBinaryFor_buffers (eye : Eye) (w : Pipeline.World) :
  Pipeline.closedBuffer (calibrateBinaryFor eye w) = Pipeline.closedBuffer w /\
  Pipeline.openBuffer (calibrateBinaryFor eye w) = Pipeline.openBuffer w /\
  Pipeline.blinkBuffer (calibrateBinaryFor eye w) = Pipeline.blinkBuffer w /\
  Pipeline.dispatched (calibrateBinaryFor eye w) = Pipeline.dispatched w.
Proof.
  unfold Pipeline.calibrateBinaryFor.
  destruct (Capture.matrixOf eye (Pipeline.closedBuffer w)) as [closed|]; [|auto].
  destruct (Capture.matrixOf eye (Pipeline.openBuffer w)) as [open|]; [|auto].
  destruct (_ && _); auto.
Qed.

Lemma calibrateBinary_buffers (w : Pipeline.World) :
  Pipeline.closedBuffer (calibrateBinary w) = Pipeline.closedBuffer w /\
  Pipeline.openBuffer (calibrateBinary w) = Pipeline.openBuffer w /\
  Pipeline.blinkBuffer (calibrateBinary w) = Pipeline.blinkBuffer w /\
  Pipeline.dispatched (calibrateBinary w) = Pipeline.dispatched w.
Proof.
  unfold Pipeline.calibrateBinary.
  destruct (calibrateBinaryFor_buffers EyeRight
              (calibrateBinaryFor EyeLeft (calibrateBinaryFor EyeCombined w)))
    as (-> & -> & -> & ->).
  destruct (calibrateBinaryFor_buffers EyeLeft (calibrateBinaryFor EyeCombined w))
    as (-> & -> & -> & ->).
  apply calibrateBinaryFor_buffers.
Qed.

Lemma appendSamples_ongoing (b : Capture.CalibrationBuffer) (tc tl tr : option Z)
  (l ll lr : Capture.Latents) :
  Capture.ongoing (Capture.appendSamples b tc tl tr l ll lr) = Capture.ongoing b.
Proof.
  unfold Capture.appendSamples.
  repeat match goal with
         | |- context [if ?c then _ else _] => destruct c
         end; reflexivity.
Qed.

Lemma appendSamples_idem (b : Capture.CalibrationBuffer) (tc tl tr : option Z)
  (l ll lr : Capture.Latents) :
  let after := Capture.appendSamples b tc tl tr l ll lr in
  Capture.appendSamples after tc tl tr l ll lr = after.
Proof.
  intros after. subst after. unfold Capture.appendSamples.
  destruct b as [c le r tc' tl' tr' o]. buffer_fields.
  destruct (Capture.isNewTimestamp tc tc') eqn:Ec; buffer_fields;
    destruct (Capture.isNewTimestamp tl tl') eqn:El; buffer_fields;
    destruct (Capture.isNewTimestamp tr tr') eqn:Er; buffer_fields;
    repeat (rewrite ?isNewTimestamp_same, ?Ec, ?El, ?Er; buffer_fields);
    unfold Capture.ensureMatrices; buffer_fields;
    rewrite ?ensureMatrix_idem, ?ensureMatrix_push; reflexivity.
Qed.

Lemma capture_ongoing (st : Pipeline.Status) (b : Capture.CalibrationBuffer) :
  Capture.ongoing (Pipeline.capture st b) = true.
Proof.
  unfold Pipeline.capture, Pipeline.appendFromStatus. rewrite appendSamples_ongoing.
  destruct (Capture.ongoing b) eqn:E; [exact E | reflexivity].
Qed.

Lemma capture_idem (st : Pipeline.Status) (b : Capture.CalibrationBuffer) :
  Pipeline.capture st (Pipeline.capture st b) = Pipeline.capture st b.
Proof.
  pose proof (capture_ongoing st b) as Hon.
  unfold Pipeline.capture at 1. rewrite Hon.
  unfold Pipeline.capture, Pipeline.appendFromStatus. apply appendSamples_idem.
Qed.

Lemma setOngoing_same (b : Capture.CalibrationBuffer) :
  Capture.setOngoing (Capture.ongoing b) b = b.
Proof. now destruct b. Qed.

Lemma phaseAfter_ongoing (active : bool) (st : Pipeline.Status)
  (b : Capture.CalibrationBuffer) :
  Capture.ongoing (Pipeline.phaseAfter active st b) = active.
Proof. destruct active; [apply capture_ongoing | reflexivity]. Qed.

Lemma phaseAfter_idem (active : bool) (st : Pipeline.Status)
  (b : Capture.CalibrationBuffer) :
  Pipeline.phaseAfter active st (Pipeline.phaseAfter active st b)
  = Pipeline.phaseAfter active st b.
Proof. destruct active; [apply capture_idem | reflexivity]. Qed.

(** The three blink training steps in a row. *)
Lemma runBlink_thrice (w : Pipeline.World) :
  exists w',
    match Pipeline.runBlinkInferenceAndTrainForEye fitSmooth EyeCombined w with
    | Some wa =>
        match Pipeline.runBlinkInferenceAndTrainForEye fitSmooth EyeLeft wa with
        | Some wb => Pipeline.runBlinkInferenceAndTrainForEye fitSmooth EyeRight wb
        | None => None
        end
    | None => None
    end = Some w' /\
    Pipeline.closedBuffer w' = Pipeline.closedBuffer w /\
    Pipeline.openBuffer w' = Pipeline.openBuffer w /\
    Pipeline.blinkBuffer w' = Pipeline.blinkBuffer w.
Proof.
  destruct (runBlink_total fitSmooth EyeCombined w) as (wa & -> & Ca & Oa & Ba & _).
  destruct (runBlink_total fitSmooth EyeLeft wa) as (wb & -> & Cb & Ob & Bb & _).
  destruct (runBlink_total fitSmooth EyeRight wb) as (wc & -> & Cc & Oc & Bc & _).
  exists wc. repeat split; congruence.
Qed.

(** One phase of the two binary ones, on the buffer [b] of the phase. *)
Lemma binary_phase (active : bool) (b : Capture.CalibrationBuffer) (st : Pipeline.Status)
  (w : Pipeline.World) (put : Pipeline.World -> Capture.CalibrationBuffer -> Pipeline.World)
  (read : Pipeline.World -> Capture.CalibrationBuffer) :
  (forall w0 b0, read (put w0 b0) = b0) ->
  (forall w0, read (calibrateBinary w0) = read w0) ->
  read w = b ->
  read (if active then put w (Pipeline.capture st b)
        else if Capture.ongoing b
             then calibrateBinary (put w (Capture.setOngoing false b))
             else w)
  = Pipeline.phaseAfter active st b.
Proof.
  intros Hput Hcal Hread. unfold Pipeline.phaseAfter.
  destruct active; [apply Hput|].
  destruct (Capture.ongoing b) eqn:E.
  - now rewrite Hcal, Hput.
  - rewrite Hread, <- E. symmetry. apply setOngoing_same.
Qed.

Lemma collect_spec (st : Pipeline.Status) (w : Pipeline.World) :
  exists w',
    collect st w = Some w' /\
    Pipeline.closedBuffer w'
    = Pipeline.phaseAfter (Pipeline.closedCalibrationActive st) st (Pipeline.closedBuffer w) /\
    Pipeline.openBuffer w'
    = Pipeline.phaseAfter (Pipeline.openCalibrationActive st) st (Pipeline.openBuffer w) /\
    Pipeline.blinkBuffer w'
    = Pipeline.phaseAfter (Pipeline.blinkCalibrationActive st) st (Pipeline.blinkBuffer w).
Proof.
  unfold Pipeline.collectAndMaybeCalibrate.
  set (w1 := if Pipeline.closedCalibrationActive st then _ else _).
  set (w2 := if Pipeline.openCalibrationActive st then _ else _).
  assert (H1 : Pipeline.closedBuffer w1
               = Pipeline.phaseAfter (Pipeline.closedCalibrationActive st) st
                   (Pipeline.closedBuffer w) /\
               Pipeline.openBuffer w1 = Pipeline.openBuffer w /\
               Pipeline.blinkBuffer w1 = Pipeline.blinkBuffer w).
  { split.
    - apply (binary_phase _ _ st w Pipeline.setClosed Pipeline.closedBuffer); auto.
      intros w0. apply calibrateBinary_buffers.
    - unfold w1. destruct (Pipeline.closedCalibrationActive st); [split; reflexivity|].
      destruct (Capture.ongoing (Pipeline.closedBuffer w)); [|split; reflexivity].
      destruct (calibrateBinary_buffers
                  (Pipeline.setClosed w (Capture.setOngoing false (Pipeline.closedBuffer w))))
        as (_ & -> & -> & _). split; reflexivity. }
  destruct H1 as (C1 & O1 & B1).
  assert (H2 : Pipeline.closedBuffer w2 = Pipeline.closedBuffer w1 /\
               Pipeline.openBuffer w2
               = Pipeline.phaseAfter (Pipeline.openCalibrationActive st) st
                   (Pipeline.openBuffer w1) /\
               Pipeline.blinkBuffer w2 = Pipeline.blinkBuffer w1).
  { split; [|split].
    - unfold w2. destruct (Pipeline.openCalibrationActive st); [reflexivity|].
      destruct (Capture.ongoing (Pipeline.openBuffer w1)); [|reflexivity].
      destruct (calibrateBinary_buffers
                  (Pipeline.setOpen w1 (Capture.setOngoing false (Pipeline.openBuffer w1))))
        as (-> & _). reflexivity.
    - apply (binary_phase _ _ st w1 Pipeline.setOpen Pipeline.openBuffer); auto.
      intros w0. apply calibrateBinary_buffers.
    - unfold w2. destruct (Pipeline.openCalibrationActive st); [reflexivity|].
      destruct (Capture.ongoing (Pipeline.openBuffer w1)); [|reflexivity].
      destruct (calibrateBinary_buffers
                  (Pipeline.setOpen w1 (Capture.setOngoing false (Pipeline.openBuffer w1))))
        as (_ & _ & -> & _). reflexivity. }
  destruct H2 as (C2 & O2 & B2).
  clearbody w1 w2.
  unfold Pipeline.phaseAfter at 3.
  destruct (Pipeline.blinkCalibrationActive st).
  { eexists. split; [reflexivity|]. cbn [Pipeline.setBlink Pipeline.closedBuffer
      Pipeline.openBuffer Pipeline.blinkBuffer]. repeat split; congruence. }
  destruct (Capture.ongoing (Pipeline.blinkBuffer w2)) eqn:E.
  - destruct (runBlink_thrice
                (Pipeline.setBlink w2 (Capture.setOngoing false (Pipeline.blinkBuffer w2))))
      as (w' & -> & C3 & O3 & B3).
    exists w'. split; [reflexivity|]. cbn [Pipeline.setBlink Pipeline.closedBuffer
      Pipeline.openBuffer Pipeline.blinkBuffer] in C3, O3, B3. repeat split; congruence.
  - exists w2. split; [reflexivity|]. repeat split; try congruence.
    rewrite <- B1, <- B2, <- E. symmetry. apply setOngoing_same.
Qed.

Lemma collect_settled (st : Pipeline.Status) (w : Pipeline.World) :
  Pipeline.closedBuffer w
  = Pipeline.phaseAfter (Pipeline.closedCalibrationActive st) st (Pipeline.closedBuffer w) ->
  Pipeline.openBuffer w
  = Pipeline.phaseAfter (Pipeline.openCalibrationActive st) st (Pipeline.openBuffer w) ->
  Pipeline.blinkBuffer w
  = Pipeline.phaseAfter (Pipeline.blinkCalibrationActive st) st (Pipeline.blinkBuffer w) ->
  collect st w = Some w.
Proof.
  intros HC HO HB. unfold Pipeline.collectAndMaybeCalibrate.
  assert (H1 : (if Pipeline.closedCalibrationActive st
                then Pipeline.setClosed w (Pipeline.capture st (Pipeline.closedBuffer w))
                else if Capture.ongoing (Pipeline.closedBuffer w)
                     then calibrateBinary
                            (Pipeline.setClosed w
                               (Capture.setOngoing false (Pipeline.closedBuffer w)))
                     else w) = w).
  { pose proof (phaseAfter_ongoing (Pipeline.closedCalibrationActive st) st
                  (Pipeline.closedBuffer w)) as Hon. rewrite <- HC in Hon.
    unfold Pipeline.phaseAfter in HC.
    destruct (Pipeline.closedCalibrationActive st).
    - rewrite <- HC. now destruct w.
    - now rewrite Hon. }
  rewrite H1.
  assert (H2 : (if Pipeline.openCalibrationActive st
                then Pipeline.setOpen w (Pipeline.capture st (Pipeline.openBuffer w))
                else if Capture.ongoing (Pipeline.openBuffer w)
                     then calibrateBinary
                            (Pipeline.setOpen w
                               (Capture.setOngoing false (Pipeline.openBuffer w)))
                     else w) = w).
  { pose proof (phaseAfter_ongoing (Pipeline.openCalibrationActive st) st
                  (Pipeline.openBuffer w)) as Hon. rewrite <- HO in Hon.
    unfold Pipeline.phaseAfter in HO.
    destruct (Pipeline.openCalibrationActive st).
    - rewrite <- HO. now destruct w.
    - now rewrite Hon. }
  rewrite H2.
  pose proof (phaseAfter_ongoing (Pipeline.blinkCalibrationActive st) st
                (Pipeline.blinkBuffer w)) as Hon. rewrite <- HB in Hon.
  unfold Pipeline.phaseAfter in HB.
  destruct (Pipeline.blinkCalibrationActive st).
  - rewrite <- HB. now destruct w.
  - now rewrite Hon.
Qed.

End Callback.


(** X14. The callback is idempotent on an unchanged store state: a second
    run with the same status, which the store triggers on every unrelated
    change, returns the world of the first run as it is; it appends no
    sample, dispatches nothing and trains nothing. *)
Theorem callback_twice_changes_nothing_more
  (fitBinary : list Types.Vec3 -> list Q -> nat -> Q -> Types.Model)
  (fitSmooth : list Types.Vec3 -> (list Q -> option Q) -> nat -> Q -> Types.Model)
  (shuffles : Types.Eye -> list nat * list nat)
  (st : Pipeline.Status) (w : Pipeline.World) :
  exists w',
    Pipeline.collectAndMaybeCalibrate fitBinary fitSmooth shuffles st w = Some w' /\
    Pipeline.collectAndMaybeCalibrate fitBinary fitSmooth shuffles st w' = Some w'.
Proof.
  destruct (collect_spec fitBinary fitSmooth shuffles st w) as (w' & H & C & O & B).
  exists w'. split; [exact H|].
  apply collect_settled.
  - rewrite C at 1. now rewrite C, phaseAfter_idem.
  - rewrite O at 1. now rewrite O, phaseAfter_idem.
  - rewrite B at 1. now rewrite B, phaseAfter_idem.
Qed.

(** ** Recording samples *)

Section Recording.
Import Types Capture.

Lemma matToFrames_as_map (m : SampleMatrix) :
  matToFrames m = List.map (frameAt m) (seq 0 (length (row0 m))).
Proof.
  apply (nth_ext _ _ (0%Q, 0%Q, 0%Q) (0%Q, 0%Q, 0%Q)).
  - now rewrite matToFrames_length, length_map, length_seq.
  - intros i Hi. rewrite matToFrames_length in Hi. unfold matToFrames.
    rewrite (mapi_nth _ _ i 0%Q) by lia. now rewrite map_seq_nth by lia.
Qed.

(** Pushing one value on each row of an aligned matrix adds one frame. *)
Lemma matToFrames_push (m : SampleMatrix) (a b c : Q) :
  aligned (Some m) ->
  matToFrames (row0 m ++ [a], row1 m ++ [b], row2 m ++ [c]) = matToFrames m ++ [(a, b, c)].
Proof.
  intros [H1 H2]. rewrite !matToFrames_as_map. cbn [row0 row1 row2 fst snd].
  rewrite length_app. cbn [length]. rewrite Nat.add_1_r, seq_S, List.map_app.
  cbn [List.map Nat.add]. f_equal.
  - apply map_ext_in. intros i Hi. apply in_seq in Hi. unfold frameAt.
    cbn [row0 row1 row2 fst snd]. now rewrite !app_nth1 by lia.
  - unfold frameAt. cbn [row0 row1 row2 fst snd].
    replace (nth (length (row0 m)) (row1 m ++ [b]) 0%Q) with b
      by (rewrite <- H1; symmetry; apply nth_middle).
    replace (nth (length (row0 m)) (row2 m ++ [c]) 0%Q) with c
      by (rewrite <- H2; symmetry; apply nth_middle).
    now rewrite nth_middle.
Qed.

Lemma pushLatents_aligned (m : option SampleMatrix) (l : Latents) :
  aligned m -> aligned (pushLatents m l).
Proof.
  destruct m as [m'|]; [|trivial]. intros [H1 H2]. cbn. rewrite !length_app. cbn. lia.
Qed.

Lemma ensureMatrix_aligned (m : option SampleMatrix) : aligned m -> aligned (ensureMatrix m).
Proof. destruct m; [trivial|]. intros _. split; reflexivity. Qed.

(** What [appendSamples] does to the matrix of one eye. *)
Lemma appendSamples_matrixOf (buffer : CalibrationBuffer) (tc tl tr : option Z)
  (lc ll lr : Latents) (eye : Eye) :
  let ts := match eye with EyeCombined => tc | EyeLeft => tl | EyeRight => tr end in
  let sample := match eye with EyeCombined => lc | EyeLeft => ll | EyeRight => lr end in
  matrixOf eye (appendSamples buffer tc tl tr lc ll lr)
  = if isNewTimestamp ts (lastTSOf eye buffer)
    then pushLatents (ensureMatrix (matrixOf eye buffer)) sample
    else ensureMatrix (matrixOf eye buffer).
Proof.
  intros ts sample. subst ts sample. unfold appendSamples.
  destruct buffer as [c l r tc' tl' tr' o], eye; buffer_fields;
    destruct (isNewTimestamp tc tc') eqn:Ec; buffer_fields;
    destruct (isNewTimestamp tl tl') eqn:El; buffer_fields;
    destruct (isNewTimestamp tr tr') eqn:Er; buffer_fields;
    reflexivity.
Qed.

Lemma appendSamples_aligned (buffer : CalibrationBuffer) (tc tl tr : option Z)
  (lc ll lr : Latents) :
  alignedBuffer buffer -> alignedBuffer (appendSamples buffer tc tl tr lc ll lr).
Proof.
  intros (Hc & Hl & Hr).
  pose proof (appendSamples_matrixOf buffer tc tl tr lc ll lr EyeCombined) as Mc.
  pose proof (appendSamples_matrixOf buffer tc tl tr lc ll lr EyeLeft) as Ml.
  pose proof (appendSamples_matrixOf buffer tc tl tr lc ll lr EyeRight) as Mr.
  cbv zeta in Mc, Ml, Mr. cbn [matrixOf lastTSOf] in Mc, Ml, Mr.
  unfold alignedBuffer. rewrite Mc, Ml, Mr.
  repeat split;
    match goal with
    | |- aligned (if ?c then _ else _) => destruct c
    end; auto using pushLatents_aligned, ensureMatrix_aligned.
Qed.

Lemma samplesOf_ensure (m : option SampleMatrix) :
  match ensureMatrix m with Some m' => matToFrames m' | None => [] end
  = match m with Some m' => matToFrames m' | None => [] end.
Proof. now destruct m. Qed.

End Recording.

(** X15. On a buffer whose rows are aligned (one value per row and
    sample), [appendSamples] keeps the rows aligned and adds to the samples
    of each eye exactly one frame, made of the three unsupervised values of
    the eye's latents, when the eye's timestamp is new, and none
    otherwise. *)
Theorem appendSamples_adds_one_frame
  (buffer : Capture.CalibrationBuffer) (combinedTS leftTS rightTS : option Z)
  (latents latentsLeft latentsRight : Capture.Latents)
  (Haligned : Capture.alignedBuffer buffer) :
  let after := Capture.appendSamples buffer combinedTS leftTS rightTS
                 latents latentsLeft latentsRight in
  Capture.alignedBuffer after /\
  forall eye,
    let ts := match eye with
              | Types.EyeCombined => combinedTS
              | Types.EyeLeft => leftTS
              | Types.EyeRight => rightTS
              end in
    let sample := match eye with
                  | Types.EyeCombined => latents
                  | Types.EyeLeft => latentsLeft
                  | Types.EyeRight => latentsRight
                  end in
    Capture.samplesOf eye after
    = Capture.samplesOf eye buffer
      ++ (if Capture.isNewTimestamp ts (Capture.lastTSOf eye buffer)
          then [(Capture.unsupervised1 sample, Capture.unsupervised2 sample,
                 Capture.unsupervised3 sample)]
          else []).
Proof.
  intros after. split; [now apply appendSamples_aligned|].
  intros eye ts sample. unfold Capture.samplesOf, after.
  rewrite appendSamples_matrixOf. fold ts sample.
  assert (Hm : Capture.aligned (Capture.matrixOf eye buffer)).
  { destruct Haligned as (Hc & Hl & Hr). now destruct eye. }
  destruct (Capture.isNewTimestamp ts (Capture.lastTSOf eye buffer)).
  - destruct (Capture.matrixOf eye buffer) as [m|]; cbn [Capture.ensureMatrix Capture.pushLatents].
    + now apply matToFrames_push.
    + reflexivity.
  - rewrite samplesOf_ensure. now rewrite app_nil_r.
Qed.

Lemma appendSamples_adds_one_frame_witness :
  let buffer :=
    Capture.mkCalibrationBuffer (Some ([0.1], [0.2], [0.3])%Q) None None
                                (Some 5) None None true in
  let l := Capture.mkLatents 0.4 0.5 0.6 in
  let after := Capture.appendSamples buffer (Some 6) (Some 6) None l l l in
  Capture.alignedBuffer after /\
  Capture.samplesOf Types.EyeCombined after = [(0.1, 0.2, 0.3); (0.4, 0.5, 0.6)]%Q /\
  Capture.samplesOf Types.EyeLeft after = [(0.4, 0.5, 0.6)]%Q /\
  Capture.samplesOf Types.EyeRight after = [].
Proof.
  intros buffer l after.
  assert (Haligned : Capture.alignedBuffer buffer).
  { repeat split; reflexivity. }
  pose proof (appendSamples_adds_one_frame buffer (Some 6) (Some 6) None l l l Haligned)
    as [Ha Hs].
  split; [exact Ha|].
  split; [exact (Hs Types.EyeCombined)|]. split; [exact (Hs Types.EyeLeft)|].
  exact (Hs Types.EyeRight).
Defined.

(** X16. The first notification of a recording (the buffer is not ongoing)
    starts from an empty buffer whatever the buffer held: each eye then
    holds the one frame of the notification when its timestamp is present,
    also when that timestamp is the last one of the previous recording, and
    no frame when it is null; the buffer is ongoing and its rows are
    aligned. *)
Theorem recording_starts_empty
  (st : Pipeline.Status) (b : Capture.CalibrationBuffer)
  (Hidle : Capture.ongoing b = false) :
  let after := Pipeline.capture st b in
  after = Pipeline.appendFromStatus st (Capture.setOngoing true Capture.makeBuffer) /\
  Capture.ongoing after = true /\
  Capture.alignedBuffer after /\
  forall eye,
    let ts := match eye with
              | Types.EyeCombined => Pipeline.latentsTS st
              | Types.EyeLeft => Pipeline.latentsLeftTS st
              | Types.EyeRight => Pipeline.latentsRightTS st
              end in
    let sample := match eye with
                  | Types.EyeCombined => Pipeline.latents st
                  | Types.EyeLeft => Pipeline.latentsLeft st
                  | Types.EyeRight => Pipeline.latentsRight st
                  end in
    Capture.lastTSOf eye after = ts /\
    Capture.samplesOf eye after
    = match ts with
      | Some _ => [(Capture.unsupervised1 sample, Capture.unsupervised2 sample,
                    Capture.unsupervised3 sample)]
      | None => []
      end.
Proof.
  intros after.
  assert (Hafter : after
                   = Pipeline.appendFromStatus st (Capture.setOngoing true Capture.makeBuffer)).
  { unfold after, Pipeline.capture. now rewrite Hidle. }
  split; [exact Hafter|]. split; [apply capture_ongoing|].
  assert (Hfresh : Capture.alignedBuffer (Capture.setOngoing true Capture.makeBuffer)).
  { repeat split. }
  rewrite Hafter. unfold Pipeline.appendFromStatus.
  pose proof (appendSamples_aligned (Capture.setOngoing true Capture.makeBuffer)
                (Pipeline.latentsTS st) (Pipeline.latentsLeftTS st)
                (Pipeline.latentsRightTS st) (Pipeline.latents st)
                (Pipeline.latentsLeft st) (Pipeline.latentsRight st) Hfresh) as Ha.
  split; [exact Ha|].
  intros eye. split.
  - unfold Capture.appendSamples.
    destruct eye, (Pipeline.latentsTS st), (Pipeline.latentsLeftTS st),
      (Pipeline.latentsRightTS st); reflexivity.
  - unfold Capture.samplesOf. rewrite appendSamples_matrixOf. cbv zeta.
    destruct eye; cbn [Capture.lastTSOf Capture.matrixOf Capture.setOngoing
      Capture.makeBuffer Capture.lastCombinedTS Capture.lastLeftTS Capture.lastRightTS
      Capture.combined Capture.left Capture.right];
      match goal with
      | |- context [Capture.isNewTimestamp ?t None] => destruct t
      end; reflexivity.
Qed.

Lemma recording_starts_empty_witness :
  let l := Capture.mkLatents 0.4 0.5 0.6 in
  let st := Pipeline.mkStatus true false false l (Some 5) l None l (Some 5) in
  let b := Capture.mkCalibrationBuffer (Some ([0.1; 0.7], [0.2; 0.8], [0.3; 0.9])%Q) None None
             (Some 5) None None false in
  Capture.samplesOf Types.EyeCombined (Pipeline.capture st b) = [(0.4, 0.5, 0.6)]%Q /\
  Capture.samplesOf Types.EyeLeft (Pipeline.capture st b) = [].
Proof.
  intros l st b.
  pose proof (recording_starts_empty st b eq_refl) as (_ & _ & _ & Hs).
  split; [exact (proj2 (Hs Types.EyeCombined)) | exact (proj2 (Hs Types.EyeLeft))].
Defined.

(** ** Binary calibration over the three eyes *)

Section BinaryCalibration.
Import Types.

Variable fitBinary : list Vec3 -> list Q -> nat -> Q -> Model.
Variable shuffles : Eye -> list nat * list nat.

Local Abbreviation calibrateBinaryFor := (Pipeline.calibrateBinaryFor fitBinary shuffles).

Lemma hasSamples_none_r (m : option SampleMatrix) : Pipeline.hasSamples m && false = false.
Proof. apply andb_false_r. Qed.






End BinaryCalibration.


(** X18. The binary training set keeps the smaller recording whole: when
    the closed recording holds no more samples than the open one, the
    frames labelled 0 are a permutation of all closed frames, and when the
    open recording holds no more than the closed one, the frames labelled
    1 are a permutation of all open frames. *)
Theorem binary_training_keeps_smaller_class_whole
  (shuffledClosed shuffledOpen : list nat) (closed open : Types.SampleMatrix)
  (Hclosed : Permutation shuffledClosed (seq 0 (length (Types.row0 closed))))
  (Hopen : Permutation shuffledOpen (seq 0 (length (Types.row0 open)))) :
  let k := Nat.min (length (Types.row0 closed)) (length (Types.row0 open)) in
  let xs := fst (Binary.trainingSet shuffledClosed shuffledOpen closed open) in
  let ys := snd (Binary.trainingSet shuffledClosed shuffledOpen closed open) in
  ys = repeat 0%Q k ++ repeat 1%Q k /\
  length xs = (2 * k)%nat /\
  ((length (Types.row0 closed) <= length (Types.row0 open))%nat ->
   Permutation (firstn k xs) (Types.matToFrames closed)) /\
  ((length (Types.row0 open) <= length (Types.row0 closed))%nat ->
   Permutation (skipn k xs) (Types.matToFrames open)).
Proof.
  intros k xs ys.
  assert (Hxs : xs = List.map (Types.frameAt closed) (firstn k shuffledClosed)
                     ++ List.map (Types.frameAt open) (firstn k shuffledOpen)).
  { unfold xs, Binary.trainingSet. cbn [fst]. fold k. now rewrite !matToFrames_down. }
  destruct (firstn_of_permutation k _ _ Hclosed ltac:(subst k; lia)) as (Lc & _ & _).
  destruct (firstn_of_permutation k _ _ Hopen ltac:(subst k; lia)) as (Lo & _ & _).
  assert (Hlc : length (List.map (Types.frameAt closed) (firstn k shuffledClosed)) = k)
    by now rewrite length_map.
  split; [reflexivity|]. split.
  { rewrite Hxs, length_app, !length_map, Lc, Lo. lia. }
  split.
  - intros Hle. rewrite Hxs, firstn_app, Hlc, Nat.sub_diag, firstn_O, app_nil_r.
    rewrite firstn_all2 by lia.
    rewrite matToFrames_as_map.
    assert (Hk : k = length shuffledClosed).
    { rewrite (Permutation_length Hclosed), length_seq. subst k. lia. }
    rewrite Hk, firstn_all. now apply Permutation_map.
  - intros Hle. rewrite Hxs, skipn_app, Hlc, Nat.sub_diag, skipn_O.
    rewrite skipn_all2 by lia. cbn [app].
    rewrite matToFrames_as_map.
    assert (Hk : k = length shuffledOpen).
    { rewrite (Permutation_length Hopen), length_seq. subst k. lia. }
    rewrite Hk, firstn_all. now apply Permutation_map.
Qed.

Lemma binary_training_keeps_smaller_class_whole_witness :
  let closed : Types.SampleMatrix := ([0.1; 0.2]%Q, [0.3; 0.4]%Q, [0.5; 0.6]%Q) in
  let open : Types.SampleMatrix := ([0.7; 0.8; 0.9]%Q, [1; 1; 1]%Q, [0; 0; 0]%Q) in
  let xs := fst (Binary.trainingSet [1; 0]%nat [2; 0; 1]%nat closed open) in
  Permutation (firstn 2 xs) (Types.matToFrames closed).
Proof.
  intros closed open xs.
  assert (Hc : Permutation [1; 0]%nat (seq 0 (length (Types.row0 closed))))
    by apply perm_swap.
  assert (Ho : Permutation [2; 0; 1]%nat (seq 0 (length (Types.row0 open)))).
  { apply Permutation_sym. apply (Permutation_cons_app [2%nat] [1%nat] 0%nat).
    apply perm_swap. }
  destruct (binary_training_keeps_smaller_class_whole [1; 0]%nat [2; 0; 1]%nat closed open
              Hc Ho) as (_ & _ & H & _).
  apply H. cbn. lia.
Defined.

(** ** The composite loss: when it is defined, and its sign *)

Section LossDefined.
Import Types SmoothBlink.
Local Open Scope Q_scope.

Lemma sum_nonneg (xs : list Q) : Forall (fun x => 0 <= x) xs -> 0 <= sum xs.
Proof.
  induction 1 as [|x t Hx _ IH]; unfold sum in *; cbn [fold_right]; [apply Qle_refl|].
  replace 0 with (0 + 0) by reflexivity. now apply Qplus_le_compat.
Qed.

Lemma mean_nonneg (xs : list Q) (m : Q) :
  Forall (fun x => 0 <= x) xs -> mean xs = Some m -> 0 <= m.
Proof.
  intros Hall. unfold mean. destruct xs as [|x t] eqn:E; [discriminate|].
  rewrite <- E in *. intros [= <-].
  apply Qle_shift_div_l.
  - change 0 with (inject_Z 0). rewrite <- Zlt_Qlt. subst xs. cbn [length]. lia.
  - rewrite Qmult_0_l. now apply sum_nonneg.
Qed.

Lemma mean_defined (xs : list Q) :
  xs <> [] -> mean xs = Some (sum xs / inject_Z (Z.of_nat (length xs))).
Proof. destruct xs; [congruence | reflexivity]. Qed.

Lemma zipWith_Forall (P : Q -> Prop) (f : Q -> Q -> Q) (a b : list Q) :
  (forall x y, P (f x y)) -> Forall P (zipWith f a b).
Proof.
  intros Hf. revert b. induction a as [|x a' IH]; intros [|y b']; cbn; constructor; auto.
Qed.

Lemma elementwise_Forall (P : Q -> Prop) (f : Q -> Q -> Q) (a b l : list Q) :
  (forall x y, P (f x y)) -> elementwise f a b = Some l -> Forall P l.
Proof.
  intros Hf. unfold elementwise.
  destruct (length a =? length b)%nat.
  { intros [= <-]. now apply zipWith_Forall. }
  assert (Hmap : forall (g : Q -> Q) (l0 : list Q), (forall x, P (g x)) -> Forall P (List.map g l0)).
  { intros g l0 Hg. apply List.Forall_forall. intros z Hz.
    apply in_map_iff in Hz. destruct Hz as (u & <- & _). apply Hg. }
  destruct a as [|x [|x' a']].
  - destruct b as [|y [|y' b']]; intros [= <-]; constructor.
  - intros [= <-]. now apply Hmap.
  - destruct b as [|y [|y' b']]; try discriminate.
    intros [= <-]. now apply (Hmap (fun x0 => f x0 y) (x :: x' :: a')).
Qed.

Lemma squaredDifference_nonneg (a b : Q) : 0 <= squaredDifference a b.
Proof.
  unfold squaredDifference. set (x := a - b).
  destruct (Qlt_le_dec x 0) as [H|H].
  - assert (E : x * x == (- x) * (- x)) by ring. rewrite E.
    apply Qmult_le_0_compat; lra.
  - now apply Qmult_le_0_compat.
Qed.

Lemma relu_nonneg (x : Q) : 0 <= relu x.
Proof. unfold relu. apply Q.le_max_r. Qed.

Lemma loss_nonneg (sign peakSet valleySet : list Z) (y : list Q) (loss : Q) :
  makeCompositeLoss sign peakSet valleySet y = Some loss -> 0 <= loss.
Proof.
  unfold makeCompositeLoss.
  destruct (gather y (peakSet ++ valleySet)) as [yAnchor|]; [|discriminate].
  unfold meanSquaredError.
  destruct (elementwise squaredDifference _ yAnchor) as [losses|] eqn:El; [|discriminate].
  destruct (mean losses) as [anchorLoss|] eqn:Ea; [|discriminate].
  destruct y as [|y0 yNext]; [discriminate|].
  destruct (elementwise Qminus yNext _) as [diff|]; [|discriminate].
  destruct (elementwise Qmult _ diff) as [signed|]; [|discriminate].
  destruct (mean (List.map relu (List.map Qopp signed))) as [orderingLoss|] eqn:Eo;
    [|discriminate].
  intros [= <-].
  assert (Ha : 0 <= anchorLoss).
  { apply (mean_nonneg losses); [|exact Ea].
    apply (elementwise_Forall _ _ _ _ _ squaredDifference_nonneg El). }
  assert (Ho : 0 <= orderingLoss).
  { refine (mean_nonneg _ _ _ Eo).
    apply List.Forall_forall. intros z Hz. apply in_map_iff in Hz.
    destruct Hz as (u & <- & _). apply relu_nonneg. }
  nra.
Qed.

(** The loss is a number whenever the anchors are indices of the
    prediction, there is an anchor, two predictions or more, and one sign
    for each adjacent pair. *)
Lemma loss_defined (sign peakSet valleySet : list Z) (y : list Q) :
  (2 <= length y)%nat ->
  length sign = (length y - 1)%nat ->
  peakSet ++ valleySet <> [] ->
  Forall (fun i => (0 <= i < Z.of_nat (length y))%Z) (peakSet ++ valleySet) ->
  exists loss, makeCompositeLoss sign peakSet valleySet y = Some loss.
Proof.
  intros Hy Hsign Hne Hin. unfold makeCompositeLoss.
  rewrite (gather_in_range y _ Hin). unfold meanSquaredError.
  rewrite elementwise_same_length by now rewrite !length_map.
  rewrite mean_defined.
  2:{ intros Hnil. apply (f_equal (@length Q)) in Hnil.
      rewrite zipWith_length, !length_map, Nat.min_id in Hnil.
      destruct (peakSet ++ valleySet); [congruence | discriminate]. }
  destruct y as [|y0 yNext]; [cbn in Hy; lia|].
  cbn [length] in *. rewrite Nat.sub_succ, Nat.sub_0_r in *.
  assert (Hcurr : length (firstn (length yNext) (y0 :: yNext)) = length yNext).
  { rewrite length_firstn. cbn [length]. lia. }
  rewrite elementwise_same_length by now rewrite Hcurr.
  rewrite elementwise_same_length
    by now rewrite length_map, zipWith_length, Hcurr, Nat.min_id.
  rewrite mean_defined.
  2:{ intros Hnil. apply (f_equal (@length Q)) in Hnil.
      rewrite !length_map, !zipWith_length, length_map, Hcurr, Hsign, !Nat.min_id in Hnil.
      cbn in Hnil. lia. }
  eexists. reflexivity.
Qed.

Lemma setOf_subset (xs : list Z) (x : Z) : In x (setOf xs) -> In x xs.
Proof.
  induction xs as [|a t IH]; [intros []|]. cbn [setOf].
  intros [-> | Hx]; [now left|]. right. apply IH.
  apply filter_In in Hx. tauto.
Qed.

Lemma setOf_nonempty (xs : list Z) : xs <> [] -> setOf xs <> [].
Proof. destruct xs; [congruence | discriminate]. Qed.

End LossDefined.

(** X19. Whenever the composite loss is a number it is not negative,
    whatever the ordering signs, the anchors and the predictions are. *)
Theorem composite_loss_is_never_negative
  (orderingSign peakSet valleySet : list Z) (y : list Q) (loss : Q)
  (Hloss : SmoothBlink.makeCompositeLoss orderingSign peakSet valleySet y = Some loss) :
  (0 <= loss)%Q.
Proof. exact (loss_nonneg _ _ _ _ _ Hloss). Qed.

Lemma composite_loss_is_never_negative_witness :
  exists loss,
    SmoothBlink.makeCompositeLoss [1; -1] [1] [0; 2] [0.2; 0.9; 0.3]%Q = Some loss /\
    (0 <= loss)%Q.
Proof.
  eexists. split; [vm_compute; reflexivity|].
  apply (composite_loss_is_never_negative [1; -1] [1] [0; 2] [0.2; 0.9; 0.3]%Q).
  vm_compute. reflexivity.
Defined.

(** X20. The composite loss is a number (it neither throws nor is NaN),
    and not a negative one, whenever there are two predictions or more, one
    ordering sign for each adjacent pair, at least one anchor, and every
    anchor is an index of the predictions. *)
Theorem composite_loss_is_defined
  (orderingSign peakSet valleySet : list Z) (y : list Q)
  (Hy : (2 <= length y)%nat)
  (Hsign : length orderingSign = (length y - 1)%nat)
  (Hanchor : peakSet ++ valleySet <> [])
  (Hinside : Forall (fun i => 0 <= i < Z.of_nat (length y)) (peakSet ++ valleySet)) :
  exists loss,
    SmoothBlink.makeCompositeLoss orderingSign peakSet valleySet y = Some loss /\
    (0 <= loss)%Q.
Proof.
  destruct (loss_defined orderingSign peakSet valleySet y Hy Hsign Hanchor Hinside)
    as (loss & Hloss).
  exists loss. split; [exact Hloss|].
  exact (loss_nonneg _ _ _ _ _ Hloss).
Qed.

Lemma composite_loss_is_defined_witness :
  exists loss,
    SmoothBlink.makeCompositeLoss [1; -1] [1] [0; 2] [0.2; 0.9; 0.3]%Q = Some loss /\
    (0 <= loss)%Q.
Proof.
  apply (composite_loss_is_defined [1; -1] [1] [0; 2] [0.2; 0.9; 0.3]%Q).
  - cbn. lia.
  - reflexivity.
  - discriminate.
  - repeat constructor; cbn; lia.
Defined.

(** X21. The loss the blink training step hands to the optimiser is a
    non-negative number on every prediction vector that has one entry for
    each recorded sample: whenever the step trains, the ordering signs
    exist and the composite loss built from them and from the sets of the
    labelled peaks and valleys is defined there. *)
Theorem blink_training_loss_is_defined
  (fit : list Types.Vec3 -> (list Q -> option Q) -> nat -> Q -> Types.Model)
  (eye : Types.Eye) (w : Pipeline.World) :
  exists w',
    Pipeline.runBlinkInferenceAndTrainForEye fit eye w = Some w' /\
    (Pipeline.trainCalls w' = Pipeline.trainCalls w \/
     exists data sign,
       Pipeline.trainCalls w'
       = Pipeline.trainCalls w ++ [Pipeline.TrainSmooth eye data Pipeline.blinkOpts] /\
       SmoothBlink.orderingSigns (length (Types.row0 (SmoothBlink.latents data))) data
       = Some sign /\
       forall y,
         length y = length (Types.row0 (SmoothBlink.latents data)) ->
         exists loss,
           SmoothBlink.makeCompositeLoss sign (SmoothBlink.setOf (SmoothBlink.peaks data))
             (SmoothBlink.setOf (SmoothBlink.valleys data)) y = Some loss /\
           (0 <= loss)%Q).
Proof.
  destruct (runBlink_total fit eye w) as (w' & Hrun & _ & _ & _ & Hcalls).
  exists w'. split; [exact Hrun|].
  destruct Hcalls as [[Hsame _] | (data & sign & Hc & _ & Hp & Hv & Fp & Fv & Hfour & Hs & Hl & _)];
    [now left | right].
  exists data, sign. split; [exact Hc|]. split; [exact Hs|].
  intros y Hy.
  destruct (loss_defined sign (SmoothBlink.setOf (SmoothBlink.peaks data))
              (SmoothBlink.setOf (SmoothBlink.valleys data)) y) as (loss & Hloss).
  - lia.
  - now rewrite Hy.
  - intros Hnil. apply app_eq_nil in Hnil. destruct Hnil as [Hnil _].
    now apply setOf_nonempty in Hnil.
  - rewrite Hy. apply Forall_app. split; apply List.Forall_forall; intros i Hi;
      apply setOf_subset in Hi.
    + exact (proj1 (List.Forall_forall _ _) Fp i Hi).
    + exact (proj1 (List.Forall_forall _ _) Fv i Hi).
  - exists loss. split; [exact Hloss|]. exact (loss_nonneg _ _ _ _ _ Hloss).
Qed.

(** ** The labelled extrema as index lists *)

Section ExtremaLists.
Import Labeler LabelerSpec.

Lemma indicesOf_subset (st : State) (evs : list (nat * State)) (x : nat) :
  In x (indicesOf st evs) -> In x (List.map fst evs).
Proof.
  unfold indicesOf. intros H. apply in_map_iff in H. destruct H as (e & <- & He).
  apply filter_In in He. apply in_map. tauto.
Qed.

Lemma inTurn_sorted (evs : list (nat * State)) :
  inTurn evs -> StronglySorted lt (List.map fst evs).
Proof.
  intros Hturn. apply Sorted_StronglySorted; [intros a b c; apply Nat.lt_trans|].
  induction evs as [|a t IH]; [constructor|].
  destruct t as [|b t'].
  - repeat constructor.
  - destruct Hturn as (Hab & _ & Hrest). cbn [List.map]. constructor.
    + apply IH, Hrest.
    + constructor. exact Hab.
Qed.

Lemma indicesOf_sorted (st : State) (evs : list (nat * State)) :
  StronglySorted lt (List.map fst evs) -> StronglySorted lt (indicesOf st evs).
Proof.
  induction evs as [|a t IH]; [constructor|]. cbn [List.map]. intros Hs.
  apply StronglySorted_inv in Hs. destruct Hs as [Ht Ha].
  rewrite indicesOf_cons. destruct (sameState (snd a) st); cbn [app]; [|now apply IH].
  constructor; [now apply IH|].
  apply List.Forall_forall. intros x Hx. apply indicesOf_subset in Hx.
  exact (proj1 (List.Forall_forall _ _) Ha x Hx).
Qed.

Lemma indicesOf_disjoint (evs : list (nat * State)) (x : nat) :
  StronglySorted lt (List.map fst evs) ->
  In x (indicesOf OPEN evs) -> In x (indicesOf CLOSED evs) -> False.
Proof.
  induction evs as [|a t IH]; [intros _ []|]. cbn [List.map]. intros Hs.
  apply StronglySorted_inv in Hs. destruct Hs as [Ht Ha].
  rewrite !indicesOf_cons. intros Ho Hc.
  assert (Hlt : forall y, In y (List.map fst t) -> (fst a < y)%nat)
    by exact (proj1 (List.Forall_forall _ _) Ha).
  apply in_app_or in Ho. apply in_app_or in Hc.
  destruct Ho as [Ho | Ho], Hc as [Hc | Hc].
  - destruct (snd a); cbn in Ho, Hc; tauto.
  - assert (x = fst a) by (destruct (sameState (snd a) OPEN); cbn in Ho; intuition congruence).
    apply indicesOf_subset, Hlt in Hc. lia.
  - assert (x = fst a) by (destruct (sameState (snd a) CLOSED); cbn in Hc; intuition congruence).
    apply indicesOf_subset, Hlt in Ho. lia.
  - now apply IH.
Qed.

Lemma sorted_of_nat (l : list nat) :
  StronglySorted lt l -> StronglySorted Z.lt (List.map Z.of_nat l).
Proof.
  induction 1 as [|a t Ht IH Ha]; cbn [List.map]; constructor; [exact IH|].
  apply List.Forall_forall. intros z Hz. apply in_map_iff in Hz.
  destruct Hz as (n & <- & Hn).
  pose proof (proj1 (List.Forall_forall _ _) Ha n Hn). lia.
Qed.

Lemma sorted_removelast (l : list Z) :
  StronglySorted Z.lt l -> StronglySorted Z.lt (removelast l).
Proof.
  induction 1 as [|a t Ht IH Ha]; [constructor|].
  destruct t as [|b t']; [constructor|].
  change (removelast (a :: b :: t')) with (a :: removelast (b :: t')).
  constructor; [exact IH|].
  apply List.Forall_forall. intros z Hz. apply removelast_In in Hz.
  exact (proj1 (List.Forall_forall _ _) Ha z Hz).
Qed.

Lemma sorted_tl (l : list Z) : StronglySorted Z.lt l -> StronglySorted Z.lt (tl l).
Proof. destruct 1; [constructor | assumption]. Qed.

Lemma tl_In (x : Z) (l : list Z) : In x (tl l) -> In x l.
Proof. destruct l; [intros [] | now right]. Qed.

(** What the pairing block keeps. *)
Lemma ensurePairing_keeps (ps vs : list Z) :
  StronglySorted Z.lt ps -> StronglySorted Z.lt vs ->
  StronglySorted Z.lt (fst (ensurePairing ps vs)) /\
  StronglySorted Z.lt (snd (ensurePairing ps vs)) /\
  (forall x, In x (fst (ensurePairing ps vs)) -> In x ps) /\
  (forall x, In x (snd (ensurePairing ps vs)) -> In x vs).
Proof.
  intros Hps Hvs. unfold ensurePairing.
  destruct ps as [|p ps']; [repeat split; auto|].
  destruct vs as [|v vs']; [repeat split; auto|].
  cbn [fst snd].
  destruct (indexLt (JsArray.get (p :: ps') 0) (JsArray.get (v :: vs') 0));
    match goal with
    | |- context [if ?c then _ else _] => destruct c
    end; repeat split;
    auto using sorted_removelast, sorted_tl, removelast_In, tl_In.
Qed.

(** [new Set(xs)] of a strictly increasing list is the list. *)
Lemma setOf_sorted (xs : list Z) : StronglySorted Z.lt xs -> SmoothBlink.setOf xs = xs.
Proof.
  induction 1 as [|a t Ht IH Ha]; [reflexivity|].
  cbn [SmoothBlink.setOf]. rewrite IH. f_equal.
  clear IH Ht. induction Ha as [|b t' Hb _ IH]; [reflexivity|].
  cbn [List.filter]. destruct (Z.eqb_spec b a) as [E|_]; [lia|].
  cbn [negb]. now rewrite IH.
Qed.

Lemma labelBlinkExtrema_lists (pred : list Q) (ex : Extremes) :
  labelBlinkExtrema pred = Some ex ->
  StronglySorted Z.lt (peaks ex) /\
  StronglySorted Z.lt (valleys ex) /\
  (forall i, In i (peaks ex) -> In i (valleys ex) -> False).
Proof.
  unfold labelBlinkExtrema, labelBlinkExtremaWith.
  destruct (Smoother.smoothSeries pred) as [|y0 t] eqn:E.
  { intros [= <-]. cbn. repeat split; try constructor. intros i []. }
  destruct (scanSegments_spec OPEN_TH_FIXED CLOSE_TH_FIXED (y0 :: t)
              fixed_thresholds_apart ltac:(discriminate)) as (sc & Hscan & Hps & Hvs & _).
  destruct (all_events_settled OPEN_TH_FIXED CLOSE_TH_FIXED (y0 :: t)
              fixed_thresholds_apart ltac:(discriminate)) as (Hp & Hv & Hturn).
  rewrite Hscan. rewrite Hp in Hps. rewrite Hv in Hvs.
  apply inTurn_sorted in Hturn.
  set (evs := specAllEvents OPEN_TH_FIXED CLOSE_TH_FIXED (y0 :: t)) in *.
  assert (Sp : StronglySorted Z.lt (foundPeaks sc)).
  { rewrite Hps. now apply sorted_of_nat, indicesOf_sorted. }
  assert (Sv : StronglySorted Z.lt (foundValleys sc)).
  { rewrite Hvs. now apply sorted_of_nat, indicesOf_sorted. }
  destruct (ensurePairing_keeps _ _ Sp Sv) as (Kp & Kv & Ip & Iv).
  destruct (ensurePairing (foundPeaks sc) (foundValleys sc)) as [ps vs].
  intros [= <-]. cbn [peaks valleys fst snd] in *.
  split; [exact Kp|]. split; [exact Kv|].
  intros i Hi Hj. apply Ip in Hi. apply Iv in Hj. rewrite Hps in Hi. rewrite Hvs in Hj.
  apply in_map_iff in Hi, Hj. destruct Hi as (a & <- & Ha). destruct Hj as (b & Hb & Hb').
  apply Nat2Z.inj in Hb. subst b.
  exact (indicesOf_disjoint evs a Hturn Ha Hb').
Qed.

End ExtremaLists.

(** X22. The peaks the labeller returns are strictly increasing, so are
    its valleys, and no index is both a peak and a valley; hence the sets
    that training builds from the two lists hold their elements once and in
    the same order: [new Set] removes nothing. *)
Theorem labelled_extrema_are_increasing_and_disjoint
  (pred : list Q) (ex : Labeler.Extremes)
  (Hlabel : Labeler.labelBlinkExtrema pred = Some ex) :
  StronglySorted Z.lt (Labeler.peaks ex) /\
  StronglySorted Z.lt (Labeler.valleys ex) /\
  (forall i, In i (Labeler.peaks ex) -> In i (Labeler.valleys ex) -> False) /\
  SmoothBlink.setOf (Labeler.peaks ex) = Labeler.peaks ex /\
  SmoothBlink.setOf (Labeler.valleys ex) = Labeler.valleys ex.
Proof.
  destruct (labelBlinkExtrema_lists pred ex Hlabel) as (Sp & Sv & Hdisj).
  repeat split; try assumption; now apply setOf_sorted.
Qed.

Lemma labelled_extrema_witness :
  let pred := (repeat 0 8 ++ repeat 1 8 ++ repeat 0 8)%Q in
  let ex := Labeler.mkExtremes (Smoother.smoothSeries pred) [12] [0; 23] in
  Labeler.labelBlinkExtrema pred = Some ex /\
  SmoothBlink.setOf (Labeler.peaks ex) = [12] /\
  SmoothBlink.setOf (Labeler.valleys ex) = [0; 23].
Proof.
  intros pred ex.
  assert (Hlabel : Labeler.labelBlinkExtrema pred = Some ex) by (vm_compute; reflexivity).
  split; [exact Hlabel|].
  destruct (labelled_extrema_are_increasing_and_disjoint pred ex Hlabel)
    as (_ & _ & _ & Hp & Hv).
  split; [exact Hp | exact Hv].
Defined.

(** ** The MJPEG stream reader *)

Section FindSequence.
Import JsArray Camera.

Lemma sameElement_eq (x y : option Z) : sameElement x y = true <-> x = y.
Proof.
  destruct x as [a|], y as [b|]; cbn; try (split; congruence).
  rewrite Z.eqb_eq. split; congruence.
Qed.

Lemma occursAt_iff (buffer sq : Bytes) (k : nat) :
  occursAt buffer sq k <->
  (k + length sq <= length buffer)%nat /\ firstn (length sq) (skipn k buffer) = sq.
Proof.
  split.
  - intros (pre & post & -> & <-). split.
    + rewrite !length_app. lia.
    + rewrite skipn_app, skipn_all, Nat.sub_diag, skipn_O. cbn [app].
      rewrite firstn_app, firstn_all, Nat.sub_diag, firstn_O. apply app_nil_r.
  - intros [Hlen Heq]. exists (firstn k buffer), (skipn (length sq) (skipn k buffer)). split.
    + rewrite <- Heq at 1. now rewrite firstn_skipn, firstn_skipn.
    + rewrite length_firstn. lia.
Qed.

Lemma foundAt_spec (buffer sq : Bytes) (k : nat) :
  (k + length sq <= length buffer)%nat ->
  foundAt buffer sq (Z.of_nat k) = true <-> occursAt buffer sq k.
Proof.
  intros Hlen. rewrite occursAt_iff. unfold foundAt.
  change 0 with (Z.of_nat 0). rewrite range_of_nat, forallb_forall.
  split.
  - intros Hall. split; [exact Hlen|]. apply nth_error_ext. intros j.
    rewrite nth_error_firstn, nth_error_skipn.
    destruct (Nat.ltb_spec j (length sq)) as [Hj|Hj].
    + specialize (Hall (Z.of_nat j)). rewrite <- Nat2Z.inj_add, !get_of_nat in Hall.
      apply sameElement_eq, Hall, in_map, in_seq. lia.
    + symmetry. now apply nth_error_None.
  - intros [_ Heq] z Hz. apply in_map_iff in Hz. destruct Hz as (j & <- & Hj).
    apply in_seq in Hj. rewrite <- Nat2Z.inj_add, !get_of_nat. apply sameElement_eq.
    rewrite <- Heq at 1. rewrite nth_error_firstn, nth_error_skipn.
    destruct (Nat.ltb_spec j (length sq)); [reflexivity | lia].
Qed.

(** The linear search: the first index from [i] on, among the [n] tried,
    where the inner loop succeeds. *)
Lemma findFrom_spec (buffer sq : Bytes) (n i : nat) :
  let r := findFrom buffer sq (Z.of_nat i) n in
  (r = -1 /\ forall k, (i <= k < i + n)%nat -> foundAt buffer sq (Z.of_nat k) = false) \/
  (exists k, r = Z.of_nat k /\ (i <= k < i + n)%nat /\
             foundAt buffer sq (Z.of_nat k) = true /\
             forall k', (i <= k' < k)%nat -> foundAt buffer sq (Z.of_nat k') = false).
Proof.
  revert i. induction n as [|n IH]; intros i; cbn [findFrom].
  - left. split; [reflexivity|]. intros k Hk. lia.
  - destruct (foundAt buffer sq (Z.of_nat i)) eqn:E.
    + right. exists i. split; [reflexivity|]. split; [lia|]. split; [exact E|].
      intros k' Hk'. lia.
    + replace (Z.of_nat i + 1) with (Z.of_nat (S i)) by lia.
      destruct (IH (S i)) as [[Hr Hnone] | (k & Hr & Hk & Hf & Hfirst)].
      * left. split; [exact Hr|]. intros k Hk.
        destruct (Nat.eq_dec k i) as [->|Hne]; [exact E | apply Hnone; lia].
      * right. exists k. split; [exact Hr|]. split; [lia|]. split; [exact Hf|].
        intros k' Hk'. destruct (Nat.eq_dec k' i) as [->|Hne]; [exact E | apply Hfirst; lia].
Qed.

(** [findSequence] returns the index of the first occurrence, and [-1]
    exactly when there is none. *)
Lemma findSequence_spec (buffer sq : Bytes) :
  (findSequence buffer sq = -1 /\ forall k, ~ occursAt buffer sq k) \/
  (exists k, findSequence buffer sq = Z.of_nat k /\ occursAt buffer sq k /\
             forall k', (k' < k)%nat -> ~ occursAt buffer sq k').
Proof.
  unfold findSequence.
  set (n := Z.to_nat (Z.of_nat (length buffer) - Z.of_nat (length sq) + 1)).
  assert (Hn : forall k, (k < n)%nat <-> (k + length sq <= length buffer)%nat)
    by (intros k; unfold n; lia).
  change 0 with (Z.of_nat 0).
  destruct (findFrom_spec buffer sq n 0) as [[Hr Hnone] | (k & Hr & Hk & Hf & Hfirst)].
  - left. split; [exact Hr|]. intros k Hocc.
    pose proof (proj1 (occursAt_iff _ _ _) Hocc) as [Hlen _].
    apply (foundAt_spec _ _ _ Hlen) in Hocc.
    rewrite Hnone in Hocc by (apply Hn in Hlen; lia). discriminate.
  - right. exists k. split; [exact Hr|].
    assert (Hlen : (k + length sq <= length buffer)%nat) by (apply Hn; lia).
    split; [now apply (foundAt_spec _ _ _ Hlen)|].
    intros k' Hk' Hocc.
    pose proof (proj1 (occursAt_iff _ _ _) Hocc) as [Hlen' _].
    apply (foundAt_spec _ _ _ Hlen') in Hocc.
    rewrite Hfirst in Hocc by lia. discriminate.
Qed.

(** The first occurrence determines the result. *)
Lemma findSequence_first (buffer sq : Bytes) (k : nat) :
  occursAt buffer sq k -> (forall k', (k' < k)%nat -> ~ occursAt buffer sq k') ->
  findSequence buffer sq = Z.of_nat k.
Proof.
  intros Hocc Hfirst.
  destruct (findSequence_spec buffer sq) as [[_ Hnone] | (k0 & -> & Hocc0 & Hfirst0)].
  - now apply Hnone in Hocc.
  - f_equal. destruct (Nat.lt_trichotomy k0 k) as [H | [H | H]]; [|exact H|].
    + now apply Hfirst in H.
    + now apply Hfirst0 in H.
Qed.

Lemma findSequence_none (buffer sq : Bytes) :
  (forall k, ~ occursAt buffer sq k) -> findSequence buffer sq = -1.
Proof.
  intros Hnone.
  destruct (findSequence_spec buffer sq) as [[H _] | (k0 & _ & Hocc0 & _)]; [exact H|].
  now apply Hnone in Hocc0.
Qed.

(** An occurrence in a prefix is one in the whole, and an occurrence in
    the whole that ends inside the prefix is one in the prefix. *)
Lemma occursAt_app (a b sq : Bytes) (k : nat) :
  (k + length sq <= length a)%nat ->
  occursAt (a ++ b) sq k <-> occursAt a sq k.
Proof.
  intros Hlen. rewrite !occursAt_iff, length_app.
  rewrite skipn_app, firstn_app, length_skipn.
  replace (length sq - (length a - k))%nat with O by lia.
  rewrite firstn_O, app_nil_r. split; intros [_ H]; (split; [lia | exact H]).
Qed.

(** Appending to the buffer does not move a sequence already found. *)
Lemma findSequence_app (a b sq : Bytes) (k : nat) :
  findSequence a sq = Z.of_nat k -> findSequence (a ++ b) sq = Z.of_nat k.
Proof.
  intros Hfind.
  destruct (findSequence_spec a sq) as [[H _] | (k0 & Hk0 & Hocc & Hfirst)]; [lia|].
  assert (k0 = k) by lia. subst k0.
  pose proof (proj1 (occursAt_iff _ _ _) Hocc) as [Hlen _].
  apply findSequence_first.
  - now apply occursAt_app.
  - intros k' Hk' Hocc'. apply (Hfirst k' Hk').
    apply (occursAt_app a b sq k'); [lia | exact Hocc'].
Qed.

End FindSequence.

(** X23. [findSequence] returns the index of the first occurrence of the
    sequence in the buffer, and -1 exactly when the sequence does not occur
    in it; appending bytes to the buffer does not change an index that was
    found. *)
Theorem findSequence_finds_first_occurrence (buffer sq more : Camera.Bytes) :
  let r := Camera.findSequence buffer sq in
  ((r = -1 /\ forall k, ~ Camera.occursAt buffer sq k) \/
   (exists k, r = Z.of_nat k /\ Camera.occursAt buffer sq k /\
              (k + length sq <= length buffer)%nat /\
              forall k', (k' < k)%nat -> ~ Camera.occursAt buffer sq k')) /\
  (r <> -1 -> Camera.findSequence (Camera.concatUint8Arrays buffer more) sq = r).
Proof.
  intros r. split.
  - destruct (findSequence_spec buffer sq) as [H | (k & Hr & Hocc & Hfirst)];
      [now left | right].
    exists k. split; [exact Hr|]. split; [exact Hocc|]. split; [|exact Hfirst].
    now apply occursAt_iff in Hocc.
  - intros Hr. unfold Camera.concatUint8Arrays, r in *.
    destruct (findSequence_spec buffer sq) as [[H _] | (k & Hk & _)]; [congruence|].
    rewrite Hk. now apply findSequence_app.
Qed.

Section DrainFacts.
Import JsArray Camera.

Variable boundary headerTerminator : Bytes.
Hypothesis boundary_nonempty : boundary <> [].

Local Abbreviation drainLoop := (Camera.drainLoop boundary headerTerminator).
Local Abbreviation drain := (Camera.drain boundary headerTerminator).
Local Abbreviation framesOfPart := (Camera.framesOfPart headerTerminator).
Local Abbreviation readAll := (Camera.readAll boundary headerTerminator).

Lemma boundary_length : (0 < length boundary)%nat.
Proof. destruct boundary; [congruence | cbn; lia]. Qed.

Lemma slice_prefix (k : nat) (xs : Bytes) :
  (k <= length xs)%nat -> slice 0 (Z.of_nat k) xs = firstn k xs.
Proof.
  intros Hk. rewrite slice_inside by lia.
  change (Z.to_nat 0) with O. now rewrite Nat2Z.id, Nat.sub_0_r, skipn_O.
Qed.

Lemma sliceFrom_suffix (k : nat) (xs : Bytes) :
  (k <= length xs)%nat -> sliceFrom (Z.of_nat k) xs = skipn k xs.
Proof.
  intros Hk. unfold sliceFrom. rewrite slice_inside by lia.
  rewrite !Nat2Z.id. apply firstn_all2. rewrite length_skipn. lia.
Qed.

(** Cutting the buffer at a boundary. *)
Lemma cut_at (pre post : Bytes) :
  slice 0 (Z.of_nat (length pre)) (pre ++ boundary ++ post) = pre /\
  sliceFrom (Z.of_nat (length pre) + Z.of_nat (length boundary)) (pre ++ boundary ++ post)
  = post.
Proof.
  split.
  - rewrite slice_prefix by (rewrite length_app; lia).
    rewrite firstn_app, firstn_all, Nat.sub_diag, firstn_O. apply app_nil_r.
  - rewrite <- Nat2Z.inj_add.
    rewrite sliceFrom_suffix by (rewrite !length_app; lia).
    rewrite app_assoc, <- length_app.
    now rewrite skipn_app, skipn_all, Nat.sub_diag, skipn_O.
Qed.

(** One iteration of the loop on a buffer where the boundary was found. *)
Lemma found_boundary (buffer : Bytes) (k : nat) :
  findSequence buffer boundary = Z.of_nat k ->
  exists pre post,
    buffer = pre ++ boundary ++ post /\ length pre = k /\
    findSequence (pre ++ boundary) boundary = Z.of_nat k.
Proof.
  intros Hfind.
  destruct (findSequence_spec buffer boundary) as [[H _] | (k0 & Hk0 & Hocc & Hfirst)]; [lia|].
  assert (k0 = k) by lia. subst k0.
  destruct Hocc as (pre & post & Hb & Hpre). exists pre, post.
  split; [exact Hb|]. split; [exact Hpre|].
  apply findSequence_first.
  - exists pre, []. now rewrite app_nil_r.
  - intros k' Hk' Hocc'. apply (Hfirst k' Hk'). rewrite Hb, app_assoc.
    apply occursAt_app; [|exact Hocc'].
    apply occursAt_iff in Hocc'. tauto.
Qed.

Lemma drainLoop_fuel (f1 f2 : nat) (buffer : Bytes) :
  (length buffer < f1)%nat -> (length buffer < f2)%nat ->
  drainLoop f1 buffer = drainLoop f2 buffer.
Proof.
  revert f2 buffer. induction f1 as [|f1 IH]; intros f2 buffer H1 H2; [lia|].
  destruct f2 as [|f2]; [lia|]. cbn [Camera.drainLoop].
  destruct (findSequence_spec buffer boundary) as [[-> _] | (k & Hk & _)]; [reflexivity|].
  rewrite Hk. destruct (Z.eqb_spec (Z.of_nat k) (-1)) as [E|_]; [lia|].
  destruct (found_boundary buffer k Hk) as (pre & post & -> & <- & _).
  destruct (cut_at pre post) as [_ ->].
  pose proof boundary_length as Hlen.
  rewrite (IH f2 post); [reflexivity| |]; rewrite !length_app in *; lia.
Qed.

(** The loop, one iteration unfolded. *)
Lemma drain_found (pre post : Bytes) :
  findSequence (pre ++ boundary ++ post) boundary = Z.of_nat (length pre) ->
  drain (pre ++ boundary ++ post)
  = match drain post with
    | Some (frames, rest) => Some (framesOfPart pre ++ frames, rest)
    | None => None
    end.
Proof.
  intros Hfind. unfold Camera.drain at 1. cbn [Camera.drainLoop]. rewrite Hfind.
  destruct (Z.eqb_spec (Z.of_nat (length pre)) (-1)) as [E|_]; [lia|].
  destruct (cut_at pre post) as [-> ->].
  pose proof boundary_length as Hlen.
  rewrite (drainLoop_fuel _ (S (length post)) post); [reflexivity| |]; rewrite ?length_app; lia.
Qed.

Lemma drain_none (buffer : Bytes) :
  findSequence buffer boundary = -1 -> drain buffer = Some ([], buffer).
Proof. intros H. unfold Camera.drain. cbn [Camera.drainLoop]. now rewrite H. Qed.

(** The loop ends, and what it returns: the buffer is the parts, each
    followed by the boundary, and the rest; the boundary occurs in no part
    before its end and not in the rest; the frames are those of the parts,
    in order. *)
Lemma drain_spec (n : nat) (buffer : Bytes) :
  (length buffer < n)%nat ->
  exists parts rest,
    drain buffer = Some (flat_map framesOfPart parts, rest) /\
    buffer = joined boundary parts rest /\
    Forall (fun p => findSequence (p ++ boundary) boundary = Z.of_nat (length p)) parts /\
    findSequence rest boundary = -1.
Proof.
  revert buffer. induction n as [|n IH]; intros buffer Hn; [lia|].
  destruct (findSequence_spec buffer boundary) as [[Hnone _] | (k & Hk & _)].
  - exists [], buffer. split; [now apply drain_none|]. repeat split; [constructor | exact Hnone].
  - destruct (found_boundary buffer k Hk) as (pre & post & Hb & Hpre & Hpart).
    pose proof boundary_length as Hlen.
    destruct (IH post) as (parts & rest & Hdrain & Hjoin & Hparts & Hrest).
    { rewrite Hb, !length_app in Hn. lia. }
    exists (pre :: parts), rest. subst buffer k.
    split; [|split; [|split]].
    + rewrite (drain_found pre post Hk), Hdrain. reflexivity.
    + unfold joined in *. cbn [List.map concat]. rewrite Hjoin at 1.
      now rewrite <- !app_assoc.
    + constructor; assumption.
    + exact Hrest.
Qed.

(** Draining a buffer and then the rest with more bytes appended gives
    what draining all the bytes at once gives. *)
Lemma drain_app (n : nat) (a b : Bytes) :
  (length a < n)%nat ->
  exists f1 r1 f2 r2,
    drain a = Some (f1, r1) /\ drain (r1 ++ b) = Some (f2, r2) /\
    drain (a ++ b) = Some (f1 ++ f2, r2).
Proof.
  revert a. induction n as [|n IH]; intros a Hn; [lia|].
  destruct (findSequence_spec a boundary) as [[Hnone _] | (k & Hk & _)].
  - destruct (drain_spec (S (length (a ++ b))) (a ++ b) ltac:(lia))
      as (parts & rest & Hdrain & _).
    exists [], a, (flat_map framesOfPart parts), rest.
    split; [now apply drain_none|]. split; [exact Hdrain | exact Hdrain].
  - destruct (found_boundary a k Hk) as (pre & post & Ha & Hpre & _).
    pose proof boundary_length as Hlen. subst a k.
    destruct (IH post) as (f1 & r1 & f2 & r2 & H1 & H2 & H12).
    { rewrite !length_app in Hn. lia. }
    exists (framesOfPart pre ++ f1), r1, f2, r2.
    split; [|split; [exact H2|]].
    + now rewrite (drain_found pre post Hk), H1.
    + apply (findSequence_app _ b) in Hk. rewrite <- !app_assoc in *.
      rewrite (drain_found pre (post ++ b) Hk), H12. now rewrite app_assoc.
Qed.

(** Reading chunk by chunk from a drained buffer gives what draining the
    buffer followed by all chunks gives. *)
Lemma readAll_spec (chunks : list Bytes) (buffer : Bytes) :
  findSequence buffer boundary = -1 ->
  exists frames rest,
    readAll chunks buffer = Some (frames, rest) /\
    drain (buffer ++ concat chunks) = Some (frames, rest).
Proof.
  revert buffer. induction chunks as [|value later IH]; intros buffer Hdrained.
  - exists [], buffer. split; [reflexivity|]. cbn [concat]. rewrite app_nil_r.
    now apply drain_none.
  - cbn [Camera.readAll concat]. unfold concatUint8Arrays.
    destruct (drain_app (S (length (buffer ++ value))) (buffer ++ value) (concat later)
                ltac:(lia)) as (f1 & r1 & f2 & r2 & H1 & H2 & H12).
    assert (Hr1 : findSequence r1 boundary = -1).
    { destruct (drain_spec (S (length (buffer ++ value))) (buffer ++ value) ltac:(lia))
        as (parts & rest & Hdrain & _ & _ & Hrest).
      rewrite H1 in Hdrain. now injection Hdrain as _ ->. }
    destruct (IH r1 Hr1) as (frames & rest & Hread & Hdrain).
    rewrite H2 in Hdrain. injection Hdrain as <- <-.
    exists (f1 ++ f2), r2. rewrite H1, Hread. split; [reflexivity|].
    now rewrite app_assoc.
Qed.

(** What the loop body does with one part. *)
Lemma framesOfPart_spec (part : Bytes) :
  headerTerminator <> [] ->
  match framesOfPart part with
  | [] =>
      (forall k, ~ occursAt part headerTerminator k) \/
      exists header,
        part = header ++ headerTerminator /\
        findSequence part headerTerminator = Z.of_nat (length header)
  | [data] =>
      data <> [] /\
      exists header,
        part = header ++ headerTerminator ++ data /\
        findSequence part headerTerminator = Z.of_nat (length header)
  | _ => False
  end.
Proof.
  intros Hterm. unfold Camera.framesOfPart.
  destruct (findSequence_spec part headerTerminator) as [[-> Hnone] | (k & Hk & Hocc & _)].
  { left. exact Hnone. }
  rewrite Hk. destruct (Z.eqb_spec (Z.of_nat k) (-1)) as [E|_]; [lia|].
  destruct Hocc as (header & data & Hpart & Hheader). subst k.
  assert (Hdata : sliceFrom (Z.of_nat (length header) + Z.of_nat (length headerTerminator)) part
                  = data).
  { rewrite <- Nat2Z.inj_add.
    rewrite sliceFrom_suffix by (rewrite Hpart, !length_app; lia).
    rewrite Hpart, app_assoc, <- length_app.
    now rewrite skipn_app, skipn_all, Nat.sub_diag, skipn_O. }
  rewrite Hdata. destruct data as [|d data']; cbn [length Nat.ltb Nat.leb].
  - right. exists header. rewrite app_nil_r in Hpart. split; [exact Hpart | reflexivity].
  - split; [discriminate|]. exists header. split; [exact Hpart | reflexivity].
Qed.

End DrainFacts.

Section ActualStream.
Import Camera.

Lemma boundary_is_nonempty : Camera.boundary <> [].
Proof. discriminate. Qed.

Lemma headerTerminator_is_nonempty : Camera.headerTerminator <> [].
Proof. discriminate. Qed.

End ActualStream.

(** X24. The frame loop on a buffer always ends.  It cuts the buffer into
    parts, each followed by the boundary and holding no earlier boundary,
    and a rest without boundary, which it keeps as the buffer; the frames
    it hands on are those of the parts, in order.  A part gives a frame
    exactly when it holds the header terminator with bytes after its
    first occurrence, and the frame is those bytes. *)
Theorem frame_loop_cuts_buffer_at_boundaries (buffer : Camera.Bytes) :
  let frameOf := Camera.framesOfPart Camera.headerTerminator in
  (exists parts rest,
     Camera.drain Camera.boundary Camera.headerTerminator buffer
     = Some (flat_map frameOf parts, rest) /\
     buffer = Camera.joined Camera.boundary parts rest /\
     Forall (fun p => Camera.findSequence (p ++ Camera.boundary) Camera.boundary
                      = Z.of_nat (length p)) parts /\
     Camera.findSequence rest Camera.boundary = -1) /\
  forall part,
    match frameOf part with
    | [] =>
        (forall k, ~ Camera.occursAt part Camera.headerTerminator k) \/
        exists header,
          part = header ++ Camera.headerTerminator /\
          Camera.findSequence part Camera.headerTerminator = Z.of_nat (length header)
    | [data] =>
        data <> [] /\
        exists header,
          part = header ++ Camera.headerTerminator ++ data /\
          Camera.findSequence part Camera.headerTerminator = Z.of_nat (length header)
    | _ => False
    end.
Proof.
  intros frameOf. split.
  - apply (drain_spec Camera.boundary Camera.headerTerminator boundary_is_nonempty
             (S (length buffer))). lia.
  - intros part. apply framesOfPart_spec. apply headerTerminator_is_nonempty.
Qed.

(** X25. The frames a connection hands on do not depend on how the stream
    arrives in chunks: reading the chunks one by one, starting from the
    empty buffer, gives the frames and the final buffer that the frame loop
    gives on the whole stream at once; so two ways of cutting the same
    stream into chunks give the same result. *)
Theorem frames_do_not_depend_on_chunking (chunks : list Camera.Bytes) :
  (exists frames rest,
     Camera.readAll Camera.boundary Camera.headerTerminator chunks [] = Some (frames, rest) /\
     Camera.drain Camera.boundary Camera.headerTerminator (concat chunks)
     = Some (frames, rest)) /\
  forall chunks',
    concat chunks' = concat chunks ->
    Camera.readAll Camera.boundary Camera.headerTerminator chunks' []
    = Camera.readAll Camera.boundary Camera.headerTerminator chunks [].
Proof.
  assert (Hempty : Camera.findSequence [] Camera.boundary = -1) by reflexivity.
  split.
  - exact (readAll_spec Camera.boundary Camera.headerTerminator boundary_is_nonempty
             chunks [] Hempty).
  - intros chunks' Hsame.
    destruct (readAll_spec Camera.boundary Camera.headerTerminator boundary_is_nonempty
                chunks [] Hempty) as (f & r & -> & Hd).
    destruct (readAll_spec Camera.boundary Camera.headerTerminator boundary_is_nonempty
                chunks' [] Hempty) as (f' & r' & -> & Hd').
    cbn [app] in Hd, Hd'. rewrite Hsame in Hd'. congruence.
Qed.

(** A frame whose boundary arrives split over two chunks. *)
Example reads_a_frame_split_over_chunks :
  let header := [72; 13; 10; 13; 10] in
  let stream := header ++ [255; 216; 255] ++ Camera.boundary ++ [1; 2] in
  Camera.readAll Camera.boundary Camera.headerTerminator
    [firstn 20 stream; skipn 20 stream] []
  = Some ([[255; 216; 255]], [1; 2]).
Proof. vm_compute. reflexivity. Qed.

(** ** The tracking gate *)

Section GateFacts.
Import Tracking.

Ltac gate_cases :=
  repeat match goal with
         | |- context [(?a =? ?b)%Z] => destruct (Z.eqb_spec a b)
         | |- context [Qle_bool ?a ?b] => destruct (Qle_bool a b) eqn:?
         | |- context [hasData ?f] => destruct (hasData f) eqn:?
         end.

(** The gate stays shut when no online eye has a timestamp other than its
    previous one. *)
Lemma gate_idle_when_not_fresh (now : Z) (trackingRate : Q) (syncedEyeUpdates : bool)
  (leftEye rightEye : CameraFrame) (t : Tracker) :
  (isOnline (status leftEye) = true -> timestamp leftEye = Some (previousLeftTimestamp t)) ->
  (isOnline (status rightEye) = true -> timestamp rightEye = Some (previousRightTimestamp t)) ->
  gate now trackingRate syncedEyeUpdates leftEye rightEye t = mkGate false false false t.
Proof.
  intros Hl Hr. unfold gate.
  destruct (isOnline (status leftEye)), (isOnline (status rightEye));
    cbn [andb]; rewrite ?(Hl eq_refl), ?(Hr eq_refl); try reflexivity.
  - rewrite !Z.eqb_refl. cbn [negb orb]. rewrite !andb_false_r. reflexivity.
  - rewrite !Z.eqb_refl. cbn [negb]. rewrite !andb_false_r. reflexivity.
  - rewrite !Z.eqb_refl. cbn [negb]. rewrite !andb_false_r. reflexivity.
Qed.

Lemma gate_spec (now : Z) (trackingRate : Q) (syncedEyeUpdates : bool)
  (leftEye rightEye : CameraFrame) (t : Tracker) :
  let g := gate now trackingRate syncedEyeUpdates leftEye rightEye t in
  (proceed g = false -> g = mkGate false false false t) /\
  (proceed g = true ->
   validLeft g = isOnline (status leftEye) /\
   validRight g = isOnline (status rightEye) /\
   (validLeft g = true ->
    passed now trackingRate leftEye (previousLeftTimestamp t) /\
    timestamp leftEye = Some (previousLeftTimestamp (tracker g))) /\
   (validRight g = true ->
    passed now trackingRate rightEye (previousRightTimestamp t) /\
    timestamp rightEye = Some (previousRightTimestamp (tracker g))) /\
   (validLeft g = false ->
    previousLeftTimestamp (tracker g) = previousLeftTimestamp t) /\
   (validRight g = false ->
    previousRightTimestamp (tracker g) = previousRightTimestamp t) /\
   ((validLeft g = true /\ timestamp leftEye <> Some (previousLeftTimestamp t)) \/
    (validRight g = true /\ timestamp rightEye <> Some (previousRightTimestamp t))) /\
   (syncedEyeUpdates = true -> validLeft g = true -> validRight g = true ->
    timestamp leftEye <> Some (previousLeftTimestamp t) /\
    timestamp rightEye <> Some (previousRightTimestamp t))).
Proof.
  intros g. subst g. unfold gate, passed.
  destruct t as [prevL prevR]. cbn [previousLeftTimestamp previousRightTimestamp].
  destruct (isOnline (status leftEye)), (isOnline (status rightEye)); cbn [andb].
  - destruct (timestamp leftEye) as [tl|], (timestamp rightEye) as [tr|];
      try (split; [reflexivity | discriminate]).
    destruct syncedEyeUpdates; gate_cases;
      cbn [negb andb orb proceed validLeft validRight tracker
           previousLeftTimestamp previousRightTimestamp];
      gate_cases;
      cbn [negb andb orb proceed validLeft validRight tracker
           previousLeftTimestamp previousRightTimestamp];
      (split; [try reflexivity; discriminate | try discriminate]);
      intros _;
      repeat match goal with
             | |- _ /\ _ => split
             | |- _ -> _ => intro
             | |- exists ts, Some ?x = Some ts /\ _ => exists x
             end;
      try reflexivity; try discriminate; try congruence; try lia;
      try (apply Qle_bool_iff; cbn in *; congruence);
      try (left; split; [reflexivity | congruence]);
      try (right; split; [reflexivity | congruence]);
      try (cbn in *; congruence); try (cbn in *; lia).
  - destruct (timestamp leftEye) as [tl|]; [|split; [reflexivity | discriminate]].
    gate_cases;
      cbn [negb andb orb proceed validLeft validRight tracker
           previousLeftTimestamp previousRightTimestamp];
      (split; [try reflexivity; discriminate | try discriminate]);
      intros _;
      repeat match goal with
             | |- _ /\ _ => split
             | |- _ -> _ => intro
             | |- exists ts, Some ?x = Some ts /\ _ => exists x
             end;
      try reflexivity; try discriminate; try congruence; try lia;
      try (apply Qle_bool_iff; cbn in *; congruence);
      try (left; split; [reflexivity | congruence]).
  - destruct (timestamp rightEye) as [tr|]; [|split; [reflexivity | discriminate]].
    gate_cases;
      cbn [negb andb orb proceed validLeft validRight tracker
           previousLeftTimestamp previousRightTimestamp];
      (split; [try reflexivity; discriminate | try discriminate]);
      intros _;
      repeat match goal with
             | |- _ /\ _ => split
             | |- _ -> _ => intro
             | |- exists ts, Some ?x = Some ts /\ _ => exists x
             end;
      try reflexivity; try discriminate; try congruence; try lia;
      try (apply Qle_bool_iff; cbn in *; congruence);
      try (right; split; [reflexivity | congruence]).
  - split; [reflexivity | discriminate].
Qed.

End GateFacts.

(** X26. When the gate lets a run proceed, the frames it marks valid are
    those of the online eyes; each of them has a timestamp other than
    null and 0, a frame that is not blank, and the tracking rate has passed
    since the eye's previous timestamp, which is then set to the eye's
    timestamp; at least one of them has a timestamp other than its
    previous one, and both have with synced updates.  When the gate does
    not proceed, nothing is marked valid and the previous timestamps stay
    as they are. *)
Theorem gate_lets_through_only_checked_frames
  (now : Z) (trackingRate : Q) (syncedEyeUpdates : bool)
  (leftEye rightEye : Tracking.CameraFrame) (t : Tracking.Tracker) :
  let g := Tracking.gate now trackingRate syncedEyeUpdates leftEye rightEye t in
  (Tracking.proceed g = false -> g = Tracking.mkGate false false false t) /\
  (Tracking.proceed g = true ->
   Tracking.validLeft g = Tracking.isOnline (Tracking.status leftEye) /\
   Tracking.validRight g = Tracking.isOnline (Tracking.status rightEye) /\
   (Tracking.validLeft g = true ->
    Tracking.passed now trackingRate leftEye (Tracking.previousLeftTimestamp t) /\
    Tracking.timestamp leftEye
    = Some (Tracking.previousLeftTimestamp (Tracking.tracker g))) /\
   (Tracking.validRight g = true ->
    Tracking.passed now trackingRate rightEye (Tracking.previousRightTimestamp t) /\
    Tracking.timestamp rightEye
    = Some (Tracking.previousRightTimestamp (Tracking.tracker g))) /\
   (Tracking.validLeft g = false ->
    Tracking.previousLeftTimestamp (Tracking.tracker g)
    = Tracking.previousLeftTimestamp t) /\
   (Tracking.validRight g = false ->
    Tracking.previousRightTimestamp (Tracking.tracker g)
    = Tracking.previousRightTimestamp t) /\
   ((Tracking.validLeft g = true /\
     Tracking.timestamp leftEye <> Some (Tracking.previousLeftTimestamp t)) \/
    (Tracking.validRight g = true /\
     Tracking.timestamp rightEye <> Some (Tracking.previousRightTimestamp t))) /\
   (syncedEyeUpdates = true ->
    Tracking.validLeft g = true -> Tracking.validRight g = true ->
    Tracking.timestamp leftEye <> Some (Tracking.previousLeftTimestamp t) /\
    Tracking.timestamp rightEye <> Some (Tracking.previousRightTimestamp t))).
Proof. apply gate_spec. Qed.

(** X27. A frame is processed once: after a run that proceeded, the gate
    stays shut, and changes nothing, for as long as the two camera frames
    in the store are the ones it has seen, whatever the time, the
    tracking rate and the synced-updates setting are then. *)
Theorem gate_processes_a_frame_once
  (now now' : Z) (trackingRate trackingRate' : Q)
  (syncedEyeUpdates syncedEyeUpdates' : bool)
  (leftEye rightEye : Tracking.CameraFrame) (t : Tracking.Tracker)
  (Hproceed :
     Tracking.proceed (Tracking.gate now trackingRate syncedEyeUpdates leftEye rightEye t)
     = true) :
  let g := Tracking.gate now trackingRate syncedEyeUpdates leftEye rightEye t in
  Tracking.gate now' trackingRate' syncedEyeUpdates' leftEye rightEye (Tracking.tracker g)
  = Tracking.mkGate false false false (Tracking.tracker g).
Proof.
  intros g.
  destruct (gate_spec now trackingRate syncedEyeUpdates leftEye rightEye t) as [_ Hspec].
  destruct (Hspec Hproceed) as (Hl & Hr & Hleft & Hright & _).
  fold g in Hl, Hr, Hleft, Hright.
  apply gate_idle_when_not_fresh; intros Hon.
  - rewrite <- Hl in Hon. now apply Hleft.
  - rewrite <- Hr in Hon. now apply Hright.
Qed.

Lemma gate_processes_a_frame_once_witness :
  let leftEye := Tracking.mkCameraFrame [100; 97; 116; 97] (Some 1050) Tracking.Online in
  let rightEye := Tracking.mkCameraFrame [100; 97; 116; 97] (Some 1000) Tracking.Online in
  let t := Tracking.mkTracker 1000 1000 in
  let g := Tracking.gate 1100 50 false leftEye rightEye t in
  Tracking.tracker g = Tracking.mkTracker 1050 1000 /\
  Tracking.gate 2000 50 true leftEye rightEye (Tracking.tracker g)
  = Tracking.mkGate false false false (Tracking.tracker g).
Proof.
  intros leftEye rightEye t g. split; [reflexivity|].
  apply (gate_processes_a_frame_once 1100 2000 50 50 false true leftEye rightEye t).
  reflexivity.
Defined.

(** ** Choosing the values to show *)

Section SelectionFacts.
Import EyeSelection.
Local Open Scope Q_scope.

Lemma negative_false (a : Q) : negative a = false -> 0 <= a.
Proof.
  unfold negative. intros H. apply negb_false_iff in H. now apply Qle_bool_iff.
Qed.

End SelectionFacts.

(** X28. The independent thetas never diverge: whatever the store holds,
    the two eyes get the same first theta and the right eye's second theta
    is not above the left eye's.  Unless both eyes are online, the
    independent values are the combined ones, given to both eyes, for the
    thetas and for the openness. *)
Theorem independent_thetas_never_diverge (s : EyeSelection.Status) :
  let e := EyeSelection.chooseIndependentEyeThetas s in
  let c := EyeSelection.chooseCombinedEyeThetas s in
  EyeSelection.leftTheta1 e = EyeSelection.rightTheta1 e /\
  (EyeSelection.rightTheta2 e <= EyeSelection.leftTheta2 e)%Q /\
  (Tracking.isOnline (EyeSelection.leftEye s)
   && Tracking.isOnline (EyeSelection.rightEye s) = false ->
   e = EyeSelection.mkEyeThetas (EyeSelection.theta1 c) (EyeSelection.theta2 c)
                                (EyeSelection.theta1 c) (EyeSelection.theta2 c) /\
   EyeSelection.chooseIndependentEyeOpenness s
   = (EyeSelection.chooseCombinedEyeOpenness s, EyeSelection.chooseCombinedEyeOpenness s)).
Proof.
  intros e c. subst e c.
  unfold EyeSelection.chooseIndependentEyeThetas, EyeSelection.chooseCombinedEyeThetas,
    EyeSelection.chooseIndependentEyeOpenness, EyeSelection.chooseCombinedEyeOpenness.
  destruct (Tracking.isOnline (EyeSelection.leftEye s)),
    (Tracking.isOnline (EyeSelection.rightEye s)); cbn [andb].
  - destruct (EyeSelection.negative _) eqn:E; cbn.
    + split; [reflexivity|]. split; [apply Qle_refl | discriminate].
    + split; [reflexivity|]. split; [|discriminate].
      apply negative_false in E. lra.
  - cbn. split; [reflexivity|]. split; [apply Qle_refl|]. intros _. split; reflexivity.
  - cbn. split; [reflexivity|]. split; [apply Qle_refl|]. intros _. split; reflexivity.
  - cbn. split; [reflexivity|]. split; [apply Qle_refl|]. intros _. split; reflexivity.
Qed.

(** ** The openness that is shown *)

Section OpennessShown.
Import Types Tracking EyeSelection.
Local Open Scope Q_scope.

Lemma mapOpenness_in_unit (v : Vec3) (eye : Eye) (r : Registry.Registry) :
  0 <= Pipeline.mapOpenness v eye r <= 1.
Proof.
  unfold Pipeline.mapOpenness, SmoothBlink.predict, Binary.predict.
  destruct (Registry.get (SmoothBlink.getKey eye SmoothBlink.VERSION) r);
    [apply clamped_in_unit|].
  destruct (Registry.get (Binary.getKey eye Binary.VERSION) r);
    [apply clamped_in_unit|]. split; discriminate.
Qed.

(** The payload of an action lies in [0, 1]. *)
Local Abbreviation payloadInUnit :=
  (fun a : OpennessAction =>
     match a with
     | UpdateOpennessCombined o | UpdateOpennessLeft o | UpdateOpennessRight o =>
         0 <= o <= 1
     end).

Lemma encoderBlock_in_unit (valid : bool) (encoded : Encoded)
  (update : Q -> OpennessAction) (eye : Eye) (r : Registry.Registry)
  (rest : list OpennessAction) :
  (forall o, 0 <= o <= 1 -> payloadInUnit (update o)) ->
  Forall payloadInUnit rest ->
  Forall payloadInUnit (encoderBlock valid encoded update eye r rest).
Proof.
  intros Hupdate Hrest. unfold encoderBlock.
  destruct valid; [|exact Hrest].
  destruct encoded as [| |v]; [constructor | exact Hrest|].
  constructor; [|exact Hrest]. apply Hupdate, mapOpenness_in_unit.
Qed.

Lemma opennessUpdates_in_unit (g : Gate) (imagesLoad : bool)
  (combined left right : Encoded) (r : Registry.Registry) :
  Forall payloadInUnit (opennessUpdates g imagesLoad combined left right r).
Proof.
  unfold opennessUpdates. destruct (proceed g && imagesLoad); [|constructor].
  repeat (apply encoderBlock_in_unit; [intros o Ho; exact Ho|]). constructor.
Qed.

Lemma updateOpenness_in_unit (s : Status) (a : OpennessAction) :
  opennessInUnit s -> payloadInUnit a -> opennessInUnit (updateOpenness s a).
Proof.
  intros (Hc & Hl & Hr) Ha. destruct a; cbn; repeat split; tauto.
Qed.

Lemma updates_keep_unit (actions : list OpennessAction) (s : Status) :
  opennessInUnit s -> Forall payloadInUnit actions ->
  opennessInUnit (fold_left updateOpenness actions s).
Proof.
  revert s. induction actions as [|a t IH]; intros s Hs Hall; [exact Hs|].
  inversion Hall; subst. cbn [fold_left]. apply IH; [|assumption].
  now apply updateOpenness_in_unit.
Qed.

Lemma chosen_openness_in_unit (s : Status) :
  opennessInUnit s ->
  0 <= chooseCombinedEyeOpenness s <= 1 /\
  0 <= fst (chooseIndependentEyeOpenness s) <= 1 /\
  0 <= snd (chooseIndependentEyeOpenness s) <= 1.
Proof.
  intros (Hc & Hl & Hr).
  unfold chooseCombinedEyeOpenness, chooseIndependentEyeOpenness.
  destruct (isOnline (leftEye s)), (isOnline (rightEye s)); cbn [andb fst snd];
    repeat split; try tauto; discriminate.
Qed.

End OpennessShown.

(** X29. The openness that is shown stays in [0, 1]: when the three stored
    openness values lie in [0, 1], they still do after the actions one run
    of the tracking computation dispatches, whichever encoder calls
    succeed, return null or throw, and so do the values the selection then
    chooses.  A run that does not proceed, or whose images fail to load,
    stores nothing; a run stores a combined value only when both frames are
    valid, and a value for one eye only when that eye's frame is valid. *)
Theorem shown_openness_stays_in_unit_interval
  (g : Tracking.Gate) (imagesLoad : bool) (combined left right : Tracking.Encoded)
  (r : Registry.Registry) (s : EyeSelection.Status)
  (Hunit : EyeSelection.opennessInUnit s) :
  let updates := Tracking.opennessUpdates g imagesLoad combined left right r in
  let s' := fold_left EyeSelection.updateOpenness updates s in
  EyeSelection.opennessInUnit s' /\
  (0 <= EyeSelection.chooseCombinedEyeOpenness s' <= 1)%Q /\
  (0 <= fst (EyeSelection.chooseIndependentEyeOpenness s') <= 1)%Q /\
  (0 <= snd (EyeSelection.chooseIndependentEyeOpenness s') <= 1)%Q /\
  (Tracking.proceed g && imagesLoad = false -> updates = []) /\
  (Tracking.validLeft g && Tracking.validRight g = false ->
   EyeSelection.opennessCombined s' = EyeSelection.opennessCombined s) /\
  (Tracking.validLeft g = false ->
   EyeSelection.opennessLeft s' = EyeSelection.opennessLeft s) /\
  (Tracking.validRight g = false ->
   EyeSelection.opennessRight s' = EyeSelection.opennessRight s).
Proof.
  intros updates s'.
  assert (Hs' : EyeSelection.opennessInUnit s').
  { apply updates_keep_unit; [exact Hunit | apply opennessUpdates_in_unit]. }
  split; [exact Hs'|].
  destruct (chosen_openness_in_unit s' Hs') as (Hc & Hl & Hr).
  split; [exact Hc|]. split; [exact Hl|]. split; [exact Hr|].
  subst s' updates. unfold Tracking.opennessUpdates, Tracking.encoderBlock.
  destruct g as [p vl vr t]. cbn [Tracking.proceed Tracking.validLeft Tracking.validRight].
  split; [intros ->; reflexivity|].
  destruct p, imagesLoad, vl, vr, combined, left, right; cbn;
    repeat split; intros; try reflexivity; discriminate.
Qed.

Lemma shown_openness_witness :
  let model := Types.mkModel (fun _ => 3%Q) in
  let r := Registry.set (Binary.getKey Types.EyeLeft Binary.VERSION) model false
             Registry.empty in
  let g := Tracking.mkGate true true false (Tracking.mkTracker 5 0) in
  let s := EyeSelection.mkStatus Tracking.Online Tracking.Offline
             (EyeSelection.mkThetas 0 0) (EyeSelection.mkThetas 0 0)
             (EyeSelection.mkThetas 0 0) 0 0 0 in
  let updates :=
    Tracking.opennessUpdates g true Tracking.NoLatents
      (Tracking.Latents (0.1, 0.2, 0.3)%Q) Tracking.Throws r in
  (0 <= EyeSelection.chooseCombinedEyeOpenness
          (fold_left EyeSelection.updateOpenness updates s) <= 1)%Q.
Proof.
  intros model r g s updates.
  assert (Hunit : EyeSelection.opennessInUnit s) by (repeat split; discriminate).
  exact (proj1 (proj2 (shown_openness_stays_in_unit_interval g true Tracking.NoLatents
                         (Tracking.Latents (0.1, 0.2, 0.3)%Q) Tracking.Throws r s Hunit))).
Defined.
